(** * Binary-tree rectangle packing: [GrowingPacker] and [Packer]

    A shallow embedding of [src/app/utils/packer.algorithm.util.js] and the
    properties of the two packers it defines.

    Numbers.  The packers compute with JavaScript numbers (IEEE 754
    binary64) using only [+], [-], [*], [/], [<=], [>=] and [>].  There
    are two embeddings of the same source lines.  [Float64] computes on
    binary64 numbers with the primitive floating-point operations, whose
    rounding, infinities and [NaN] are specified in [FloatAxioms]; it
    carries the theorems that hold of every run whatever the operations
    round to (the shape of the tree, the signs of the sizes) and
    evaluates concrete runs.  The other embedding computes on exact
    rationals ([Q]; numeric equality is [==]).  It carries the theorems
    whose statement uses only the structure of the tree, the source's
    own expressions and the outcome of the source's own comparisons, so
    that it does not depend on how the operations round; and the
    geometric theorems, which assume inputs on which every operation of
    the run is exact in binary64 ([exact_fixed], [exact_square]) or
    stays in range ([in_range]).

    Objects.  A tree node is a JavaScript object with the fields [x], [y],
    [width], [height] and, once it has been split, [used], [down] and
    [right].  A field that was never assigned reads [undefined]: [used] is
    then falsy ([false] below) and a child is absent ([None] below).
    Reading a field of an absent child throws a [TypeError], which is kept
    in the result type [res].

    References.  [findNode] returns a reference to a node of the tree and
    [splitNode] mutates that node in place.  A reference is embedded as the
    address ([path]) of the node below the root; [store] writes a node back
    at an address.  [block.fit] is the node returned by [splitNode]; the
    only fields the source ever assigns after a node has been created are
    [used], [down] and [right] (in [splitNode], once, since [findNode]
    never returns a used node), so the [x], [y], [width] and [height] read
    from [block.fit] after the run are those recorded here
    (see [store_fields] and [splitNode_fields]). *)

From Stdlib Require Import Floats.
From Stdlib Require Import QArith Lqa Lia List Bool Permutation.
Import ListNotations.
Open Scope Q_scope.

(** ** Results of computations that can throw *)

Inductive res (A : Type) : Type :=
| Val (a : A)
| TypeError.
Arguments Val {A} a.
Arguments TypeError {A}.

Definition bind {A B} (m : res A) (k : A -> res B) : res B :=
  match m with
  | Val a => k a
  | TypeError => TypeError
  end.

Notation "'do' x <- m ; k" := (bind m (fun x => k))
  (at level 10, x pattern, m at level 100, k at level 200).

(** ** Data *)

(** An input rectangle: any object with [.width] and [.height]. *)
Module Block.
Record t : Type := make { width : Q; height : Q }.
End Block.
Abbreviation block := Block.t.

(** A node of the space-partition tree. *)
Module Node.
#[warnings="-register-all"]
Inductive t : Type :=
  make { used : bool;
         x : Q;
         y : Q;
         width : Q;
         height : Q;
         right : option t;
         down : option t }.
End Node.
Abbreviation node := Node.t.
Abbreviation mkNode := Node.make.

(** The object literal [{x: .., y: .., width: .., height: ..}]. *)
Definition fresh (x0 y0 w h : Q) : node := mkNode false x0 y0 w h None None.

(** Addresses of nodes below a root. *)
Inductive dir : Type := R | D.
Definition path : Type := list dir.

Fixpoint subtree (t : node) (p : path) {struct p} : option node :=
  match p with
  | [] => Some t
  | R :: p' => match Node.right t with Some r => subtree r p' | None => None end
  | D :: p' => match Node.down t with Some d => subtree d p' | None => None end
  end.

(** In-place update of the node at an address. *)
Fixpoint store (t : node) (p : path) (n' : node) {struct p} : node :=
  match p with
  | [] => n'
  | R :: p' =>
      match t with
      | mkNode u x0 y0 w h (Some r) d => mkNode u x0 y0 w h (Some (store r p' n')) d
      | _ => t
      end
  | D :: p' =>
      match t with
      | mkNode u x0 y0 w h r (Some d) => mkNode u x0 y0 w h r (Some (store d p' n'))
      | _ => t
      end
  end.

(** [a > b] on numbers. *)
Definition Qgt_bool (a b : Q) : bool := negb (Qle_bool a b).

(** ** The growing packer (source lines 46-141) *)

Module GrowingPacker.

Record t : Type := make { aspectRatio : Q; root : node }.

Definition init (width height : Q) : t :=
  let aspectRatio := width / height in
  {| aspectRatio := if Qgt_bool aspectRatio 1 then width / height else height / width;
     root := fresh 0 0 width height |}.

(** [findNode]: first free node that fits, [right] before [down];
    [Val None] is the source's [null]. *)
Fixpoint findNode (root : node) (width height : Q) : res (option path) :=
  match root with
  | mkNode u _ _ rw rh r d =>
      if u then
        match r with
        | None => TypeError
        | Some r' =>
            match findNode r' width height with
            | TypeError => TypeError
            | Val (Some p) => Val (Some (R :: p))
            | Val None =>
                match d with
                | None => TypeError
                | Some d' =>
                    match findNode d' width height with
                    | TypeError => TypeError
                    | Val (Some p) => Val (Some (D :: p))
                    | Val None => Val None
                    end
                end
            end
        end
      else if Qle_bool width rw && Qle_bool height rh then Val (Some [])
      else Val None
  end.

(** [splitNode]: the node after the three assignments. *)
Definition splitNode (nd : node) (width height : Q) : node :=
  mkNode true (Node.x nd) (Node.y nd) (Node.width nd) (Node.height nd)
    (Some (fresh (Node.x nd + width) (Node.y nd) (Node.width nd - width) height))
    (Some (fresh (Node.x nd) (Node.y nd + height) (Node.width nd) (Node.height nd - height))).

(** [splitNode(node, w, h)] applied through the reference [p]: the node
    at [p] is updated in place and returned. *)
Definition splitAt (this : t) (p : path) (width height : Q) : res (t * option node) :=
  match subtree (root this) p with
  | Some nd =>
      let nd' := splitNode nd width height in
      Val ({| aspectRatio := aspectRatio this; root := store (root this) p nd' |}, Some nd')
  | None => TypeError
  end.

Definition growRight (this : t) (width height : Q) : res (t * option node) :=
  let newWidth := Node.width (root this) + width in
  let newHeight := newWidth * (1 / aspectRatio this) in
  let this' :=
    {| aspectRatio := aspectRatio this;
       root := mkNode true 0 0 newWidth newHeight
                 (Some (fresh (Node.width (root this)) 0 width newHeight))
                 (Some (root this)) |} in
  do found <- findNode (root this') width height;
  match found with
  | Some p => splitAt this' p width height
  | None => Val (this', None)
  end.

Definition growDown (this : t) (width height : Q) : res (t * option node) :=
  let newHeight := Node.height (root this) + height in
  let newWidth := newHeight * aspectRatio this in
  let this' :=
    {| aspectRatio := aspectRatio this;
       root := mkNode true 0 0 newWidth newHeight
                 (Some (root this))
                 (Some (fresh 0 (Node.height (root this)) newWidth height)) |} in
  do found <- findNode (root this') width height;
  match found with
  | Some p => splitAt this' p width height
  | None => Val (this', None)
  end.

Definition canGrowDown (this : t) (width : Q) : bool :=
  Qle_bool width (Node.width (root this)).

Definition canGrowRight (this : t) (height : Q) : bool :=
  Qle_bool height (Node.height (root this)).

Definition shouldGrowRight (this : t) (width height : Q) : bool :=
  canGrowRight this height
  && Qle_bool (Node.width (root this) + width) (Node.height (root this) * aspectRatio this).

Definition shouldGrowDown (this : t) (width height : Q) : bool :=
  canGrowDown this width
  && Qle_bool (Node.height (root this) + height) (Node.width (root this) * (1 / aspectRatio this)).

Definition growNode (this : t) (width height : Q) : res (t * option node) :=
  if shouldGrowRight this width height then growRight this width height
  else if shouldGrowDown this width height then growDown this width height
  else if canGrowRight this height then growRight this width height
  else if canGrowDown this width then growDown this width height
  else Val (this, None).

(** One iteration of the loop of [fit]; the second component is the
    value assigned to [block.fit]. *)
Definition fit1 (this : t) (b : block) : res (t * option node) :=
  do found <- findNode (root this) (Block.width b) (Block.height b);
  match found with
  | Some p => splitAt this p (Block.width b) (Block.height b)
  | None => growNode this (Block.width b) (Block.height b)
  end.

(** [fit]: the packer after the loop and [block.fit] of every block,
    in input order. *)
Fixpoint fit (this : t) (blocks : list block) : res (t * list (option node)) :=
  match blocks with
  | [] => Val (this, [])
  | b :: bs =>
      do (this1, f) <- fit1 this b;
      do (this2, fs) <- fit this1 bs;
      Val (this2, f :: fs)
  end.

End GrowingPacker.

(** ** The fixed-size packer (source lines 183-219, exported as
       [FixedSizePacker]) *)

Module Packer.

Record t : Type := make { root : node }.

Definition init (width height : Q) : t :=
  {| root := fresh 0 0 width height |}.

Fixpoint findNode (root : node) (width height : Q) : res (option path) :=
  match root with
  | mkNode u _ _ rw rh r d =>
      if u then
        match r with
        | None => TypeError
        | Some r' =>
            match findNode r' width height with
            | TypeError => TypeError
            | Val (Some p) => Val (Some (R :: p))
            | Val None =>
                match d with
                | None => TypeError
                | Some d' =>
                    match findNode d' width height with
                    | TypeError => TypeError
                    | Val (Some p) => Val (Some (D :: p))
                    | Val None => Val None
                    end
                end
            end
        end
      else if Qle_bool width rw && Qle_bool height rh then Val (Some [])
      else Val None
  end.

Definition splitNode (nd : node) (width height : Q) : node :=
  mkNode true (Node.x nd) (Node.y nd) (Node.width nd) (Node.height nd)
    (Some (fresh (Node.x nd + width) (Node.y nd) (Node.width nd - width) height))
    (Some (fresh (Node.x nd) (Node.y nd + height) (Node.width nd) (Node.height nd - height))).

Definition splitAt (this : t) (p : path) (width height : Q) : res (t * option node) :=
  match subtree (root this) p with
  | Some nd =>
      let nd' := splitNode nd width height in
      Val ({| root := store (root this) p nd' |}, Some nd')
  | None => TypeError
  end.

(** One iteration of the loop of [fit]; when [findNode] returns [null]
    nothing is assigned and [block.fit] stays absent. *)
Definition fit1 (this : t) (b : block) : res (t * option node) :=
  do found <- findNode (root this) (Block.width b) (Block.height b);
  match found with
  | Some p => splitAt this p (Block.width b) (Block.height b)
  | None => Val (this, None)
  end.

Fixpoint fit (this : t) (blocks : list block) : res (t * list (option node)) :=
  match blocks with
  | [] => Val (this, [])
  | b :: bs =>
      do (this1, f) <- fit1 this b;
      do (this2, fs) <- fit this1 bs;
      Val (this2, f :: fs)
  end.

End Packer.

(** ** Geometry *)

Record rect : Type := mkRect { rx : Q; ry : Q; rw : Q; rh : Q }.

(** The rectangle a node stands for. *)
Definition region (n : node) : rect :=
  mkRect (Node.x n) (Node.y n) (Node.width n) (Node.height n).

(** Where the caller draws a placed block:
    [Draw(block.fit.x, block.fit.y, block.width, block.height)]. *)
Definition footprint (b : block) (f : node) : rect :=
  mkRect (Node.x f) (Node.y f) (Block.width b) (Block.height b).

Definition open_in (r : rect) (px py : Q) : Prop :=
  rx r < px /\ px < rx r + rw r /\ ry r < py /\ py < ry r + rh r.

Definition closed_in (r : rect) (px py : Q) : Prop :=
  rx r <= px /\ px <= rx r + rw r /\ ry r <= py /\ py <= ry r + rh r.

(** The open rectangles share no point. *)
Definition disjoint (a b : rect) : Prop :=
  forall px py, ~ (open_in a px py /\ open_in b px py).

(** [a] lies within [b]. *)
Definition inside (a b : rect) : Prop :=
  rx b <= rx a /\ rx a + rw a <= rx b + rw b /\
  ry b <= ry a /\ ry a + rh a <= ry b + rh b.

(** A separating axis: the sufficient condition for [disjoint] that the
    tree maintains. *)
Definition apart (a b : rect) : Prop :=
  rx a + rw a <= rx b \/ rx b + rw b <= rx a \/
  ry a + rh a <= ry b \/ ry b + rh b <= ry a.

(** [f], [r] and [d] tile [n]: pairwise disjoint, within [n], and every
    point of [n] is in one of them. *)
Definition tiles (n f r d : rect) : Prop :=
  disjoint r d /\ disjoint f r /\ disjoint f d /\
  inside f n /\ inside r n /\ inside d n /\
  forall px py, closed_in n px py ->
    closed_in f px py \/ closed_in r px py \/ closed_in d px py.

(** All the nodes of a tree. *)
Fixpoint nodes (t : node) : list node :=
  match t with
  | mkNode u x0 y0 w h r d =>
      mkNode u x0 y0 w h r d
      :: (match r with Some r' => nodes r' | None => [] end)
      ++ (match d with Some d' => nodes d' | None => [] end)
  end.

(** The footprints of the blocks that received a placement. *)
Fixpoint footprints (blocks : list block) (fits : list (option node)) : list rect :=
  match blocks, fits with
  | b :: bs, Some f :: fs => footprint b f :: footprints bs fs
  | _ :: bs, None :: fs => footprints bs fs
  | _, _ => []
  end.

(** ** The same code on binary64 numbers

    JavaScript numbers are IEEE 754 binary64 with round-to-nearest-even,
    which is what Rocq's primitive floats compute.  [Float64] is a second
    embedding of the same source lines with [+], [-], [*], [/], [<=],
    [>=] and [>] read as the binary64 operations (a comparison with [NaN]
    is false, an overflow gives an infinity).  It carries the theorems on
    the shape of the tree and on the signs of the sizes, and evaluates
    runs on which rounding or overflow matters. *)

Module Float64.

Module Node.
#[warnings="-register-all"]
Inductive t : Type :=
  make { used : bool;
         x : float;
         y : float;
         width : float;
         height : float;
         right : option t;
         down : option t }.
End Node.

Module Block.
Record t : Type := make { width : float; height : float }.
End Block.

Definition fresh (x0 y0 w h : float) : Node.t := Node.make false x0 y0 w h None None.

Fixpoint subtree (t : Node.t) (p : path) {struct p} : option Node.t :=
  match p with
  | [] => Some t
  | R :: p' => match Node.right t with Some r => subtree r p' | None => None end
  | D :: p' => match Node.down t with Some d => subtree d p' | None => None end
  end.

Fixpoint store (t : Node.t) (p : path) (n' : Node.t) {struct p} : Node.t :=
  match p with
  | [] => n'
  | R :: p' =>
      match t with
      | Node.make u x0 y0 w h (Some r) d => Node.make u x0 y0 w h (Some (store r p' n')) d
      | _ => t
      end
  | D :: p' =>
      match t with
      | Node.make u x0 y0 w h r (Some d) => Node.make u x0 y0 w h r (Some (store d p' n'))
      | _ => t
      end
  end.

Fixpoint nodes (t : Node.t) : list Node.t :=
  match t with
  | Node.make u x0 y0 w h r d =>
      Node.make u x0 y0 w h r d
      :: (match r with Some r' => nodes r' | None => [] end)
      ++ (match d with Some d' => nodes d' | None => [] end)
  end.

(** [findNode] and [splitNode], the same in both packers. *)
Fixpoint findNode (root : Node.t) (width height : float) : res (option path) :=
  match root with
  | Node.make u _ _ rw rh r d =>
      if u then
        match r with
        | None => TypeError
        | Some r' =>
            match findNode r' width height with
            | TypeError => TypeError
            | Val (Some p) => Val (Some (R :: p))
            | Val None =>
                match d with
                | None => TypeError
                | Some d' =>
                    match findNode d' width height with
                    | TypeError => TypeError
                    | Val (Some p) => Val (Some (D :: p))
                    | Val None => Val None
                    end
                end
            end
        end
      else if PrimFloat.leb width rw && PrimFloat.leb height rh then Val (Some [])
      else Val None
  end.

Definition splitNode (nd : Node.t) (width height : float) : Node.t :=
  Node.make true (Node.x nd) (Node.y nd) (Node.width nd) (Node.height nd)
    (Some (fresh (PrimFloat.add (Node.x nd) width) (Node.y nd)
                 (PrimFloat.sub (Node.width nd) width) height))
    (Some (fresh (Node.x nd) (PrimFloat.add (Node.y nd) height)
                 (Node.width nd) (PrimFloat.sub (Node.height nd) height))).

Module Packer.

Record t : Type := make { root : Node.t }.

Definition init (width height : float) : t :=
  {| root := fresh 0%float 0%float width height |}.

Definition splitAt (this : t) (p : path) (width height : float) : res (t * option Node.t) :=
  match subtree (root this) p with
  | Some nd =>
      let nd' := splitNode nd width height in
      Val ({| root := store (root this) p nd' |}, Some nd')
  | None => TypeError
  end.

Definition fit1 (this : t) (b : Block.t) : res (t * option Node.t) :=
  do found <- findNode (root this) (Block.width b) (Block.height b);
  match found with
  | Some p => splitAt this p (Block.width b) (Block.height b)
  | None => Val (this, None)
  end.

Fixpoint fit (this : t) (blocks : list Block.t) : res (t * list (option Node.t)) :=
  match blocks with
  | [] => Val (this, [])
  | b :: bs =>
      do (this1, f) <- fit1 this b;
      do (this2, fs) <- fit this1 bs;
      Val (this2, f :: fs)
  end.

End Packer.

Module GrowingPacker.

Record t : Type := make { aspectRatio : float; root : Node.t }.

Definition init (width height : float) : t :=
  let aspectRatio := PrimFloat.div width height in
  {| aspectRatio := if PrimFloat.ltb 1%float aspectRatio
                    then PrimFloat.div width height
                    else PrimFloat.div height width;
     root := fresh 0%float 0%float width height |}.

Definition splitAt (this : t) (p : path) (width height : float) : res (t * option Node.t) :=
  match subtree (root this) p with
  | Some nd =>
      let nd' := splitNode nd width height in
      Val ({| aspectRatio := aspectRatio this; root := store (root this) p nd' |}, Some nd')
  | None => TypeError
  end.

Definition growRight (this : t) (width height : float) : res (t * option Node.t) :=
  let newWidth := PrimFloat.add (Node.width (root this)) width in
  let newHeight := PrimFloat.mul newWidth (PrimFloat.div 1%float (aspectRatio this)) in
  let this' :=
    {| aspectRatio := aspectRatio this;
       root := Node.make true 0%float 0%float newWidth newHeight
                 (Some (fresh (Node.width (root this)) 0%float width newHeight))
                 (Some (root this)) |} in
  do found <- findNode (root this') width height;
  match found with
  | Some p => splitAt this' p width height
  | None => Val (this', None)
  end.

Definition growDown (this : t) (width height : float) : res (t * option Node.t) :=
  let newHeight := PrimFloat.add (Node.height (root this)) height in
  let newWidth := PrimFloat.mul newHeight (aspectRatio this) in
  let this' :=
    {| aspectRatio := aspectRatio this;
       root := Node.make true 0%float 0%float newWidth newHeight
                 (Some (root this))
                 (Some (fresh 0%float (Node.height (root this)) newWidth height)) |} in
  do found <- findNode (root this') width height;
  match found with
  | Some p => splitAt this' p width height
  | None => Val (this', None)
  end.

Definition canGrowDown (this : t) (width : float) : bool :=
  PrimFloat.leb width (Node.width (root this)).

Definition canGrowRight (this : t) (height : float) : bool :=
  PrimFloat.leb height (Node.height (root this)).

Definition shouldGrowRight (this : t) (width height : float) : bool :=
  canGrowRight this height
  && PrimFloat.leb (PrimFloat.add (Node.width (root this)) width)
                   (PrimFloat.mul (Node.height (root this)) (aspectRatio this)).

Definition shouldGrowDown (this : t) (width height : float) : bool :=
  canGrowDown this width
  && PrimFloat.leb (PrimFloat.add (Node.height (root this)) height)
                   (PrimFloat.mul (Node.width (root this))
                                  (PrimFloat.div 1%float (aspectRatio this))).

Definition growNode (this : t) (width height : float) : res (t * option Node.t) :=
  if shouldGrowRight this width height then growRight this width height
  else if shouldGrowDown this width height then growDown this width height
  else if canGrowRight this height then growRight this width height
  else if canGrowDown this width then growDown this width height
  else Val (this, None).

Definition fit1 (this : t) (b : Block.t) : res (t * option Node.t) :=
  do found <- findNode (root this) (Block.width b) (Block.height b);
  match found with
  | Some p => splitAt this p (Block.width b) (Block.height b)
  | None => growNode this (Block.width b) (Block.height b)
  end.

Fixpoint fit (this : t) (blocks : list Block.t) : res (t * list (option Node.t)) :=
  match blocks with
  | [] => Val (this, [])
  | b :: bs =>
      do (this1, f) <- fit1 this b;
      do (this2, fs) <- fit this1 bs;
      Val (this2, f :: fs)
  end.

End GrowingPacker.

(** The rational a finite binary64 number is; nothing for an infinity or
    [NaN]. *)
Definition exact (f : float) : option Q :=
  match Prim2SF f with
  | S754_zero _ => Some 0
  | S754_finite s m e =>
      let q := match e with
               | Z0 => Z.pos m # 1
               | Zpos p => (Z.pos m * 2 ^ Z.pos p)%Z # 1
               | Zneg p => Z.pos m # (2 ^ p)%positive
               end in
      Some (if s then - q else q)
  | _ => None
  end.

(** The region of a node, as exact rationals. *)
Definition region (n : Node.t) : option rect :=
  match exact (Node.x n), exact (Node.y n), exact (Node.width n), exact (Node.height n) with
  | Some a, Some b, Some c, Some d => Some (mkRect a b c d)
  | _, _, _, _ => None
  end.

(** The footprint of a block at the node recorded for it. *)
Definition footprint (b : Block.t) (f : Node.t) : option rect :=
  match exact (Node.x f), exact (Node.y f), exact (Block.width b), exact (Block.height b) with
  | Some a, Some b', Some c, Some d => Some (mkRect a b' c d)
  | _, _, _, _ => None
  end.

End Float64.

(** ** Tree invariants *)

(** [Carved t ps]: [t] is made of free leaves and of nodes split by
    [splitNode]; [ps] lists (in some order) the footprints carved out of
    it. *)
Inductive Carved : node -> list rect -> Prop :=
| Carved_free n :
    Node.used n = false -> Node.right n = None -> Node.down n = None ->
    0 <= Node.width n -> 0 <= Node.height n ->
    Carved n []
| Carved_split n r d w h pr pd ps :
    Node.used n = true -> Node.right n = Some r -> Node.down n = Some d ->
    0 <= w -> w <= Node.width n -> 0 <= h -> h <= Node.height n ->
    Node.x r == Node.x n + w -> Node.y r == Node.y n ->
    Node.width r == Node.width n - w -> Node.height r == h ->
    Node.x d == Node.x n -> Node.y d == Node.y n + h ->
    Node.width d == Node.width n -> Node.height d == Node.height n - h ->
    Carved r pr -> Carved d pd ->
    Permutation ps (mkRect (Node.x n) (Node.y n) w h :: pr ++ pd) ->
    Carved n ps.

(** [Rooted t ps]: [t] is a root of the growing packer: a carved tree, or
    a root built by [growRight] ([right] is the added strip, [down] the
    previous root) or by [growDown] ([down] is the added strip, [right]
    the previous root). *)
Inductive Rooted : node -> list rect -> Prop :=
| Rooted_carved n ps : Carved n ps -> Rooted n ps
| Rooted_right n strip old pn po ps :
    Node.used n = true -> Node.right n = Some strip -> Node.down n = Some old ->
    0 <= Node.width n -> 0 <= Node.height n ->
    apart (region strip) (region old) ->
    Carved strip pn -> Rooted old po ->
    Permutation ps (pn ++ po) ->
    Rooted n ps
| Rooted_down n strip old pn po ps :
    Node.used n = true -> Node.right n = Some old -> Node.down n = Some strip ->
    0 <= Node.width n -> 0 <= Node.height n ->
    apart (region strip) (region old) ->
    Carved strip pn -> Rooted old po ->
    Permutation ps (po ++ pn) ->
    Rooted n ps.

(** The fields of a node that are never assigned after its creation. *)
Definition same_fields (a b : node) : Prop :=
  Node.x a = Node.x b /\ Node.y a = Node.y b /\
  Node.width a = Node.width b /\ Node.height a = Node.height b.

(** What [fit] records for a block: nothing, or the node returned by
    [splitNode] on a free node the block fits in. *)
Definition recorded (b : block) (f : option node) : Prop :=
  forall nd, f = Some nd ->
    exists l, nd = GrowingPacker.splitNode l (Block.width b) (Block.height b) /\
              Node.used l = false /\
              Block.width b <= Node.width l /\ Block.height b <= Node.height l.

Definition positive (b : block) : Prop := 0 < Block.width b /\ 0 < Block.height b.

(** What a successful search and split does to a tree satisfying [Inv]. *)
Definition placed_in (Inv : node -> list rect -> Prop)
    (t : node) (ps : list rect) (w h : Q) (p : path) : Prop :=
  exists l, subtree t p = Some l /\ Node.used l = false /\
            w <= Node.width l /\ h <= Node.height l /\
            Inv (store t p (GrowingPacker.splitNode l w h))
                (mkRect (Node.x l) (Node.y l) w h :: ps) /\
            same_fields (store t p (GrowingPacker.splitNode l w h)) t.

(** The invariant of the growing packer's state: the tree is [Rooted],
    its root sits at the origin and the aspect ratio is positive. *)
Definition GInv (this : GrowingPacker.t) (ps : list rect) : Prop :=
  Rooted (GrowingPacker.root this) ps /\
  Node.x (GrowingPacker.root this) = 0 /\
  Node.y (GrowingPacker.root this) = 0 /\
  0 < GrowingPacker.aspectRatio this.

(** What one placement attempt leaves behind: the invariant, extended by
    the block's footprint when a node was recorded. *)
Definition outcome (Inv : list rect -> Prop) (b : block) (ps : list rect)
    (f : option node) : Prop :=
  recorded b f /\
  match f with
  | Some nd => Inv (footprint b nd :: ps)
  | None => Inv ps
  end.

(** ** Shapes of trees, in geometric terms *)

(** A used node is exactly covered by its two children and a footprint
    placed at its own [(x, y)]. *)
Definition tiled_by_children (n r d : node) : Prop :=
  exists w h, 0 <= w /\ 0 <= h /\
    tiles (region n) (mkRect (Node.x n) (Node.y n) w h) (region r) (region d).

(** Every node is a leaf, or is fully split and tiled by its children and
    a footprint. *)
Inductive Shape_split : node -> Prop :=
| Shape_leaf n :
    Node.used n = false -> Node.right n = None -> Node.down n = None ->
    Shape_split n
| Shape_node n r d :
    Node.used n = true -> Node.right n = Some r -> Node.down n = Some d ->
    tiled_by_children n r d ->
    Shape_split r -> Shape_split d ->
    Shape_split n.

(** As [Shape_split], except along the chain of roots built by
    [growRight] and [growDown]: such a root is fully split into the added
    strip and the previous root, which do not overlap, but nothing is
    said about their covering it. *)
Inductive Shape_grown : node -> Prop :=
| Shape_base n : Shape_split n -> Shape_grown n
| Shape_right n strip old :
    Node.used n = true -> Node.right n = Some strip -> Node.down n = Some old ->
    disjoint (region strip) (region old) ->
    Shape_split strip -> Shape_grown old ->
    Shape_grown n
| Shape_down n strip old :
    Node.used n = true -> Node.right n = Some old -> Node.down n = Some strip ->
    disjoint (region strip) (region old) ->
    Shape_split strip -> Shape_grown old ->
    Shape_grown n.

(** The recorded node keeps the size of the free region it was found as;
    what the block leaves of it is in the two children. *)
Definition keeps_region (b : block) (f : option node) : Prop :=
  forall nd, f = Some nd ->
    Block.width b <= Node.width nd /\ Block.height b <= Node.height nd /\
    Node.right nd =
      Some (fresh (Node.x nd + Block.width b) (Node.y nd)
                  (Node.width nd - Block.width b) (Block.height b)) /\
    Node.down nd =
      Some (fresh (Node.x nd) (Node.y nd + Block.height b)
                  (Node.width nd) (Node.height nd - Block.height b)).


(** No free node of the tree can take a [w] by [h] block. *)
Definition no_room (t : node) (w h : Q) : Prop :=
  forall m, In m (nodes t) -> Node.used m = false ->
    ~ (w <= Node.width m /\ h <= Node.height m).

(** The object literal [{width: w, height: h}]. *)
Definition B (w h : Q) : block := Block.make w h.

(** ** Placement geometry of a whole tree *)

(** [R] holds between every element of a list and every later one. *)
Fixpoint pairwise {A : Type} (R : A -> A -> Prop) (l : list A) : Prop :=
  match l with
  | [] => True
  | a :: l' => Forall (R a) l' /\ pairwise R l'
  end.

(** Every child lies within its parent. *)
Fixpoint encloses (t : node) : Prop :=
  match t with
  | mkNode _ x0 y0 w h r d =>
      match r with
      | Some r' => inside (region r') (mkRect x0 y0 w h) /\ encloses r'
      | None => True
      end /\
      match d with
      | Some d' => inside (region d') (mkRect x0 y0 w h) /\ encloses d'
      | None => True
      end
  end.

(** The root has the proportions [growRight] and [growDown] produce:
    [width = aspectRatio * height]. *)
Definition ratio_kept (this : GrowingPacker.t) : Prop :=
  Node.width (GrowingPacker.root this)
  == GrowingPacker.aspectRatio this * Node.height (GrowingPacker.root this).

(** The invariant of the growing packer once [ratio_kept] holds. *)
Definition LInv (this : GrowingPacker.t) (ps : list rect) : Prop :=
  GInv this ps /\ encloses (GrowingPacker.root this) /\ ratio_kept this.

(** One step keeps [LInv], never shrinks the root, and records nothing
    exactly when the block is both wider and higher than the root. *)
Definition step_ok (b : block) (this : GrowingPacker.t) (ps : list rect)
    (this' : GrowingPacker.t) (f : option node) : Prop :=
  outcome (LInv this') b ps f /\
  GrowingPacker.aspectRatio this' = GrowingPacker.aspectRatio this /\
  Node.width (GrowingPacker.root this) <= Node.width (GrowingPacker.root this') /\
  Node.height (GrowingPacker.root this) <= Node.height (GrowingPacker.root this') /\
  (f = None <->
   Node.width (GrowingPacker.root this) < Block.width b /\
   Node.height (GrowingPacker.root this) < Block.height b).

(** The Ltac used on closed goals about concrete runs: evaluation. *)
Ltac evaluate :=
  vm_compute;
  first [ reflexivity
        | discriminate
        | let K := fresh in intro K; apply K; reflexivity
        | let K := fresh in intro K; discriminate K ].

(** ** Auxiliary notions for the further properties *)

(** The search-and-split that ends [growRight] and [growDown]:
    [node = this.findNode(this.root, w, h);
     if (node) return this.splitNode(node, w, h); else return null]. *)
Definition search (this : GrowingPacker.t) (w h : Q) : res (GrowingPacker.t * option node) :=
  do found <- GrowingPacker.findNode (GrowingPacker.root this) w h;
  match found with
  | Some p => GrowingPacker.splitAt this p w h
  | None => Val (this, None)
  end.

(** The packer right after the assignment [this.root = {...}] of
    [growRight], before the search. *)
Definition grownRight (this : GrowingPacker.t) (w : Q) : GrowingPacker.t :=
  let newWidth := Node.width (GrowingPacker.root this) + w in
  let newHeight := newWidth * (1 / GrowingPacker.aspectRatio this) in
  {| GrowingPacker.aspectRatio := GrowingPacker.aspectRatio this;
     GrowingPacker.root :=
       mkNode true 0 0 newWidth newHeight
         (Some (fresh (Node.width (GrowingPacker.root this)) 0 w newHeight))
         (Some (GrowingPacker.root this)) |}.

(** The packer right after the assignment [this.root = {...}] of
    [growDown], before the search. *)
Definition grownDown (this : GrowingPacker.t) (h : Q) : GrowingPacker.t :=
  let newHeight := Node.height (GrowingPacker.root this) + h in
  let newWidth := newHeight * GrowingPacker.aspectRatio this in
  {| GrowingPacker.aspectRatio := GrowingPacker.aspectRatio this;
     GrowingPacker.root :=
       mkNode true 0 0 newWidth newHeight
         (Some (GrowingPacker.root this))
         (Some (fresh 0 (Node.height (GrowingPacker.root this)) newWidth h)) |}.

Definition area (r : rect) : Q := rw r * rh r.

Fixpoint total_area (ps : list rect) : Q :=
  match ps with
  | [] => 0
  | r :: ps' => area r + total_area ps'
  end.

(** The area of the free nodes of a tree. *)
Fixpoint free_area (t : node) : Q :=
  match t with
  | mkNode u _ _ w h r d =>
      if u then
        match r with Some r' => free_area r' | None => 0 end
        + match d with Some d' => free_area d' | None => 0 end
      else w * h
  end.

(** The block fits the free node. *)
Definition has_room (w h : Q) (l : node) : Prop :=
  Node.used l = false /\ w <= Node.width l /\ h <= Node.height l.

(** ** Shapes of trees, in the code's own arithmetic *)

(** [r] and [d] are what [splitNode(n, w, h)] assigns to [n.right] and
    [n.down]; each field is the expression of the source. *)
Definition split_of (n r d : node) (w h : Q) : Prop :=
  Node.x r = Node.x n + w /\ Node.y r = Node.y n /\
  Node.width r = Node.width n - w /\ Node.height r = h /\
  Node.x d = Node.x n /\ Node.y d = Node.y n + h /\
  Node.width d = Node.width n /\ Node.height d = Node.height n - h.

(** Every node is a leaf, or was split by [splitNode] for a block that
    passed [findNode]'s test at it. *)
Inductive Built : node -> Prop :=
| Built_leaf n :
    Node.used n = false -> Node.right n = None -> Node.down n = None ->
    Built n
| Built_split n r d w h :
    Node.used n = true -> Node.right n = Some r -> Node.down n = Some d ->
    w <= Node.width n -> h <= Node.height n ->
    split_of n r d w h ->
    Built r -> Built d ->
    Built n.

(** As [Built], except along the chain of roots assigned by [growRight]
    and [growDown] of a packer with aspect ratio [ar]. *)
Inductive Regrown (ar : Q) : node -> Prop :=
| Regrown_base n : Built n -> Regrown ar n
| Regrown_right n strip old w :
    Node.used n = true -> Node.right n = Some strip -> Node.down n = Some old ->
    Node.x n = 0 -> Node.y n = 0 ->
    Node.width n = Node.width old + w ->
    Node.height n = (Node.width old + w) * (1 / ar) ->
    Node.x strip = Node.width old -> Node.y strip = 0 ->
    Node.width strip = w -> Node.height strip = Node.height n ->
    Built strip -> Regrown ar old ->
    Regrown ar n
| Regrown_down n strip old h :
    Node.used n = true -> Node.right n = Some old -> Node.down n = Some strip ->
    Node.x n = 0 -> Node.y n = 0 ->
    Node.height n = Node.height old + h ->
    Node.width n = (Node.height old + h) * ar ->
    Node.x strip = 0 -> Node.y strip = Node.height old ->
    Node.width strip = Node.width n -> Node.height strip = h ->
    Built strip -> Regrown ar old ->
    Regrown ar n.

(** ** Inputs on which binary64 arithmetic is exact

    Whole numbers up to 2^53 are binary64 numbers, and a sum or a
    difference of two of them that is again a whole number up to 2^53 is
    computed without rounding. *)

Definition integral (q : Q) : Prop := exists z : Z, q == inject_Z z.

Definition two53 : Q := inject_Z (2 ^ 53)%Z.

Definition whole (q : Q) : Prop := integral q /\ q <= two53.

Definition whole_block (b : block) : Prop :=
  whole (Block.width b) /\ whole (Block.height b).

Fixpoint total_size (blocks : list block) : Q :=
  match blocks with
  | [] => 0
  | b :: bs => Block.width b + Block.height b + total_size bs
  end.

(** A bin and blocks of whole sizes: every [x + width], [y + height],
    [width - width] and [height - height] of a run of the fixed packer is
    a whole number no larger than the bin. *)
Definition exact_fixed (width height : Q) (blocks : list block) : Prop :=
  whole width /\ whole height /\ Forall whole_block blocks.

(** A square start and blocks of whole sizes, all adding up to at most
    2^53: the aspect ratio is 1, so [growRight] and [growDown] keep the
    root square, and every number of a run of the growing packer is a
    whole number no larger than the final root's side. *)
Definition exact_square (width height : Q) (blocks : list block) : Prop :=
  width == height /\ integral width /\ Forall whole_block blocks /\
  width + total_size blocks <= two53.



(** ** Comparing a binary64 run with the run on rationals *)

Fixpoint to_Q (t : Float64.Node.t) : option node :=
  match t with
  | Float64.Node.make u x0 y0 w h r d =>
      match Float64.exact x0, Float64.exact y0, Float64.exact w, Float64.exact h with
      | Some a, Some b, Some c, Some e =>
          match match r with
                | Some r' => option_map Some (to_Q r')
                | None => Some None
                end,
                match d with
                | Some d' => option_map Some (to_Q d')
                | None => Some None
                end
          with
          | Some qr, Some qd => Some (mkNode u a b c e qr qd)
          | _, _ => None
          end
      | _, _, _, _ => None
      end
  end.

(** Equal trees, numbers compared as numbers. *)
Fixpoint same_tree (a b : node) : bool :=
  match a, b with
  | mkNode u x0 y0 w h r d, mkNode u' x1 y1 w' h' r' d' =>
      Bool.eqb u u' && Qeq_bool x0 x1 && Qeq_bool y0 y1 && Qeq_bool w w' && Qeq_bool h h'
      && match r, r' with
         | Some c, Some c' => same_tree c c'
         | None, None => true
         | _, _ => false
         end
      && match d, d' with
         | Some c, Some c' => same_tree c c'
         | None, None => true
         | _, _ => false
         end
  end.

(** The binary64 tree and recorded nodes are those of the run on
    rationals. *)
Definition same_run (ft : Float64.Node.t) (ffits : list (option Float64.Node.t))
    (t : node) (fits : list (option node)) : bool :=
  match to_Q ft with
  | Some qt => same_tree qt t
  | None => false
  end
  && (fix go (l : list (option Float64.Node.t)) (l' : list (option node)) : bool :=
        match l, l' with
        | [], [] => true
        | None :: l0, None :: l0' => go l0 l0'
        | Some fn :: l0, Some n :: l0' =>
            match to_Q fn with
            | Some qn => same_tree qn n && go l0 l0'
            | None => false
            end
        | _, _ => false
        end) ffits fits.

(** The blocks of a binary64 run as rationals. *)
Fixpoint exact_blocks (bs : list Float64.Block.t) : option (list block) :=
  match bs with
  | [] => Some []
  | b :: bs' =>
      match Float64.exact (Float64.Block.width b), Float64.exact (Float64.Block.height b),
            exact_blocks bs' with
      | Some w, Some h, Some l => Some (Block.make w h :: l)
      | _, _, _ => None
      end
  end.

(** Both embeddings run on the same numbers end in the same tree and
    record the same nodes. *)
Definition fixed_runs_agree (W H : float) (bs : list Float64.Block.t) : bool :=
  match Float64.exact W, Float64.exact H, exact_blocks bs with
  | Some qW, Some qH, Some qbs =>
      match Float64.Packer.fit (Float64.Packer.init W H) bs,
            Packer.fit (Packer.init qW qH) qbs with
      | Val (ft, ffits), Val (t, fits) =>
          same_run (Float64.Packer.root ft) ffits (Packer.root t) fits
      | _, _ => false
      end
  | _, _, _ => false
  end.

Definition growing_runs_agree (W H : float) (bs : list Float64.Block.t) : bool :=
  match Float64.exact W, Float64.exact H, exact_blocks bs with
  | Some qW, Some qH, Some qbs =>
      match Float64.GrowingPacker.fit (Float64.GrowingPacker.init W H) bs,
            GrowingPacker.fit (GrowingPacker.init qW qH) qbs with
      | Val (ft, ffits), Val (t, fits) =>
          same_run (Float64.GrowingPacker.root ft) ffits (GrowingPacker.root t) fits
      | _, _ => false
      end
  | _, _, _ => false
  end.

Arguments Float64.Block.make (width height)%_float.

(** The object literal [{width: w, height: h}] on binary64 numbers. *)
Definition FB (w h : float) : Float64.Block.t := Float64.Block.make w h.
Arguments FB (w h)%_float.
Arguments fixed_runs_agree (W H)%_float bs.
Arguments growing_runs_agree (W H)%_float bs.
Arguments Float64.Packer.init (width height)%_float.
Arguments Float64.GrowingPacker.init (width height)%_float.

(** Hypotheses on concrete whole inputs. *)
Ltac exact_inputs :=
  unfold exact_fixed, exact_square, whole_block; simpl;
  repeat match goal with
         | |- _ /\ _ => split
         | |- Forall _ [] => constructor
         | |- Forall _ (_ :: _) => constructor
         | |- whole _ => split
         | |- integral ?q => exists (Qnum q); reflexivity
         | |- _ == _ => reflexivity
         | |- _ <= _ => evaluate
         end.

(** ** Shapes and signs on binary64 numbers *)

(** [split_of] on the binary64 embedding: the fields are the binary64
    sums and differences of the source. *)
Definition split_of64 (n r d : Float64.Node.t) (w h : float) : Prop :=
  Float64.Node.x r = PrimFloat.add (Float64.Node.x n) w /\
  Float64.Node.y r = Float64.Node.y n /\
  Float64.Node.width r = PrimFloat.sub (Float64.Node.width n) w /\
  Float64.Node.height r = h /\
  Float64.Node.x d = Float64.Node.x n /\
  Float64.Node.y d = PrimFloat.add (Float64.Node.y n) h /\
  Float64.Node.width d = Float64.Node.width n /\
  Float64.Node.height d = PrimFloat.sub (Float64.Node.height n) h.

(** [Built] on the binary64 embedding: every node is a leaf, or was
    split by [splitNode] for a block that passed [findNode]'s test
    [w <= node.width && h <= node.height] at it. *)
Inductive Built64 : Float64.Node.t -> Prop :=
| Built64_leaf n :
    Float64.Node.used n = false ->
    Float64.Node.right n = None -> Float64.Node.down n = None ->
    Built64 n
| Built64_split n r d w h :
    Float64.Node.used n = true ->
    Float64.Node.right n = Some r -> Float64.Node.down n = Some d ->
    PrimFloat.leb w (Float64.Node.width n) = true ->
    PrimFloat.leb h (Float64.Node.height n) = true ->
    split_of64 n r d w h ->
    Built64 r -> Built64 d ->
    Built64 n.

(** [Regrown] on the binary64 embedding: the roots assigned by
    [growRight] and [growDown] have the fields the source computes. *)
Inductive Regrown64 (ar : float) : Float64.Node.t -> Prop :=
| Regrown64_base n : Built64 n -> Regrown64 ar n
| Regrown64_right n strip old w :
    Float64.Node.used n = true ->
    Float64.Node.right n = Some strip -> Float64.Node.down n = Some old ->
    Float64.Node.x n = 0%float -> Float64.Node.y n = 0%float ->
    Float64.Node.width n = PrimFloat.add (Float64.Node.width old) w ->
    Float64.Node.height n =
      PrimFloat.mul (PrimFloat.add (Float64.Node.width old) w) (PrimFloat.div 1 ar) ->
    Float64.Node.x strip = Float64.Node.width old -> Float64.Node.y strip = 0%float ->
    Float64.Node.width strip = w -> Float64.Node.height strip = Float64.Node.height n ->
    Built64 strip -> Regrown64 ar old ->
    Regrown64 ar n
| Regrown64_down n strip old h :
    Float64.Node.used n = true ->
    Float64.Node.right n = Some old -> Float64.Node.down n = Some strip ->
    Float64.Node.x n = 0%float -> Float64.Node.y n = 0%float ->
    Float64.Node.height n = PrimFloat.add (Float64.Node.height old) h ->
    Float64.Node.width n =
      PrimFloat.mul (PrimFloat.add (Float64.Node.height old) h) ar ->
    Float64.Node.x strip = 0%float -> Float64.Node.y strip = Float64.Node.height old ->
    Float64.Node.width strip = Float64.Node.width n -> Float64.Node.height strip = h ->
    Built64 strip -> Regrown64 ar old ->
    Regrown64 ar n.

(** A binary64 number that is zero or positive ([0 <= f] in the source's
    sense: false of [NaN]). *)
Definition nonneg64 (f : float) : Prop := PrimFloat.leb 0 f = true.


(** A positive number other than infinity. *)
Definition positive64 (f : float) : Prop :=
  PrimFloat.ltb 0 f = true /\ PrimFloat.ltb f infinity = true.

Definition positive_block64 (b : Float64.Block.t) : Prop :=
  positive64 (Float64.Block.width b) /\ positive64 (Float64.Block.height b).

(** The same on the specification of binary64 numbers. *)
Definition SF_nonneg (x : spec_float) : bool :=
  match x with
  | S754_nan => false
  | S754_zero _ => true
  | S754_infinity s | S754_finite s _ _ => negb s
  end.


(** The sign bit is clear, or the number is [NaN]. *)
Definition SF_plus (x : spec_float) : bool :=
  match x with
  | S754_nan => true
  | S754_zero s | S754_infinity s | S754_finite s _ _ => negb s
  end.

Definition plus64 (f : float) : Prop := SF_plus (Prim2SF f) = true.

Definition SF_finite (x : spec_float) : bool :=
  match x with
  | S754_zero _ | S754_finite _ _ _ => true
  | _ => false
  end.

(** Every node of the tree has a width and a height satisfying [P]. *)
Inductive Sized64 (P : float -> Prop) : Float64.Node.t -> Prop :=
| Sized64_leaf n :
    Float64.Node.right n = None -> Float64.Node.down n = None ->
    P (Float64.Node.width n) -> P (Float64.Node.height n) ->
    Sized64 P n
| Sized64_node n r d :
    Float64.Node.right n = Some r -> Float64.Node.down n = Some d ->
    P (Float64.Node.width n) -> P (Float64.Node.height n) ->
    Sized64 P r -> Sized64 P d ->
    Sized64 P n.

(** [findNode] returns the free node [l] at [p], which passed its test. *)
Definition found64 (t : Float64.Node.t) (w h : float) (p : path) (l : Float64.Node.t) : Prop :=
  Float64.findNode t w h = Val (Some p) /\
  Float64.subtree t p = Some l /\
  Float64.Node.used l = false /\
  Float64.Node.right l = None /\ Float64.Node.down l = None /\
  PrimFloat.leb w (Float64.Node.width l) = true /\
  PrimFloat.leb h (Float64.Node.height l) = true.

(** [findNode] followed by [splitNode], as at the end of [growRight] and
    [growDown]. *)
Definition place64 (this : Float64.GrowingPacker.t) (w h : float)
    : res (Float64.GrowingPacker.t * option Float64.Node.t) :=
  do found <- Float64.findNode (Float64.GrowingPacker.root this) w h;
  match found with
  | Some p => Float64.GrowingPacker.splitAt this p w h
  | None => Val (this, None)
  end.

(** The packer after the assignment to [this.root] in [growRight]. *)
Definition grownRight64 (this : Float64.GrowingPacker.t) (w : float)
    : Float64.GrowingPacker.t :=
  let newWidth := PrimFloat.add (Float64.Node.width (Float64.GrowingPacker.root this)) w in
  let newHeight :=
    PrimFloat.mul newWidth (PrimFloat.div 1 (Float64.GrowingPacker.aspectRatio this)) in
  {| Float64.GrowingPacker.aspectRatio := Float64.GrowingPacker.aspectRatio this;
     Float64.GrowingPacker.root :=
       Float64.Node.make true 0 0 newWidth newHeight
         (Some (Float64.fresh (Float64.Node.width (Float64.GrowingPacker.root this)) 0
                  w newHeight))
         (Some (Float64.GrowingPacker.root this)) |}.

(** The packer after the assignment to [this.root] in [growDown]. *)
Definition grownDown64 (this : Float64.GrowingPacker.t) (h : float)
    : Float64.GrowingPacker.t :=
  let newHeight := PrimFloat.add (Float64.Node.height (Float64.GrowingPacker.root this)) h in
  let newWidth := PrimFloat.mul newHeight (Float64.GrowingPacker.aspectRatio this) in
  {| Float64.GrowingPacker.aspectRatio := Float64.GrowingPacker.aspectRatio this;
     Float64.GrowingPacker.root :=
       Float64.Node.make true 0 0 newWidth newHeight
         (Some (Float64.GrowingPacker.root this))
         (Some (Float64.fresh 0 (Float64.Node.height (Float64.GrowingPacker.root this))
                  newWidth h)) |}.

(** * Proofs *)

Lemma exact_square_le : forall width height blocks,
  exact_square width height blocks -> height <= width.
Proof. intros W H bs [E _]. rewrite E. apply Qle_refl. Qed.

Lemma splitNode_same : forall nd w h, Packer.splitNode nd w h = GrowingPacker.splitNode nd w h.
Proof. reflexivity. Qed.

Lemma splitNode_fields : forall nd w h, same_fields (GrowingPacker.splitNode nd w h) nd.
Proof. intros; repeat split. Qed.

Lemma Carved_perm : forall t ps ps', Carved t ps -> Permutation ps ps' -> Carved t ps'.
Proof.
  intros t ps ps' H P. destruct H.
  - apply Permutation_nil in P. subst. now apply Carved_free.
  - eapply Carved_split with (w := w) (h := h) (pr := pr) (pd := pd); eauto.
    eapply Permutation_trans; [apply Permutation_sym; exact P | assumption].
Qed.

Lemma Rooted_perm : forall t ps ps', Rooted t ps -> Permutation ps ps' -> Rooted t ps'.
Proof.
  intros t ps ps' H P. destruct H.
  - apply Rooted_carved. eapply Carved_perm; eauto.
  - eapply Rooted_right with (pn := pn) (po := po); eauto.
    eapply Permutation_trans; [apply Permutation_sym; exact P | assumption].
  - eapply Rooted_down with (pn := pn) (po := po); eauto.
    eapply Permutation_trans; [apply Permutation_sym; exact P | assumption].
Qed.

Lemma Carved_fresh : forall x0 y0 w h, 0 <= w -> 0 <= h -> Carved (fresh x0 y0 w h) [].
Proof. intros. now apply Carved_free. Qed.

Lemma Carved_splitNode : forall l w h,
  Node.used l = false -> 0 <= w -> w <= Node.width l -> 0 <= h -> h <= Node.height l ->
  Carved (GrowingPacker.splitNode l w h) [mkRect (Node.x l) (Node.y l) w h].
Proof.
  intros l w h Hu Hw0 Hw Hh0 Hh.
  eapply Carved_split with (w := w) (h := h) (pr := []) (pd := []);
    try reflexivity; simpl; try lra.
  - apply Carved_fresh; lra.
  - apply Carved_fresh; lra.
Qed.

Lemma Carved_place : forall t ps w h,
  Carved t ps -> 0 <= w -> 0 <= h ->
  GrowingPacker.findNode t w h = Val None \/
  exists p, GrowingPacker.findNode t w h = Val (Some p) /\ placed_in Carved t ps w h p.
Proof.
  intros t ps w h C Hw Hh. induction C as
    [n Hu Hr Hd Hnw Hnh
    | n r d w0 h0 pr pd ps Hu Hr Hd Hw0 Hw0' Hh0 Hh0' X1 X2 X3 X4 X5 X6 X7 X8 Cr IHr Cd IHd P].
  - destruct n as [u nx ny nw nh nr nd]; simpl in *; subst.
    destruct (Qle_bool w nw) eqn:E1; simpl; [destruct (Qle_bool h nh) eqn:E2|]; simpl; auto.
    right. exists []. split; [reflexivity|].
    apply Qle_bool_iff in E1, E2.
    exists (mkNode false nx ny nw nh None None); repeat split; simpl; auto.
    apply (Carved_splitNode (mkNode false nx ny nw nh None None)); simpl; auto.
  - destruct n as [u nx ny nw nh nr nd]; simpl in *; subst.
    destruct IHr as [IHr | [p [Ep [l [Hs [Hl [Hlw [Hlh [HC HF]]]]]]]]].
    + rewrite IHr.
      destruct IHd as [IHd | [p [Ep [l [Hs [Hl [Hlw [Hlh [HC HF]]]]]]]]].
      * rewrite IHd. auto.
      * rewrite Ep. right. exists (D :: p). split; [reflexivity|].
        exists l; repeat split; simpl; auto.
        destruct HF as [F1 [F2 [F3 F4]]].
        eapply Carved_split with (w := w0) (h := h0); try reflexivity; simpl; eauto;
          try (rewrite ?F1, ?F2, ?F3, ?F4; assumption).
        rewrite P. rewrite perm_swap. apply perm_skip. apply Permutation_middle.
    + rewrite Ep. right. exists (R :: p). split; [reflexivity|].
      exists l; repeat split; simpl; auto.
      destruct HF as [F1 [F2 [F3 F4]]].
      eapply Carved_split with (w := w0) (h := h0); try reflexivity; simpl; eauto;
        try (rewrite ?F1, ?F2, ?F3, ?F4; assumption).
      rewrite P. apply perm_swap.
Qed.

Lemma findNode_same : Packer.findNode = GrowingPacker.findNode.
Proof. reflexivity. Qed.

Lemma same_fields_region : forall a b, same_fields a b -> region a = region b.
Proof. intros a b [F1 [F2 [F3 F4]]]. unfold region. now rewrite F1, F2, F3, F4. Qed.

Lemma Rooted_place : forall t ps w h,
  Rooted t ps -> 0 <= w -> 0 <= h ->
  GrowingPacker.findNode t w h = Val None \/
  exists p, GrowingPacker.findNode t w h = Val (Some p) /\ placed_in Rooted t ps w h p.
Proof.
  intros t ps w h C Hw Hh. induction C as
    [n ps C
    | n strip old pn po ps Hu Hr Hd Hnw Hnh Ha Cs Co IHo P
    | n strip old pn po ps Hu Hr Hd Hnw Hnh Ha Cs Co IHo P].
  - destruct (Carved_place n ps w h C Hw Hh)
      as [E | [p [Ep [l [Hs [Hl [Hlw [Hlh [HC HF]]]]]]]]]; auto.
    right. exists p. split; auto. exists l; repeat split; auto; try apply HF.
    now apply Rooted_carved.
  - destruct n as [u nx ny nw nh nr nd]; simpl in *; subst.
    destruct (Carved_place strip pn w h Cs Hw Hh)
      as [E | [p [Ep [l [Hs [Hl [Hlw [Hlh [HC HF]]]]]]]]].
    + rewrite E.
      destruct IHo as [IHo | [p [Ep [l [Hs [Hl [Hlw [Hlh [HC HF]]]]]]]]].
      * rewrite IHo. auto.
      * rewrite Ep. right. exists (D :: p). split; [reflexivity|].
        exists l; repeat split; simpl; auto.
        eapply Rooted_right with (pn := pn); try reflexivity; simpl; eauto.
        -- now rewrite (same_fields_region _ _ HF).
        -- rewrite P. apply Permutation_middle.
    + rewrite Ep. right. exists (R :: p). split; [reflexivity|].
      exists l; repeat split; simpl; auto.
      eapply Rooted_right with (po := po); try reflexivity; simpl; eauto.
      * now rewrite (same_fields_region _ _ HF).
      * rewrite P. reflexivity.
  - destruct n as [u nx ny nw nh nr nd]; simpl in *; subst.
    destruct IHo as [IHo | [p [Ep [l [Hs [Hl [Hlw [Hlh [HC HF]]]]]]]]].
    + rewrite IHo.
      destruct (Carved_place strip pn w h Cs Hw Hh)
        as [E | [p [Ep [l [Hs [Hl [Hlw [Hlh [HC HF]]]]]]]]].
      * rewrite E. auto.
      * rewrite Ep. right. exists (D :: p). split; [reflexivity|].
        exists l; repeat split; simpl; auto.
        eapply Rooted_down with (po := po); try reflexivity; simpl; eauto.
        -- now rewrite (same_fields_region _ _ HF).
        -- rewrite P. apply Permutation_middle.
    + rewrite Ep. right. exists (R :: p). split; [reflexivity|].
      exists l; repeat split; simpl; auto.
      eapply Rooted_down with (pn := pn); try reflexivity; simpl; eauto.
      * now rewrite (same_fields_region _ _ HF).
      * rewrite P. reflexivity.
Qed.

Lemma Carved_nonneg : forall t ps, Carved t ps -> 0 <= Node.width t /\ 0 <= Node.height t.
Proof. intros t ps C. destruct C; split; lra. Qed.

Lemma Rooted_nonneg : forall t ps, Rooted t ps -> 0 <= Node.width t /\ 0 <= Node.height t.
Proof. intros t ps C. destruct C; auto. eapply Carved_nonneg; eauto. Qed.

Section Growing.

Import GrowingPacker.

Variables (w h : Q).
Hypotheses (Hw : 0 < w) (Hh : 0 < h).
Let b := Block.make w h.

(** Searching and splitting under the invariant. *)
Lemma G_search : forall this ps,
  GInv this ps ->
  findNode (root this) w h = Val None \/
  exists p this' nd,
    findNode (root this) w h = Val (Some p) /\
    splitAt this p w h = Val (this', Some nd) /\
    outcome (GInv this') b ps (Some nd) /\
    aspectRatio this' = aspectRatio this /\
    same_fields (root this') (root this) /\
    exists l,
      subtree (root this) p = Some l /\
      w <= Node.width l /\ h <= Node.height l /\
      nd = splitNode l w h /\
      root this' = store (root this) p nd.
Proof.
  intros this ps [HR [Hx [Hy Ha]]].
  destruct (Rooted_place (root this) ps w h HR) as
    [E | [p [Ep [l [Hs [Hl [Hlw [Hlh [HC HF]]]]]]]]]; try lra; auto.
  right. exists p. unfold splitAt. rewrite Hs.
  eexists; eexists; split; [exact Ep|]; split; [reflexivity|].
  pose proof HF as [F1 [F2 [F3 F4]]].
  split; [|split; [reflexivity | split; [exact HF|]]].
  - split.
    + intros nd E. inversion E; subst. exists l. auto.
    + unfold GInv; simpl. rewrite F1, F2. auto.
  - exists l. auto.
Qed.

Lemma grown_step : forall this this' ps,
  GInv this' ps ->
  aspectRatio this' = aspectRatio this ->
  exists this'' f,
    (do found <- findNode (root this') w h;
     match found with
     | Some p => splitAt this' p w h
     | None => Val (this', None)
     end) = Val (this'', f) /\
    outcome (GInv this'') b ps f /\
    aspectRatio this'' = aspectRatio this.
Proof.
  intros this this' ps HI Ha.
  destruct (G_search this' ps HI) as [E | [p [t2 [nd [Ep [Es [Ho [Ha2 _]]]]]]]].
  - rewrite E. simpl. exists this', None.
    split; [reflexivity|]. split; [|assumption].
    split; [intros nd E'; discriminate | exact HI].
  - rewrite Ep. simpl. rewrite Es. exists t2, (Some nd).
    split; [reflexivity|]. split; [exact Ho | congruence].
Qed.

Lemma inv_ratio_nonneg : forall a, 0 < a -> 0 <= 1 / a.
Proof.
  intros a Ha. unfold Qdiv. rewrite Qmult_1_l.
  apply Qlt_le_weak. now apply Qinv_lt_0_compat.
Qed.

Lemma growRight_ok : forall this ps,
  GInv this ps ->
  exists this' f,
    growRight this w h = Val (this', f) /\
    outcome (GInv this') b ps f /\
    aspectRatio this' = aspectRatio this.
Proof.
  intros this ps [HR [Hx [Hy Ha]]]. unfold growRight.
  destruct (Rooted_nonneg _ _ HR) as [Hrw Hrh].
  pose proof (inv_ratio_nonneg _ Ha) as Hi.
  assert (Hnw : 0 <= Node.width (root this) + w) by lra.
  assert (Hnh : 0 <= (Node.width (root this) + w) * (1 / aspectRatio this))
    by (apply Qmult_le_0_compat; assumption).
  apply grown_step; [|reflexivity].
  split; [|simpl; auto].
  eapply Rooted_right with (pn := []) (po := ps); try reflexivity; simpl; eauto.
  - unfold apart; simpl. right; left. rewrite Hx. lra.
  - apply Carved_fresh; lra.
Qed.

Lemma growDown_ok : forall this ps,
  GInv this ps ->
  exists this' f,
    growDown this w h = Val (this', f) /\
    outcome (GInv this') b ps f /\
    aspectRatio this' = aspectRatio this.
Proof.
  intros this ps [HR [Hx [Hy Ha]]]. unfold growDown.
  destruct (Rooted_nonneg _ _ HR) as [Hrw Hrh].
  assert (Hnh : 0 <= Node.height (root this) + h) by lra.
  assert (Hnw : 0 <= (Node.height (root this) + h) * aspectRatio this)
    by (apply Qmult_le_0_compat; lra).
  apply grown_step; [|reflexivity].
  split; [|simpl; auto].
  eapply Rooted_down with (pn := []) (po := ps); try reflexivity; simpl; eauto.
  - unfold apart; simpl. right; right; right. rewrite Hy. lra.
  - apply Carved_fresh; lra.
  - now rewrite app_nil_r.
Qed.

Lemma growNode_ok : forall this ps,
  GInv this ps ->
  exists this' f,
    growNode this w h = Val (this', f) /\
    outcome (GInv this') b ps f /\
    aspectRatio this' = aspectRatio this.
Proof.
  intros this ps HI. unfold growNode.
  destruct (shouldGrowRight this w h); [now apply growRight_ok|].
  destruct (shouldGrowDown this w h); [now apply growDown_ok|].
  destruct (canGrowRight this h); [now apply growRight_ok|].
  destruct (canGrowDown this w); [now apply growDown_ok|].
  exists this, None. split; [reflexivity|]. split; [|reflexivity].
  split; [intros nd E; discriminate | exact HI].
Qed.

Lemma fit1_ok : forall this ps,
  GInv this ps ->
  exists this' f,
    fit1 this b = Val (this', f) /\
    outcome (GInv this') b ps f /\
    aspectRatio this' = aspectRatio this.
Proof.
  intros this ps HI. unfold fit1. simpl.
  destruct (G_search this ps HI) as [E | [p [t2 [nd [Ep [Es [Ho [Ha2 _]]]]]]]].
  - rewrite E. simpl. now apply growNode_ok.
  - rewrite Ep. simpl. rewrite Es. exists t2, (Some nd). auto.
Qed.

End Growing.

Lemma GInv_perm : forall this ps ps', GInv this ps -> Permutation ps ps' -> GInv this ps'.
Proof.
  intros this ps ps' [HR HI] P. split; [|exact HI]. eapply Rooted_perm; eauto.
Qed.

Lemma Qdiv_pos : forall a c, 0 < a -> 0 < c -> 0 < a / c.
Proof.
  intros a c Ha Hc. unfold Qdiv. apply Qmult_lt_0_compat; [assumption|].
  now apply Qinv_lt_0_compat.
Qed.

Lemma GInv_init : forall width height,
  0 < width -> 0 < height -> GInv (GrowingPacker.init width height) [].
Proof.
  intros W H HW HH. unfold GrowingPacker.init. split; [|split; [|split]]; simpl; auto.
  - apply Rooted_carved, Carved_fresh; lra.
  - destruct (Qgt_bool (W / H) 1); now apply Qdiv_pos.
Qed.

Lemma G_fit_ok : forall blocks this ps,
  Forall positive blocks -> GInv this ps ->
  exists this' fits,
    GrowingPacker.fit this blocks = Val (this', fits) /\
    GInv this' (footprints blocks fits ++ ps) /\
    Forall2 recorded blocks fits /\
    GrowingPacker.aspectRatio this' = GrowingPacker.aspectRatio this.
Proof.
  induction blocks as [|b bs IH]; intros this ps HP HI.
  - exists this, []. simpl. auto.
  - inversion HP as [|b' bs' [Hbw Hbh] HP']; subst.
    destruct b as [w h]; simpl in Hbw, Hbh.
    destruct (fit1_ok w h Hbw Hbh this ps HI) as [t1 [f [E1 [[Hrec Ho] Ha1]]]].
    simpl. rewrite E1. simpl.
    destruct f as [nd|].
    + destruct (IH t1 _ HP' Ho) as [t2 [fs [E2 [HI2 [HF2 Ha2]]]]].
      rewrite E2. simpl. exists t2, (Some nd :: fs).
      split; [reflexivity|]. split; [|split; [constructor; assumption | congruence]].
      eapply GInv_perm; [exact HI2|]. simpl.
      apply Permutation_sym, Permutation_middle.
    + destruct (IH t1 _ HP' Ho) as [t2 [fs [E2 [HI2 [HF2 Ha2]]]]].
      rewrite E2. simpl. exists t2, (None :: fs).
      split; [reflexivity|]. split; [exact HI2|].
      split; [constructor; assumption | congruence].
Qed.

Section Fixed.

Import Packer.

Lemma P_fit1_ok : forall b this ps,
  positive b -> Carved (root this) ps ->
  exists this' f,
    fit1 this b = Val (this', f) /\
    outcome (Carved (root this')) b ps f /\
    same_fields (root this') (root this).
Proof.
  intros [w h] this ps [Hw Hh] HC; simpl in Hw, Hh. unfold fit1; simpl.
  rewrite findNode_same.
  destruct (Carved_place (root this) ps w h HC) as
    [E | [p [Ep [l [Hs [Hl [Hlw [Hlh [HC' HF]]]]]]]]]; try lra.
  - rewrite E. simpl. exists this, None.
    split; [reflexivity|]. split; [|repeat split].
    split; [intros nd E'; discriminate | exact HC].
  - rewrite Ep. simpl. unfold splitAt. rewrite Hs.
    eexists; eexists. split; [reflexivity|]. split; [|exact HF].
    split; [|exact HC'].
    intros nd E. inversion E; subst. exists l. auto.
Qed.

Lemma P_fit_ok : forall blocks this ps,
  Forall positive blocks -> Carved (root this) ps ->
  exists this' fits,
    fit this blocks = Val (this', fits) /\
    Carved (root this') (footprints blocks fits ++ ps) /\
    Forall2 recorded blocks fits /\
    same_fields (root this') (root this).
Proof.
  induction blocks as [|b bs IH]; intros this ps HP HI.
  - exists this, []. simpl. repeat split; auto.
  - inversion HP as [|b' bs' Hb HP']; subst.
    destruct (P_fit1_ok b this ps Hb HI) as [t1 [f [E1 [[Hrec Ho] Ha1]]]].
    simpl. rewrite E1. simpl.
    assert (T : forall a, same_fields a (root t1) -> same_fields a (root this))
      by (intros a [G1 [G2 [G3 G4]]]; destruct Ha1 as [K1 [K2 [K3 K4]]];
          repeat split; congruence).
    destruct f as [nd|].
    + destruct (IH t1 _ HP' Ho) as [t2 [fs [E2 [HI2 [HF2 Ha2]]]]].
      rewrite E2. simpl. exists t2, (Some nd :: fs).
      split; [reflexivity|]. split; [|split; [constructor; assumption | now apply T]].
      eapply Carved_perm; [exact HI2|]. simpl.
      apply Permutation_sym, Permutation_middle.
    + destruct (IH t1 _ HP' Ho) as [t2 [fs [E2 [HI2 [HF2 Ha2]]]]].
      rewrite E2. simpl. exists t2, (None :: fs).
      split; [reflexivity|]. split; [exact HI2|].
      split; [constructor; assumption | now apply T].
Qed.

End Fixed.

(** ** Geometry lemmas *)

Lemma apart_disjoint : forall a c, apart a c -> disjoint a c.
Proof.
  intros a c H px py [[A1 [A2 [A3 A4]]] [C1 [C2 [C3 C4]]]].
  destruct H as [H | [H | [H | H]]]; lra.
Qed.

Lemma split_tiles : forall n r d w h,
  0 <= w -> w <= Node.width n -> 0 <= h -> h <= Node.height n ->
  Node.x r == Node.x n + w -> Node.y r == Node.y n ->
  Node.width r == Node.width n - w -> Node.height r == h ->
  Node.x d == Node.x n -> Node.y d == Node.y n + h ->
  Node.width d == Node.width n -> Node.height d == Node.height n - h ->
  tiles (region n) (mkRect (Node.x n) (Node.y n) w h) (region r) (region d).
Proof.
  intros n r d w h Hw0 Hw Hh0 Hh X1 X2 X3 X4 X5 X6 X7 X8.
  unfold tiles. split; [|split; [|split; [|split; [|split; [|split]]]]].
  - apply apart_disjoint. unfold apart; simpl. lra.
  - apply apart_disjoint. unfold apart; simpl. lra.
  - apply apart_disjoint. unfold apart; simpl. lra.
  - unfold inside; simpl. lra.
  - unfold inside; simpl. lra.
  - unfold inside; simpl. lra.
  - unfold closed_in; simpl. intros px py [P1 [P2 [P3 P4]]].
    destruct (Qlt_le_dec (Node.y n + h) py) as [Hy | Hy].
    + right; right. lra.
    + destruct (Qlt_le_dec (Node.x n + w) px) as [Hx | Hx].
      * right; left. lra.
      * left. lra.
Qed.

Lemma Carved_shape : forall t ps, Carved t ps -> Shape_split t.
Proof.
  intros t ps C. induction C.
  - now apply Shape_leaf.
  - eapply Shape_node; eauto. exists w, h. split; [assumption|]. split; [assumption|].
    now apply split_tiles.
Qed.

Lemma Rooted_shape : forall t ps, Rooted t ps -> Shape_grown t.
Proof.
  intros t ps C. induction C.
  - eapply Shape_base, Carved_shape; eauto.
  - eapply Shape_right; eauto using apart_disjoint, Carved_shape.
  - eapply Shape_down; eauto using apart_disjoint, Carved_shape.
Qed.



Lemma recorded_keeps : forall b f, recorded b f -> keeps_region b f.
Proof.
  intros b f H nd E. destruct (H nd E) as [l [El [Hu [Hw Hh]]]]. subst nd. simpl.
  repeat split; assumption.
Qed.

(** ** References stay valid *)

Lemma subtree_store : forall p t nd n',
  subtree t p = Some nd -> subtree (store t p n') p = Some n'.
Proof.
  induction p as [|[|] p IH]; intros t nd n' H; simpl in *; auto.
  - destruct t as [u nx ny nw nh [r|] d]; simpl in *; [eauto | discriminate].
  - destruct t as [u nx ny nw nh r [d|]]; simpl in *; [eauto | discriminate].
Qed.

(** Splitting the free node at [p] changes [x], [y], [width], [height] of
    no node of the tree: a reference taken earlier still reads the same
    four fields. *)
Lemma store_fields : forall p t nd n' q m,
  subtree t p = Some nd ->
  Node.right nd = None -> Node.down nd = None ->
  same_fields n' nd ->
  subtree t q = Some m ->
  exists m', subtree (store t p n') q = Some m' /\ same_fields m' m.
Proof.
  induction p as [|[|] p IH]; intros t nd n' q m Hp Hr Hd HF Hq; simpl in *.
  - inversion Hp; subst nd. destruct q as [|[|] q]; simpl in Hq.
    + inversion Hq; subst m. exists n'. split; [reflexivity | assumption].
    + rewrite Hr in Hq. discriminate.
    + rewrite Hd in Hq. discriminate.
  - destruct t as [u nx ny nw nh [r|] d]; simpl in *; [|discriminate].
    destruct q as [|[|] q]; simpl in *.
    + inversion Hq; subst m. eexists; split; [reflexivity | repeat split].
    + eapply IH; eauto.
    + exists m. split; [assumption | repeat split].
  - destruct t as [u nx ny nw nh r [d|]]; simpl in *; [|discriminate].
    destruct q as [|[|] q]; simpl in *.
    + inversion Hq; subst m. eexists; split; [reflexivity | repeat split].
    + exists m. split; [assumption | repeat split].
    + eapply IH; eauto.
Qed.

(** The loop of [fit] run on [bs1 ++ bs2] passes through the state that
    [fit] on [bs1] ends in: a property of the final state of every run is
    a property of every intermediate state. *)
Lemma G_fit_app : forall bs1 bs2 this,
  GrowingPacker.fit this (bs1 ++ bs2) =
  (do (this1, fs1) <- GrowingPacker.fit this bs1;
   do (this2, fs2) <- GrowingPacker.fit this1 bs2;
   Val (this2, fs1 ++ fs2)).
Proof.
  induction bs1 as [|b bs1 IH]; intros bs2 this; simpl.
  - destruct (GrowingPacker.fit this bs2) as [[t2 fs2]|]; reflexivity.
  - destruct (GrowingPacker.fit1 this b) as [[t1 f]|]; simpl; [|reflexivity].
    rewrite IH. destruct (GrowingPacker.fit t1 bs1) as [[t1' fs1]|]; simpl; [|reflexivity].
    destruct (GrowingPacker.fit t1' bs2) as [[t2 fs2]|]; reflexivity.
Qed.

Lemma P_fit_app : forall bs1 bs2 this,
  Packer.fit this (bs1 ++ bs2) =
  (do (this1, fs1) <- Packer.fit this bs1;
   do (this2, fs2) <- Packer.fit this1 bs2;
   Val (this2, fs1 ++ fs2)).
Proof.
  induction bs1 as [|b bs1 IH]; intros bs2 this; simpl.
  - destruct (Packer.fit this bs2) as [[t2 fs2]|]; reflexivity.
  - destruct (Packer.fit1 this b) as [[t1 f]|]; simpl; [|reflexivity].
    rewrite IH. destruct (Packer.fit t1 bs1) as [[t1' fs1]|]; simpl; [|reflexivity].
    destruct (Packer.fit t1' bs2) as [[t2 fs2]|]; reflexivity.
Qed.

(** ** No overlap and containment *)

Lemma inside_trans : forall a c e, inside a c -> inside c e -> inside a e.
Proof. unfold inside. intros a c e H1 H2. lra. Qed.

Lemma apart_shrink : forall a c a' c',
  apart a c -> inside a' a -> inside c' c -> apart a' c'.
Proof. unfold apart, inside. intros a c a' c' H H1 H2. lra. Qed.

Lemma apart_sym : forall a c, apart a c -> apart c a.
Proof. unfold apart. intros a c H. lra. Qed.

Lemma pairwise_app : forall (A : Type) (R : A -> A -> Prop) l1 l2,
  pairwise R l1 -> pairwise R l2 ->
  (forall a c, In a l1 -> In c l2 -> R a c) ->
  pairwise R (l1 ++ l2).
Proof.
  induction l1 as [|a l1 IH]; intros l2 H1 H2 HX; simpl; auto.
  destruct H1 as [Ha H1]. split.
  - apply Forall_app. split; [assumption|].
    apply Forall_forall. intros c Hc. apply HX; simpl; auto.
  - apply IH; auto. intros a' c Ha' Hc. apply HX; simpl; auto.
Qed.

Lemma pairwise_perm : forall (A : Type) (R : A -> A -> Prop) l l',
  (forall a c, R a c -> R c a) ->
  Permutation l l' -> pairwise R l -> pairwise R l'.
Proof.
  intros A R l l' Hsym P. induction P as [|a l l' P IH|a c l|l l' l'' P1 IH1 P2 IH2]; simpl; auto.
  - intros [H1 H2]. split; auto. now rewrite <- P.
  - intros [H1 [H2 H3]]. inversion H1; subst. repeat split; auto.
  Qed.

Lemma pairwise_impl : forall (A : Type) (R S : A -> A -> Prop) l,
  (forall a c, R a c -> S a c) -> pairwise R l -> pairwise S l.
Proof.
  induction l as [|a l IH]; intros HRS; simpl; auto.
  intros [H1 H2]. split; auto. eapply Forall_impl; [|exact H1]. auto.
Qed.

Lemma Carved_geom : forall t ps,
  Carved t ps ->
  Forall (fun f => inside f (region t)) ps /\ pairwise apart ps.
Proof.
  intros t ps C. induction C as
    [n Hu Hr Hd Hnw Hnh
    | n r d w0 h0 pr pd ps Hu Hr Hd Hw0 Hw0' Hh0 Hh0' X1 X2 X3 X4 X5 X6 X7 X8
        Cr [Ir Ar] Cd [Id Ad] P].
  - split; simpl; auto.
  - set (F := mkRect (Node.x n) (Node.y n) w0 h0) in *.
    assert (HF : inside F (region n)) by (unfold inside; simpl; lra).
    assert (Hr' : inside (region r) (region n)) by (unfold inside; simpl; lra).
    assert (Hd' : inside (region d) (region n)) by (unfold inside; simpl; lra).
    assert (AFr : apart F (region r)) by (unfold apart; simpl; lra).
    assert (AFd : apart F (region d)) by (unfold apart; simpl; lra).
    assert (Ard : apart (region r) (region d)) by (unfold apart; simpl; lra).
    assert (R0 : inside F F) by (unfold inside; lra).
    rewrite Forall_forall in Ir, Id.
    split.
    + rewrite P. constructor; [assumption|]. apply Forall_app. split;
        apply Forall_forall; intros f Hf; eapply inside_trans; eauto.
    + eapply pairwise_perm; [exact apart_sym | apply Permutation_sym; exact P |].
      simpl. split.
      * apply Forall_app. split; apply Forall_forall; intros f Hf.
        -- eapply apart_shrink; [exact AFr | exact R0 | auto].
        -- eapply apart_shrink; [exact AFd | exact R0 | auto].
      * apply pairwise_app; auto. intros f g Hf Hg.
        eapply apart_shrink; [exact Ard | auto | auto].
Qed.

Lemma encloses_children : forall t r d,
  encloses t -> Node.right t = Some r -> Node.down t = Some d ->
  inside (region r) (region t) /\ encloses r /\
  inside (region d) (region t) /\ encloses d.
Proof.
  intros [u nx ny nw nh nr nd] r d H Hr Hd; simpl in *; subst.
  destruct H as [[H1 H2] [H3 H4]]. auto.
Qed.

Lemma Rooted_geom : forall t ps,
  Rooted t ps -> encloses t ->
  Forall (fun f => inside f (region t)) ps /\ pairwise apart ps.
Proof.
  intros t ps C. induction C as
    [n ps C
    | n strip old pn po ps Hu Hr Hd Hnw Hnh Ha Cs Co IHo P
    | n strip old pn po ps Hu Hr Hd Hnw Hnh Ha Cs Co IHo P]; intros HE.
  - now apply Carved_geom.
  - destruct (encloses_children _ _ _ HE Hr Hd) as [I1 [E1 [I2 E2]]].
    destruct (Carved_geom _ _ Cs) as [Is As]. destruct (IHo E2) as [Io Ao].
    rewrite Forall_forall in Is, Io.
    split.
    + rewrite P. apply Forall_app. split;
        apply Forall_forall; intros f Hf; eapply inside_trans; eauto.
    + eapply pairwise_perm; [exact apart_sym | apply Permutation_sym; exact P |].
      apply pairwise_app; auto. intros f g Hf Hg.
      eapply apart_shrink; [exact Ha | auto | auto].
  - destruct (encloses_children _ _ _ HE Hr Hd) as [I1 [E1 [I2 E2]]].
    destruct (Carved_geom _ _ Cs) as [Is As]. destruct (IHo E1) as [Io Ao].
    rewrite Forall_forall in Is, Io.
    split.
    + rewrite P. apply Forall_app. split;
        apply Forall_forall; intros f Hf; eapply inside_trans; eauto.
    + eapply pairwise_perm; [exact apart_sym | apply Permutation_sym; exact P |].
      apply pairwise_app; auto. intros f g Hf Hg.
      eapply apart_shrink; [apply apart_sym; exact Ha | auto | auto].
Qed.

Lemma Carved_encloses : forall t ps, Carved t ps -> encloses t.
Proof.
  intros t ps C. induction C as
    [n Hu Hr Hd Hnw Hnh
    | n r d w0 h0 pr pd ps Hu Hr Hd Hw0 Hw0' Hh0 Hh0' X1 X2 X3 X4 X5 X6 X7 X8
        Cr IHr Cd IHd P];
    destruct n as [u nx ny nw nh nr nd]; simpl in *; subst; auto.
  repeat split; simpl; auto; lra.
Qed.

(** ** The growing packer under [ratio_kept] *)

Lemma ratio_right : forall a W w, 0 < a -> a * ((W + w) * (1 / a)) == W + w.
Proof. intros. field. lra. Qed.

Lemma grow_right_height : forall a W H w,
  0 < a -> 0 <= w -> W == a * H -> H <= (W + w) * (1 / a).
Proof.
  intros a W H w Ha Hw E.
  assert (Hi : 0 < / a) by now apply Qinv_lt_0_compat.
  assert (E2 : (W + w) * (1 / a) == H + w * / a) by (rewrite E; field; lra).
  rewrite E2. assert (0 <= w * / a) by (apply Qmult_le_0_compat; lra). lra.
Qed.

Lemma grow_down_width : forall a W H h,
  0 < a -> 0 <= h -> W == a * H -> W <= (H + h) * a.
Proof. intros a W H h Ha Hh E. rewrite E. nra. Qed.

Lemma Qle_bool_false : forall a c, Qle_bool a c = false -> c < a.
Proof.
  intros a c H. apply Qnot_le_lt. intro K. apply Qle_bool_iff in K. congruence.
Qed.

Lemma Qle_bool_refl : forall a, Qle_bool a a = true.
Proof. intro a. apply Qle_bool_iff. apply Qle_refl. Qed.

Lemma store_same_fields : forall p t l n',
  subtree t p = Some l -> same_fields n' l -> same_fields (store t p n') t.
Proof.
  destruct p as [|[|] p]; intros t l n' Hs HF; simpl in *.
  - inversion Hs; subst. assumption.
  - destruct t as [u nx ny nw nh [r|] d]; simpl in *; [repeat split | discriminate].
  - destruct t as [u nx ny nw nh r [d|]]; simpl in *; [repeat split | discriminate].
Qed.

Lemma store_encloses : forall p t l n',
  encloses t -> subtree t p = Some l -> same_fields n' l -> encloses n' ->
  encloses (store t p n').
Proof.
  induction p as [|[|] p IH]; intros t l n' HE Hs HF HN; simpl in *; auto.
  - destruct t as [u nx ny nw nh [r|] d]; simpl in *; [|discriminate].
    destruct HE as [[I1 E1] E2]. split; [|assumption]. split; [|eauto].
    now rewrite (same_fields_region _ _ (store_same_fields p r l n' Hs HF)).
  - destruct t as [u nx ny nw nh r [d|]]; simpl in *; [|discriminate].
    destruct HE as [E1 [I2 E2]]. split; [assumption|]. split; [|eauto].
    now rewrite (same_fields_region _ _ (store_same_fields p d l n' Hs HF)).
Qed.

Lemma subtree_inside : forall p t l,
  encloses t -> subtree t p = Some l -> inside (region l) (region t).
Proof.
  induction p as [|[|] p IH]; intros t l HE Hs; simpl in *.
  - inversion Hs; subst. unfold inside. lra.
  - destruct t as [u nx ny nw nh [r|] d]; simpl in *; [|discriminate].
    destruct HE as [[I1 E1] E2]. eapply inside_trans; [eapply IH; eauto | exact I1].
  - destruct t as [u nx ny nw nh r [d|]]; simpl in *; [|discriminate].
    destruct HE as [E1 [I2 E2]]. eapply inside_trans; [eapply IH; eauto | exact I2].
Qed.

Lemma splitNode_encloses : forall l w h,
  0 <= w -> w <= Node.width l -> 0 <= h -> h <= Node.height l ->
  encloses (GrowingPacker.splitNode l w h).
Proof.
  intros l w h H1 H2 H3 H4. simpl. unfold inside; simpl. repeat split; lra.
Qed.

Section Landscape.

Import GrowingPacker.

Variables (w h : Q).
Hypotheses (Hw : 0 < w) (Hh : 0 < h).
Let b := Block.make w h.

(** [growRight] when the block is no higher than the new root: the new
    strip is found and split. *)
Lemma growRight_eq : forall this,
  let newWidth := Node.width (root this) + w in
  let newHeight := newWidth * (1 / aspectRatio this) in
  let strip := splitNode (fresh (Node.width (root this)) 0 w newHeight) w h in
  h <= newHeight ->
  growRight this w h =
  Val ({| aspectRatio := aspectRatio this;
          root := mkNode true 0 0 newWidth newHeight (Some strip) (Some (root this)) |},
       Some strip).
Proof.
  intros this newWidth newHeight strip Hle. unfold growRight. simpl.
  rewrite Qle_bool_refl. apply Qle_bool_iff in Hle.
  fold newWidth. fold newHeight. rewrite Hle. reflexivity.
Qed.

(** [growDown] when the old tree has no room and the block is no wider
    than the new root: the new strip is found and split. *)
Lemma growDown_eq : forall this,
  let newHeight := Node.height (root this) + h in
  let newWidth := newHeight * aspectRatio this in
  let strip := splitNode (fresh 0 (Node.height (root this)) newWidth h) w h in
  findNode (root this) w h = Val None ->
  w <= newWidth ->
  growDown this w h =
  Val ({| aspectRatio := aspectRatio this;
          root := mkNode true 0 0 newWidth newHeight (Some (root this)) (Some strip) |},
       Some strip).
Proof.
  intros this newHeight newWidth strip Hnone Hle. unfold growDown. simpl.
  rewrite Hnone. rewrite Qle_bool_refl. apply Qle_bool_iff in Hle.
  fold newHeight. fold newWidth. rewrite Hle. reflexivity.
Qed.

Lemma L_growRight : forall this ps,
  LInv this ps -> h <= Node.height (root this) ->
  exists this' f, growRight this w h = Val (this', f) /\ step_ok b this ps this' f.
Proof.
  intros this ps [HG [HE HR]] Hle.
  pose proof HG as [HRt [Hx [Hy Ha]]].
  destruct (Rooted_nonneg _ _ HRt) as [Hrw Hrh].
  pose proof (grow_right_height _ _ _ w Ha (Qlt_le_weak _ _ Hw) HR) as Hmono.
  destruct (growRight_ok w h Hw Hh this ps HG) as [t' [f [E [[Hrec Ho] Har]]]].
  rewrite growRight_eq in E by lra. inversion E; subst t' f; clear E.
  eexists; eexists. split; [apply growRight_eq; lra|].
  split; [|split; [reflexivity | split; [simpl; lra | split; [simpl; lra|]]]].
  - split; [exact Hrec|]. split; [exact Ho|]. split.
    + simpl. unfold inside; simpl. rewrite Hx, Hy. repeat split; try lra; assumption.
    + unfold ratio_kept; simpl. symmetry. apply ratio_right. assumption.
  - split; [discriminate | unfold b; simpl; lra].
Qed.

Lemma L_growDown : forall this ps,
  LInv this ps -> findNode (root this) w h = Val None -> w <= Node.width (root this) ->
  exists this' f, growDown this w h = Val (this', f) /\ step_ok b this ps this' f.
Proof.
  intros this ps [HG [HE HR]] Hnone Hle.
  pose proof HG as [HRt [Hx [Hy Ha]]].
  destruct (Rooted_nonneg _ _ HRt) as [Hrw Hrh].
  pose proof (grow_down_width _ _ _ h Ha (Qlt_le_weak _ _ Hh) HR) as Hmono.
  destruct (growDown_ok w h Hw Hh this ps HG) as [t' [f [E [[Hrec Ho] Har]]]].
  rewrite growDown_eq in E by (auto; lra). inversion E; subst t' f; clear E.
  eexists; eexists. split; [apply growDown_eq; auto; lra|].
  split; [|split; [reflexivity | split; [simpl; lra | split; [simpl; lra|]]]].
  - split; [exact Hrec|]. split; [exact Ho|]. split.
    + simpl. unfold inside; simpl. rewrite Hx, Hy. repeat split; try lra; assumption.
    + unfold ratio_kept; simpl. ring.
  - split; [discriminate | unfold b; simpl; lra].
Qed.

Lemma L_fit1 : forall this ps,
  LInv this ps ->
  exists this' f, fit1 this b = Val (this', f) /\ step_ok b this ps this' f.
Proof.
  intros this ps HL. pose proof HL as [HG [HE HR]].
  pose proof HG as [HRt [Hx [Hy Ha]]].
  unfold fit1. simpl.
  destruct (G_search w h Hw Hh this ps HG)
    as [E | [p [t2 [nd [Ep [Es [[Hrec Ho] [Ha2 [HF [l [Hs [Hlw [Hlh [End Ert]]]]]]]]]]]]]].
  - rewrite E. simpl. unfold growNode.
    destruct (shouldGrowRight this w h) eqn:SR.
    { apply andb_true_iff in SR. destruct SR as [CR _].
      apply Qle_bool_iff in CR. now apply L_growRight. }
    destruct (shouldGrowDown this w h) eqn:SD.
    { apply andb_true_iff in SD. destruct SD as [CD _].
      apply Qle_bool_iff in CD. now apply L_growDown. }
    destruct (canGrowRight this h) eqn:CR.
    { apply Qle_bool_iff in CR. now apply L_growRight. }
    destruct (canGrowDown this w) eqn:CD.
    { apply Qle_bool_iff in CD. now apply L_growDown. }
    apply Qle_bool_false in CR, CD.
    exists this, None. split; [reflexivity|].
    split; [|split; [reflexivity | split; [lra | split; [lra|]]]].
    + split; [intros nd E'; discriminate | exact HL].
    + unfold b; simpl. split; auto.
  - rewrite Ep. simpl. rewrite Es. exists t2, (Some nd). split; [reflexivity|].
    destruct HF as [F1 [F2 [F3 F4]]].
    pose proof (subtree_inside _ _ _ HE Hs) as [I1 [I2 [I3 I4]]]. simpl in I1, I2, I3, I4.
    split; [|split; [exact Ha2 | split; [rewrite F3; lra | split; [rewrite F4; lra|]]]].
    + split; [exact Hrec|]. split; [exact Ho|]. split.
      * rewrite Ert. eapply store_encloses; eauto.
        -- subst nd. apply splitNode_fields.
        -- subst nd. apply splitNode_encloses; lra.
      * unfold ratio_kept. rewrite Ha2, F3, F4. exact HR.
    + split; [discriminate|]. unfold b; simpl. intros [K1 K2]. lra.
Qed.

End Landscape.

Lemma LInv_perm : forall this ps ps', LInv this ps -> Permutation ps ps' -> LInv this ps'.
Proof.
  intros this ps ps' [HG HI] P. split; [|exact HI]. eapply GInv_perm; eauto.
Qed.

(** A packer started at least as wide as high has [ratio_kept]. *)
Lemma LInv_init : forall width height,
  0 < height -> height <= width -> LInv (GrowingPacker.init width height) [].
Proof.
  intros W H HH HWH. assert (HW : 0 < W) by lra.
  split; [now apply GInv_init|]. split; [simpl; auto|].
  unfold ratio_kept, GrowingPacker.init; simpl.
  destruct (Qgt_bool (W / H) 1) eqn:E.
  - field. lra.
  - unfold Qgt_bool in E. apply negb_false_iff, Qle_bool_iff in E.
    assert (E1 : W == W / H * H) by (field; lra).
    assert (E2 : W / H * H <= 1 * H) by (apply Qmult_le_compat_r; lra).
    assert (E3 : W == H) by lra.
    rewrite E3 at 2. rewrite E3 at 1. field. lra.
Qed.

Lemma L_fit_ok : forall blocks this ps,
  Forall positive blocks -> LInv this ps ->
  exists this' fits,
    GrowingPacker.fit this blocks = Val (this', fits) /\
    LInv this' (footprints blocks fits ++ ps).
Proof.
  induction blocks as [|b bs IH]; intros this ps HP HI.
  - exists this, []. simpl. auto.
  - inversion HP as [|b' bs' [Hbw Hbh] HP']; subst.
    destruct b as [w h]; simpl in Hbw, Hbh.
    destruct (L_fit1 w h Hbw Hbh this ps HI) as [t1 [f [E1 [[Hrec Ho] _]]]].
    simpl. rewrite E1. simpl.
    destruct f as [nd|];
      destruct (IH t1 _ HP' Ho) as [t2 [fs [E2 HI2]]];
      rewrite E2; simpl; eexists; eexists; (split; [reflexivity|]).
    + eapply LInv_perm; [exact HI2|]. simpl.
      apply Permutation_sym, Permutation_middle.
    + exact HI2.
Qed.

Lemma geom_disjoint : forall R ps,
  Forall (fun f => inside f R) ps /\ pairwise apart ps ->
  Forall (fun f => inside f R) ps /\ pairwise disjoint ps.
Proof.
  intros R ps [H1 H2]. split; [assumption|].
  eapply pairwise_impl; [exact apart_disjoint | assumption].
Qed.

(** ** Whole runs without rounding *)

(** X13.  The fixed packer on a bin and blocks of whole sizes up to 2^53
    (where no sum or difference rounds): [fit] returns, the root stays
    the bin it was initialised as, every footprint lies within it, and no
    two footprints overlap. *)
Theorem fixed_packing_sound : forall width height blocks,
  0 < width -> 0 < height -> Forall positive blocks ->
  exact_fixed width height blocks ->
  exists this fits,
    Packer.fit (Packer.init width height) blocks = Val (this, fits) /\
    region (Packer.root this) = mkRect 0 0 width height /\
    Forall (fun f => inside f (region (Packer.root this))) (footprints blocks fits) /\
    pairwise disjoint (footprints blocks fits).
Proof.
  intros W H bs HW HH HP _.
  destruct (P_fit_ok bs (Packer.init W H) [] HP) as [t [fs [E [HC [_ HF]]]]].
  - apply Carved_fresh; lra.
  - exists t, fs. split; [assumption|].
    split; [exact (same_fields_region _ _ HF)|].
    rewrite app_nil_r in HC. apply geom_disjoint. eapply Carved_geom; eauto.
Qed.

(** X14.  The growing packer started square, on whole sizes adding up to
    at most 2^53 (where nothing rounds): [fit] returns, every footprint
    lies within the final root, and no two footprints overlap. *)
Theorem growing_landscape_sound : forall width height blocks,
  0 < height -> exact_square width height blocks -> Forall positive blocks ->
  exists this fits,
    GrowingPacker.fit (GrowingPacker.init width height) blocks = Val (this, fits) /\
    Node.x (GrowingPacker.root this) = 0 /\ Node.y (GrowingPacker.root this) = 0 /\
    Forall (fun f => inside f (region (GrowingPacker.root this))) (footprints blocks fits) /\
    pairwise disjoint (footprints blocks fits).
Proof.
  intros W H bs HH HX HP. pose proof (exact_square_le _ _ _ HX) as HWH.
  destruct (L_fit_ok bs (GrowingPacker.init W H) [] HP (LInv_init W H HH HWH))
    as [t [fs [E [[HR [Hx [Hy _]]] [HE _]]]]].
  exists t, fs. split; [assumption|]. split; [assumption|]. split; [assumption|].
  rewrite app_nil_r in HR. apply geom_disjoint. eapply Rooted_geom; eauto.
Qed.

(** X15.  The growing packer started square, on whole sizes adding up to
    at most 2^53, at any point of a run: the next block never shrinks the
    root, and it is left unplaced exactly when it is both wider and
    higher than the root. *)
Theorem growing_landscape_step : forall width height blocks b,
  0 < height -> exact_square width height (blocks ++ [b]) ->
  Forall positive blocks -> positive b ->
  exists this fits this' f,
    GrowingPacker.fit (GrowingPacker.init width height) blocks = Val (this, fits) /\
    GrowingPacker.fit1 this b = Val (this', f) /\
    Node.width (GrowingPacker.root this) <= Node.width (GrowingPacker.root this') /\
    Node.height (GrowingPacker.root this) <= Node.height (GrowingPacker.root this') /\
    (f = None <->
     Node.width (GrowingPacker.root this) < Block.width b /\
     Node.height (GrowingPacker.root this) < Block.height b).
Proof.
  intros W H bs [w h] HH HX HP [Hbw Hbh]; simpl in Hbw, Hbh.
  pose proof (exact_square_le _ _ _ HX) as HWH.
  destruct (L_fit_ok bs (GrowingPacker.init W H) [] HP (LInv_init W H HH HWH))
    as [t [fs [E HL]]].
  destruct (L_fit1 w h Hbw Hbh t _ HL) as [t' [f [E1 [_ [_ [M1 [M2 M3]]]]]]].
  exists t, fs, t', f. auto.
Qed.

(** * The claims *)

(** C7.  [splitNode(node, w, h)] sets [node.used] to [true], [node.down]
    to [{x: node.x, y: node.y + h, width: node.width, height: node.height - h}]
    and [node.right] to [{x: node.x + w, y: node.y, width: node.width - w,
    height: h}], and returns the same node with [x], [y], [width] and
    [height] unchanged: after the call through a reference [p] the node
    read at [p] is the node returned.  Both packers' [splitNode] agree. *)
Theorem splitNode_spec : forall (t : node) (p : path) (nd : node) (w h ar : Q),
  subtree t p = Some nd ->
  let nd' := GrowingPacker.splitNode nd w h in
  Packer.splitNode nd w h = nd' /\
  Node.used nd' = true /\
  Node.down nd' =
    Some (fresh (Node.x nd) (Node.y nd + h) (Node.width nd) (Node.height nd - h)) /\
  Node.right nd' =
    Some (fresh (Node.x nd + w) (Node.y nd) (Node.width nd - w) h) /\
  Node.x nd' = Node.x nd /\ Node.y nd' = Node.y nd /\
  Node.width nd' = Node.width nd /\ Node.height nd' = Node.height nd /\
  (exists this',
     GrowingPacker.splitAt (GrowingPacker.make ar t) p w h = Val (this', Some nd') /\
     subtree (GrowingPacker.root this') p = Some nd') /\
  (exists this',
     Packer.splitAt (Packer.make t) p w h = Val (this', Some nd') /\
     subtree (Packer.root this') p = Some nd').
Proof.
  intros t p nd w h ar Hp nd'.
  repeat (split; [reflexivity|]).
  split.
  - unfold GrowingPacker.splitAt; simpl. rewrite Hp. eexists; split; [reflexivity|].
    simpl. eapply subtree_store; eauto.
  - unfold Packer.splitAt; simpl. rewrite Hp. eexists; split; [reflexivity|].
    simpl. eapply subtree_store; eauto.
Qed.

Lemma splitNode_spec_witness :
  let nd := fresh 0 0 100 100 in
  let nd' := GrowingPacker.splitNode nd 50 50 in
  Packer.splitNode nd 50 50 = nd' /\
  Node.used nd' = true /\
  Node.down nd' = Some (fresh 0 (0 + 50) 100 (100 - 50)) /\
  Node.right nd' = Some (fresh (0 + 50) 0 (100 - 50) 50) /\
  Node.x nd' = 0 /\ Node.y nd' = 0 /\
  Node.width nd' = 100 /\ Node.height nd' = 100 /\
  (exists this',
     GrowingPacker.splitAt (GrowingPacker.make 1 nd) [] 50 50 = Val (this', Some nd') /\
     subtree (GrowingPacker.root this') [] = Some nd') /\
  (exists this',
     Packer.splitAt (Packer.make nd) [] 50 50 = Val (this', Some nd') /\
     subtree (Packer.root this') [] = Some nd').
Proof.
  exact (splitNode_spec (fresh 0 0 100 100) [] (fresh 0 0 100 100) 50 50 1 eq_refl).
Defined.

(** C8.  A [GrowingPacker] initialised at 100 by 100 has aspect ratio 1.
    The first 100 by 100 block is placed by find-and-split at the root.
    For the second one [findNode] fails, [shouldGrowRight] and
    [shouldGrowDown] are false, [canGrowRight] is true, so [growNode]
    takes the [growRight] branch, and the resulting root is 200 wide and
    200 high. *)
Theorem growing_square_scenario :
  let p0 := GrowingPacker.init 100 100 in
  GrowingPacker.aspectRatio p0 == 1 /\
  GrowingPacker.findNode (GrowingPacker.root p0) 100 100 = Val (Some []) /\
  exists p1 n1,
    GrowingPacker.fit1 p0 (B 100 100) = Val (p1, Some n1) /\
    Node.x n1 = 0 /\ Node.y n1 = 0 /\
    GrowingPacker.findNode (GrowingPacker.root p1) 100 100 = Val None /\
    Node.width (GrowingPacker.root p1) = 100 /\
    Node.height (GrowingPacker.root p1) = 100 /\
    ~ (Node.height (GrowingPacker.root p1) * GrowingPacker.aspectRatio p1
       >= Node.width (GrowingPacker.root p1) + 100) /\
    ~ (Node.width (GrowingPacker.root p1) * (1 / GrowingPacker.aspectRatio p1)
       >= Node.height (GrowingPacker.root p1) + 100) /\
    GrowingPacker.shouldGrowRight p1 100 100 = false /\
    GrowingPacker.shouldGrowDown p1 100 100 = false /\
    GrowingPacker.canGrowRight p1 100 = true /\
    GrowingPacker.growNode p1 100 100 = GrowingPacker.growRight p1 100 100 /\
    exists p2 n2,
      GrowingPacker.fit1 p1 (B 100 100) = Val (p2, Some n2) /\
      GrowingPacker.fit p0 [B 100 100; B 100 100] = Val (p2, [Some n1; Some n2]) /\
      Node.x n2 = 100 /\ Node.y n2 = 0 /\
      Node.width (GrowingPacker.root p2) == 200 /\
      Node.height (GrowingPacker.root p2) == 200.
Proof.
  cbv zeta. split; [reflexivity|]. split; [reflexivity|].
  eexists; eexists. split; [vm_compute; reflexivity|].
  repeat (split; [evaluate|]).
  eexists; eexists. split; [vm_compute; reflexivity|].
  repeat split; evaluate.
Qed.

(** C9.  [FixedSizePacker(100,100).fit] on 50x50, 50x50, 60x60 places the
    first block at (0,0) and the second at (50,0), and leaves the third
    unplaced: no free node of the final tree is both 60 wide and 60 high. *)
Theorem fixed_scenario :
  exists this n1 n2,
    Packer.fit (Packer.init 100 100) [B 50 50; B 50 50; B 60 60]
      = Val (this, [Some n1; Some n2; None]) /\
    Node.x n1 = 0 /\ Node.y n1 = 0 /\
    Node.x n2 = 50 /\ Node.y n2 = 0 /\
    Packer.findNode (Packer.root this) 60 60 = Val None /\
    no_room (Packer.root this) 60 60.
Proof.
  eexists; eexists; eexists. split; [vm_compute; reflexivity|].
  repeat (split; [reflexivity|]).
  intros m Hm Hu [H1 H2]. simpl in Hm.
  repeat (destruct Hm as [E | Hm]; [subst m; simpl in *;
    first [discriminate | (apply Qle_bool_iff in H1; discriminate)
          | (apply Qle_bool_iff in H2; discriminate)] |]).
  destruct Hm.
Qed.

(** C6, as stated, fails: the node recorded for a 50 by 50 block placed in
    a fresh 100 by 100 bin is the root, which stays 100 wide and 100 high. *)
Lemma recorded_node_size_counterexample :
  exists this nd,
    Packer.fit (Packer.init 100 100) [B 50 50] = Val (this, [Some nd]) /\
    ~ (Node.width nd == Block.width (B 50 50) /\
       Node.height nd == Block.height (B 50 50)).
Proof.
  eexists; eexists. split; [vm_compute; reflexivity|].
  intros [H _]. vm_compute in H. discriminate.
Qed.

(** C6, amended.  For every block placed by either packer, the recorded
    node is at least as wide and as high as the block: it keeps the width
    and height of the free node the block was found to fit in, and what
    the block leaves of that region is described by its two children. *)
Theorem recorded_node_region : forall width height blocks,
  0 < width -> 0 < height -> Forall positive blocks ->
  (exists this fits,
     Packer.fit (Packer.init width height) blocks = Val (this, fits) /\
     Forall2 keeps_region blocks fits) /\
  (exists this fits,
     GrowingPacker.fit (GrowingPacker.init width height) blocks = Val (this, fits) /\
     Forall2 keeps_region blocks fits).
Proof.
  intros W H bs HW HH HP. split.
  - destruct (P_fit_ok bs (Packer.init W H) [] HP) as [t [fs [E [_ [HF _]]]]].
    + apply Carved_fresh; lra.
    + exists t, fs. split; [assumption|].
      eapply Forall2_impl; [|exact HF]. apply recorded_keeps.
  - destruct (G_fit_ok bs (GrowingPacker.init W H) [] HP (GInv_init W H HW HH))
      as [t [fs [E [_ [HF _]]]]].
    exists t, fs. split; [assumption|].
    eapply Forall2_impl; [|exact HF]. apply recorded_keeps.
Qed.

Lemma recorded_node_region_witness :
  (exists this fits,
     Packer.fit (Packer.init 100 100) [B 50 50; B 50 50; B 60 60] = Val (this, fits) /\
     Forall2 keeps_region [B 50 50; B 50 50; B 60 60] fits) /\
  (exists this fits,
     GrowingPacker.fit (GrowingPacker.init 100 100) [B 50 50; B 50 50; B 60 60]
       = Val (this, fits) /\
     Forall2 keeps_region [B 50 50; B 50 50; B 60 60] fits).
Proof.
  apply (recorded_node_region 100 100 [B 50 50; B 50 50; B 60 60]).
  - reflexivity.
  - reflexivity.
  - repeat constructor.
Defined.

(** C4, as stated, fails in the growing packer: after two 100 by 100
    blocks the root built by [growRight] is 200 by 200 while its children
    are the previous 100 by 100 root and a 100 by 200 strip, so no
    footprint at (0,0) tiles it together with them. *)
Lemma grown_root_not_tiled_counterexample :
  exists this fits,
    GrowingPacker.fit (GrowingPacker.init 100 100) [B 100 100; B 100 100]
      = Val (this, fits) /\
    ~ Shape_split (GrowingPacker.root this).
Proof.
  eexists; eexists. split; [vm_compute; reflexivity|].
  intro S. inversion S as [n Hu Hr Hd | n r d Hu Hr Hd T Sr Sd]; subst; simpl in *.
  - discriminate.
  - inversion Hr; subst r. inversion Hd; subst d. clear Hr Hd Sr Sd.
    destruct T as [w [h [Hw [Hh [_ [_ [Dfd [_ [_ [_ Cov]]]]]]]]]].
    unfold region, closed_in in Cov; simpl in Cov.
    destruct (Cov 50 150) as [[_ [A [_ C]]] | [[A _] | [_ [_ [_ A]]]]].
    + split; [|split; [|split]]; evaluate.
    + apply (Dfd 25 25). unfold open_in; simpl.
      simpl in A, C. repeat split; try (vm_compute; reflexivity); lra.
    + vm_compute in A. apply A; reflexivity.
    + vm_compute in A. apply A; reflexivity.
Qed.

(** ** The growing packer started taller than wide

    [init] stores [max(width, height) / min(width, height)] as the aspect
    ratio, while [growRight] and [growDown] use it as width over height.
    Started at 1 by 2 the ratio is 2, and the first [growRight] sets the
    root's height to half its new width.  The runs below are evaluated on
    that start. *)

(** C3 at [GrowingPacker(1,2)], blocks 1x2 then 1x1: the second block
    makes [growNode] call [growRight], after which the root is 2 wide and
    1 high, lower than the previous root's height 2. *)
Theorem growing_portrait_root_shrinks :
  exists p1 n1 p2 n2,
    GrowingPacker.fit1 (GrowingPacker.init 1 2) (B 1 2) = Val (p1, Some n1) /\
    GrowingPacker.findNode (GrowingPacker.root p1) 1 1 = Val None /\
    GrowingPacker.shouldGrowRight p1 1 1 = true /\
    GrowingPacker.fit1 p1 (B 1 1) = GrowingPacker.growRight p1 1 1 /\
    GrowingPacker.growRight p1 1 1 = Val (p2, Some n2) /\
    Node.height (GrowingPacker.root p1) == 2 /\
    Node.height (GrowingPacker.root p2) == 1 /\
    Node.height (GrowingPacker.root p2) < Node.height (GrowingPacker.root p1).
Proof.
  eexists; eexists; eexists; eexists.
  split; [vm_compute; reflexivity|].
  split; [vm_compute; reflexivity|].
  split; [vm_compute; reflexivity|].
  split; [vm_compute; reflexivity|].
  split; [vm_compute; reflexivity|].
  repeat split; evaluate.
Qed.

(** C2 at [GrowingPacker(1,2)], blocks 1x2 then 1x1: both are placed, the
    first at (0,0) with footprint [0,1] x [0,2]; the final root is 2 wide
    and 1 high, so that footprint is not contained in it. *)
Theorem growing_portrait_escapes_root :
  exists this n1 n2,
    GrowingPacker.fit (GrowingPacker.init 1 2) [B 1 2; B 1 1]
      = Val (this, [Some n1; Some n2]) /\
    footprint (B 1 2) n1 = mkRect 0 0 1 2 /\
    Node.x (GrowingPacker.root this) = 0 /\
    Node.y (GrowingPacker.root this) = 0 /\
    Node.width (GrowingPacker.root this) == 2 /\
    Node.height (GrowingPacker.root this) == 1 /\
    ~ inside (footprint (B 1 2) n1) (region (GrowingPacker.root this)).
Proof.
  eexists; eexists; eexists.
  split; [vm_compute; reflexivity|].
  split; [reflexivity|]. split; [reflexivity|]. split; [reflexivity|].
  split; [evaluate|]. split; [evaluate|].
  intros [_ [_ [_ K]]]. vm_compute in K. apply K; reflexivity.
Qed.

(** C1 at [GrowingPacker(1,2)], blocks 1x2, 1x1, 1x2: all three are
    placed, the first at (0,0) and the third at (0,1); their footprints
    [0,1] x [0,2] and [0,1] x [1,3] share the point (1/2, 3/2). *)
Theorem growing_portrait_overlap :
  exists this n1 n2 n3,
    GrowingPacker.fit (GrowingPacker.init 1 2) [B 1 2; B 1 1; B 1 2]
      = Val (this, [Some n1; Some n2; Some n3]) /\
    Node.x n1 == 0 /\ Node.y n1 == 0 /\
    Node.x n3 == 0 /\ Node.y n3 == 1 /\
    open_in (footprint (B 1 2) n1) (1 # 2) (3 # 2) /\
    open_in (footprint (B 1 2) n3) (1 # 2) (3 # 2) /\
    ~ disjoint (footprint (B 1 2) n1) (footprint (B 1 2) n3).
Proof.
  eexists; eexists; eexists; eexists.
  split; [vm_compute; reflexivity|].
  repeat (split; [evaluate|]).
  split; [repeat split|]. split; [repeat split|].
  intro K. apply (K (1 # 2) (3 # 2)). split; repeat split.
Qed.

(** C5 at [GrowingPacker(1,2)], blocks 1x2, 1x2, 1x1: when the second
    block is processed the root is 1 wide and 2 high, so the block exceeds
    it in neither direction, yet [growNode] returns [null] for it (the
    grown root is 2 by 1 and its new strip 1 by 1); the third block is
    still processed and placed. *)
Theorem growing_portrait_rejects_fitting_block :
  exists p1 n1 this n3,
    GrowingPacker.fit1 (GrowingPacker.init 1 2) (B 1 2) = Val (p1, Some n1) /\
    Node.width (GrowingPacker.root p1) == 1 /\
    Node.height (GrowingPacker.root p1) == 2 /\
    ~ (Block.width (B 1 2) > Node.width (GrowingPacker.root p1) /\
       Block.height (B 1 2) > Node.height (GrowingPacker.root p1)) /\
    GrowingPacker.fit (GrowingPacker.init 1 2) [B 1 2; B 1 2; B 1 1]
      = Val (this, [Some n1; None; Some n3]).
Proof.
  eexists; eexists; eexists; eexists.
  split; [vm_compute; reflexivity|].
  split; [evaluate|]. split; [evaluate|].
  split; [|vm_compute; reflexivity].
  intros [K _]. vm_compute in K. discriminate.
Qed.

(** * Further properties of the packers *)

(** ** [findNode] *)

Lemma findNode_at : forall p t w h,
  GrowingPacker.findNode t w h = Val (Some p) ->
  exists l, subtree t p = Some l /\ has_room w h l.
Proof.
  induction p as [|c p IH]; intros t w h E;
    destruct t as [[|] nx ny nw nh [r|] [d|]]; simpl in E;
    try discriminate;
    try (destruct (GrowingPacker.findNode r w h) as [[q|]|] eqn:Er; try discriminate);
    try (destruct (GrowingPacker.findNode d w h) as [[q'|]|] eqn:Ed; try discriminate);
    try (destruct (Qle_bool w nw) eqn:E1; destruct (Qle_bool h nh) eqn:E2;
         simpl in E; try discriminate);
    try (inversion E; subst; simpl; eauto; fail).
  all: try (apply Qle_bool_iff in E1, E2; eexists; split; [reflexivity|];
            repeat split; assumption).
Qed.

Lemma subtree_in_nodes : forall p t l, subtree t p = Some l -> In l (nodes t).
Proof.
  induction p as [|[|] p IH]; intros t l H; destruct t as [u nx ny nw nh r d]; simpl in *.
  - inversion H; subst. now left.
  - destruct r as [r|]; [|discriminate]. right. apply in_or_app. left. eauto.
  - destruct d as [d|]; [|discriminate]. right. apply in_or_app. right. eauto.
Qed.

(** On a carved tree [findNode] returns: [null] only if no free node has
    room, a reference otherwise. *)
Lemma Carved_find : forall t ps w h,
  Carved t ps ->
  (GrowingPacker.findNode t w h = Val None /\ no_room t w h) \/
  exists p, GrowingPacker.findNode t w h = Val (Some p).
Proof.
  intros t ps w h C. induction C as
    [n Hu Hr Hd Hnw Hnh
    | n r d w0 h0 pr pd ps Hu Hr Hd Hw0 Hw0' Hh0 Hh0' X1 X2 X3 X4 X5 X6 X7 X8 Cr IHr Cd IHd P];
    destruct n as [u nx ny nw nh nr nd]; simpl in *; subst.
  - destruct (Qle_bool w nw) eqn:E1; [destruct (Qle_bool h nh) eqn:E2|]; simpl; eauto;
      left; (split; [reflexivity|]); intros m [Em | []] _ [K1 K2]; subst m; simpl in *;
      apply Qle_bool_iff in K1, K2; congruence.
  - destruct IHr as [[Er Nr] | [p Ep]]; [|rewrite Ep; eauto].
    rewrite Er. destruct IHd as [[Ed Nd] | [p Ep]]; [|rewrite Ep; eauto].
    rewrite Ed. left. split; [reflexivity|].
    intros m [Em | Hm] Hu; [subst m; discriminate|].
    apply in_app_or in Hm. destruct Hm; auto.
Qed.

Lemma Rooted_find : forall t ps w h,
  Rooted t ps ->
  (GrowingPacker.findNode t w h = Val None /\ no_room t w h) \/
  exists p, GrowingPacker.findNode t w h = Val (Some p).
Proof.
  intros t ps w h C. induction C as
    [n ps C
    | n strip old pn po ps Hu Hr Hd Hnw Hnh Ha Cs Co IHo P
    | n strip old pn po ps Hu Hr Hd Hnw Hnh Ha Cs Co IHo P].
  - eapply Carved_find; eauto.
  - destruct n as [u nx ny nw nh nr nd]; simpl in *; subst.
    destruct (Carved_find strip pn w h Cs) as [[Er Nr] | [p Ep]]; [|rewrite Ep; eauto].
    rewrite Er. destruct IHo as [[Ed Nd] | [p Ep]]; [|rewrite Ep; eauto].
    rewrite Ed. left. split; [reflexivity|].
    intros m [Em | Hm] Hu; [subst m; discriminate|].
    apply in_app_or in Hm. destruct Hm; auto.
  - destruct n as [u nx ny nw nh nr nd]; simpl in *; subst.
    destruct IHo as [[Er Nr] | [p Ep]]; [|rewrite Ep; eauto].
    rewrite Er. destruct (Carved_find strip pn w h Cs) as [[Ed Nd] | [p Ep]]; [|rewrite Ep; eauto].
    rewrite Ed. left. split; [reflexivity|].
    intros m [Em | Hm] Hu; [subst m; discriminate|].
    apply in_app_or in Hm. destruct Hm; auto.
Qed.

Lemma Rooted_find_iff : forall t ps w h,
  Rooted t ps ->
  (GrowingPacker.findNode t w h = Val None <-> no_room t w h) /\
  (forall p, GrowingPacker.findNode t w h = Val (Some p) ->
     exists l, subtree t p = Some l /\ has_room w h l) /\
  GrowingPacker.findNode t w h <> TypeError.
Proof.
  intros t ps w h C. split; [|split].
  - destruct (Rooted_find t ps w h C) as [[E N] | [p Ep]].
    + tauto.
    + split; [congruence|]. intro N. exfalso.
      destruct (findNode_at _ _ _ _ Ep) as [l [Hs [Hu [K1 K2]]]].
      apply (N l); auto. eapply subtree_in_nodes; eauto.
  - intros p Ep. eapply findNode_at; eauto.
  - destruct (Rooted_find t ps w h C) as [[E N] | [p Ep]]; congruence.
Qed.

(** X1.  On the tree of any run of either packer, [findNode] does not
    throw; it returns [null] exactly when no free node of the tree is at
    least [w] wide and [h] high, and otherwise a reference to a free node
    that is. *)
Theorem findNode_complete : forall width height blocks w h,
  0 < width -> 0 < height -> Forall positive blocks ->
  (exists this fits,
     Packer.fit (Packer.init width height) blocks = Val (this, fits) /\
     (Packer.findNode (Packer.root this) w h = Val None
        <-> no_room (Packer.root this) w h) /\
     (forall p, Packer.findNode (Packer.root this) w h = Val (Some p) ->
        exists l, subtree (Packer.root this) p = Some l /\ has_room w h l) /\
     Packer.findNode (Packer.root this) w h <> TypeError) /\
  (exists this fits,
     GrowingPacker.fit (GrowingPacker.init width height) blocks = Val (this, fits) /\
     (GrowingPacker.findNode (GrowingPacker.root this) w h = Val None
        <-> no_room (GrowingPacker.root this) w h) /\
     (forall p, GrowingPacker.findNode (GrowingPacker.root this) w h = Val (Some p) ->
        exists l, subtree (GrowingPacker.root this) p = Some l /\ has_room w h l) /\
     GrowingPacker.findNode (GrowingPacker.root this) w h <> TypeError).
Proof.
  intros W H bs w h HW HH HP. split.
  - destruct (P_fit_ok bs (Packer.init W H) [] HP) as [t [fs [E [HC _]]]].
    + apply Carved_fresh; lra.
    + exists t, fs. split; [assumption|]. rewrite findNode_same.
      eapply Rooted_find_iff. apply Rooted_carved. exact HC.
  - destruct (G_fit_ok bs (GrowingPacker.init W H) [] HP (GInv_init W H HW HH))
      as [t [fs [E [[HC _] _]]]].
    exists t, fs. split; [assumption|]. eapply Rooted_find_iff. exact HC.
Qed.

Lemma findNode_complete_witness :
  (exists this fits,
     Packer.fit (Packer.init 100 100) [B 50 50; B 50 50] = Val (this, fits) /\
     (Packer.findNode (Packer.root this) 60 60 = Val None
        <-> no_room (Packer.root this) 60 60) /\
     (forall p, Packer.findNode (Packer.root this) 60 60 = Val (Some p) ->
        exists l, subtree (Packer.root this) p = Some l /\ has_room 60 60 l) /\
     Packer.findNode (Packer.root this) 60 60 <> TypeError) /\
  (exists this fits,
     GrowingPacker.fit (GrowingPacker.init 100 100) [B 50 50; B 50 50] = Val (this, fits) /\
     (GrowingPacker.findNode (GrowingPacker.root this) 60 60 = Val None
        <-> no_room (GrowingPacker.root this) 60 60) /\
     (forall p, GrowingPacker.findNode (GrowingPacker.root this) 60 60 = Val (Some p) ->
        exists l, subtree (GrowingPacker.root this) p = Some l /\ has_room 60 60 l) /\
     GrowingPacker.findNode (GrowingPacker.root this) 60 60 <> TypeError).
Proof.
  apply (findNode_complete 100 100 [B 50 50; B 50 50] 60 60).
  - reflexivity.
  - reflexivity.
  - repeat constructor.
Defined.

Lemma Carved_children : forall t ps,
  Carved t ps ->
  (Node.used t = false /\ Node.right t = None /\ Node.down t = None) \/
  (exists r d pr pd, Node.used t = true /\ Node.right t = Some r /\ Node.down t = Some d /\
                     Carved r pr /\ Carved d pd).
Proof.
  intros t ps C. destruct C; [left; auto | right]. exists r, d, pr, pd. auto.
Qed.

Lemma Rooted_children : forall t ps,
  Rooted t ps ->
  (Node.used t = false /\ Node.right t = None /\ Node.down t = None) \/
  (exists r d pr pd, Node.used t = true /\ Node.right t = Some r /\ Node.down t = Some d /\
                     Rooted r pr /\ Rooted d pd).
Proof.
  intros t ps C. destruct C as [n ps C | |].
  - destruct (Carved_children n ps C) as [L | [r [d [pr [pd [Hu [Hr [Hd [Cr Cd]]]]]]]]]; auto.
    right. exists r, d, pr, pd. repeat split; auto using Rooted_carved.
  - right. exists strip, old, pn, po. repeat split; auto using Rooted_carved.
  - right. exists old, strip, po, pn. repeat split; auto using Rooted_carved.
Qed.

Lemma first_fit : forall c t ps p' q' l w h,
  Rooted t ps ->
  GrowingPacker.findNode t w h = Val (Some (c ++ D :: p')) ->
  subtree t (c ++ R :: q') = Some l ->
  ~ has_room w h l.
Proof.
  induction c as [|[|] c IH]; intros t ps p' q' l w h HR E Hs;
    destruct (Rooted_children t ps HR)
      as [[Hu [Hr Hd]] | [r [d [pr [pd [Hu [Hr [Hd [Cr Cd]]]]]]]]];
    destruct t as [u nx ny nw nh nr nd]; simpl in *; subst;
    try (destruct (Qle_bool w nw && Qle_bool h nh); discriminate).
  - destruct (GrowingPacker.findNode r w h) as [[q|]|] eqn:Er; try discriminate.
    destruct (Rooted_find_iff r pr w h Cr) as [[N _] _].
    intros [Hu [K1 K2]]. apply (N Er l); auto. eapply subtree_in_nodes; eauto.
  - destruct (GrowingPacker.findNode r w h) as [[q|]|] eqn:Er; try discriminate.
    + inversion E; subst q. eapply (IH r pr); eauto.
    + destruct (GrowingPacker.findNode d w h) as [[q|]|]; discriminate.
  - destruct (GrowingPacker.findNode r w h) as [[q|]|] eqn:Er; try discriminate.
    destruct (GrowingPacker.findNode d w h) as [[q|]|] eqn:Ed; try discriminate.
    inversion E; subst q. eapply (IH d pd); eauto.
Qed.

(** X2.  First fit, [right] before [down]: on the tree of any run, when
    [findNode] returns a reference that turns [down] at some node, no
    free node below that node's [right] child has room for the block. *)
Theorem findNode_right_first : forall width height blocks w h,
  0 < width -> 0 < height -> Forall positive blocks ->
  (exists this fits,
     Packer.fit (Packer.init width height) blocks = Val (this, fits) /\
     forall c p' q' l,
       Packer.findNode (Packer.root this) w h = Val (Some (c ++ D :: p')) ->
       subtree (Packer.root this) (c ++ R :: q') = Some l ->
       ~ has_room w h l) /\
  (exists this fits,
     GrowingPacker.fit (GrowingPacker.init width height) blocks = Val (this, fits) /\
     forall c p' q' l,
       GrowingPacker.findNode (GrowingPacker.root this) w h = Val (Some (c ++ D :: p')) ->
       subtree (GrowingPacker.root this) (c ++ R :: q') = Some l ->
       ~ has_room w h l).
Proof.
  intros W H bs w h HW HH HP. split.
  - destruct (P_fit_ok bs (Packer.init W H) [] HP) as [t [fs [E [HC _]]]].
    + apply Carved_fresh; lra.
    + exists t, fs. split; [assumption|]. rewrite findNode_same.
      intros c p' q' l. eapply first_fit. apply Rooted_carved. exact HC.
  - destruct (G_fit_ok bs (GrowingPacker.init W H) [] HP (GInv_init W H HW HH))
      as [t [fs [E [[HC _] _]]]].
    exists t, fs. split; [assumption|]. intros c p' q' l. eapply first_fit. exact HC.
Qed.

Lemma findNode_right_first_witness :
  (exists this fits,
     Packer.fit (Packer.init 100 100) [B 50 50; B 50 50] = Val (this, fits) /\
     forall c p' q' l,
       Packer.findNode (Packer.root this) 30 30 = Val (Some (c ++ D :: p')) ->
       subtree (Packer.root this) (c ++ R :: q') = Some l ->
       ~ has_room 30 30 l) /\
  (exists this fits,
     GrowingPacker.fit (GrowingPacker.init 100 100) [B 50 50; B 50 50] = Val (this, fits) /\
     forall c p' q' l,
       GrowingPacker.findNode (GrowingPacker.root this) 30 30 = Val (Some (c ++ D :: p')) ->
       subtree (GrowingPacker.root this) (c ++ R :: q') = Some l ->
       ~ has_room 30 30 l).
Proof.
  apply (findNode_right_first 100 100 [B 50 50; B 50 50] 30 30).
  - reflexivity.
  - reflexivity.
  - repeat constructor.
Defined.

(** ** The fixed packer *)

(** X3.  At any point of a run of the fixed packer, the next block is
    left unplaced exactly when no free node of the current tree has room
    for it; the packer is then unchanged.  In particular a block wider or
    higher than the bin is never placed. *)
Theorem fixed_unplaced_iff_no_room : forall width height blocks b,
  0 < width -> 0 < height -> Forall positive blocks -> positive b ->
  exists this fits this' f,
    Packer.fit (Packer.init width height) blocks = Val (this, fits) /\
    Packer.fit1 this b = Val (this', f) /\
    (f = None <-> no_room (Packer.root this) (Block.width b) (Block.height b)) /\
    (f = None -> this' = this) /\
    (width < Block.width b \/ height < Block.height b -> f = None).
Proof.
  intros W H bs [w h] HW HH HP Hb.
  destruct (P_fit_ok bs (Packer.init W H) [] HP) as [t [fs [E [HC [_ HF]]]]];
    [apply Carved_fresh; lra|].
  rewrite app_nil_r in HC.
  destruct (P_fit1_ok (Block.make w h) t _ Hb HC) as [t' [f [E1 _]]].
  exists t, fs, t', f. split; [assumption|]. split; [assumption|].
  unfold Packer.fit1 in E1. simpl in *. rewrite findNode_same in E1.
  destruct (Rooted_find_iff (Packer.root t) _ w h (Rooted_carved _ _ HC)) as [Hiff [Hat _]].
  destruct (GrowingPacker.findNode (Packer.root t) w h) as [[p|]|] eqn:Ef;
    simpl in E1; try discriminate.
  - destruct (Hat p eq_refl) as [l [Hs [Hu [K1 K2]]]].
    unfold Packer.splitAt in E1. rewrite Hs in E1. inversion E1; subst t' f.
    split; [|split].
    + split; [discriminate|]. intro N. exfalso. apply (N l); auto.
      eapply subtree_in_nodes; eauto.
    + discriminate.
    + intro K. exfalso.
      pose proof (subtree_inside _ _ _ (Carved_encloses _ _ HC) Hs) as [I1 [I2 [I3 I4]]].
      destruct HF as [F1 [F2 [F3 F4]]]. simpl in *.
      rewrite F1, F3 in *. rewrite F2, F4 in *. lra.
  - inversion E1; subst t' f. split; [|split]; auto.
    split; auto. intros _. apply Hiff. reflexivity.
Qed.

Lemma fixed_unplaced_iff_no_room_witness :
  exists this fits this' f,
    Packer.fit (Packer.init 100 100) [B 50 50; B 50 50] = Val (this, fits) /\
    Packer.fit1 this (B 60 60) = Val (this', f) /\
    (f = None <-> no_room (Packer.root this) (Block.width (B 60 60)) (Block.height (B 60 60))) /\
    (f = None -> this' = this) /\
    (100 < Block.width (B 60 60) \/ 100 < Block.height (B 60 60) -> f = None).
Proof.
  apply (fixed_unplaced_iff_no_room 100 100 [B 50 50; B 50 50] (B 60 60)).
  - reflexivity.
  - reflexivity.
  - repeat constructor.
  - split; reflexivity.
Defined.

(** X4.  A block as large as the bin fills the fixed packer: it is
    placed at the origin and every later block of positive size is left
    unplaced. *)
Theorem fixed_full_bin : forall width height blocks,
  0 < width -> 0 < height -> Forall positive blocks ->
  exists this nd fits,
    Packer.fit (Packer.init width height) (B width height :: blocks)
      = Val (this, Some nd :: fits) /\
    Node.x nd = 0 /\ Node.y nd = 0 /\
    Forall (fun f => f = None) fits /\
    length fits = length blocks.
Proof.
  intros W H bs HW HH HP. simpl. unfold Packer.fit1. simpl.
  rewrite !Qle_bool_refl. simpl.
  set (t := {| Packer.root := Packer.splitNode (fresh 0 0 W H) W H |}).
  assert (G : exists fits, Packer.fit t bs = Val (t, fits) /\
                           Forall (fun f => f = None) fits /\ length fits = length bs).
  { clear - HP HW HH. induction bs as [|[w h] bs IH].
    - exists []. simpl. auto.
    - inversion HP as [|b' bs' [Hw Hh] HP']; subst. simpl in Hw, Hh.
      destruct (IH HP') as [fs [E [F L]]].
      assert (E1 : Packer.fit1 t (Block.make w h) = Val (t, None)).
      { unfold Packer.fit1. simpl.
        assert (A1 : Qle_bool w (W - W) = false).
        { destruct (Qle_bool w (W - W)) eqn:K; auto. apply Qle_bool_iff in K. lra. }
        assert (A2 : Qle_bool h (H - H) = false).
        { destruct (Qle_bool h (H - H)) eqn:K; auto. apply Qle_bool_iff in K. lra. }
        rewrite A1, A2. simpl. rewrite andb_false_r. reflexivity. }
      exists (None :: fs). simpl. rewrite E1. simpl. rewrite E. simpl.
      split; [reflexivity|]. split; [constructor; auto | congruence]. }
  destruct G as [fs [E [F L]]].
  exists t, (Packer.splitNode (fresh 0 0 W H) W H), fs.
  fold t. rewrite E. simpl. auto.
Qed.

Lemma fixed_full_bin_witness :
  exists this nd fits,
    Packer.fit (Packer.init 100 100) (B 100 100 :: [B 1 1; B 100 100])
      = Val (this, Some nd :: fits) /\
    Node.x nd = 0 /\ Node.y nd = 0 /\
    Forall (fun f => f = None) fits /\
    length fits = length [B 1 1; B 100 100].
Proof.
  apply (fixed_full_bin 100 100 [B 1 1; B 100 100]).
  - reflexivity.
  - reflexivity.
  - repeat constructor.
Defined.

(** ** Composition *)

(** X5.  Calling [fit] on [bs1] and then on [bs2] with the same packer
    is calling it once on [bs1 ++ bs2]: the second call continues in the
    tree the first one left, and a throw in either is a throw of the
    whole.  [fit] on no blocks changes nothing. *)
Theorem fit_twice : forall bs1 bs2,
  (forall this,
     Packer.fit this (bs1 ++ bs2) =
     match Packer.fit this bs1 with
     | Val (this1, fs1) =>
         match Packer.fit this1 bs2 with
         | Val (this2, fs2) => Val (this2, fs1 ++ fs2)
         | TypeError => TypeError
         end
     | TypeError => TypeError
     end) /\
  (forall this,
     GrowingPacker.fit this (bs1 ++ bs2) =
     match GrowingPacker.fit this bs1 with
     | Val (this1, fs1) =>
         match GrowingPacker.fit this1 bs2 with
         | Val (this2, fs2) => Val (this2, fs1 ++ fs2)
         | TypeError => TypeError
         end
     | TypeError => TypeError
     end) /\
  (forall this, Packer.fit this [] = Val (this, [])) /\
  (forall this, GrowingPacker.fit this [] = Val (this, [])).
Proof.
  intros bs1 bs2. split; [|split; [|split; reflexivity]]; intro this.
  - rewrite P_fit_app. destruct (Packer.fit this bs1) as [[t1 fs1]|]; reflexivity.
  - rewrite G_fit_app. destruct (GrowingPacker.fit this bs1) as [[t1 fs1]|]; reflexivity.
Qed.

Lemma growing_follows_fixed : forall blocks r ar this fits,
  Packer.fit (Packer.make r) blocks = Val (this, fits) ->
  Forall (fun f => f <> None) fits ->
  GrowingPacker.fit (GrowingPacker.make ar r) blocks
    = Val (GrowingPacker.make ar (Packer.root this), fits).
Proof.
  induction blocks as [|b bs IH]; intros r ar this fits E F; simpl in *.
  - inversion E; subst. reflexivity.
  - unfold Packer.fit1, GrowingPacker.fit1 in *. simpl in *.
    rewrite findNode_same in E.
    destruct (GrowingPacker.findNode r (Block.width b) (Block.height b)) as [[p|]|];
      simpl in *; try discriminate.
    + unfold Packer.splitAt, GrowingPacker.splitAt in *.
      unfold Packer.splitNode, GrowingPacker.splitNode in *. simpl in *.
      destruct (subtree r p) as [nd|]; simpl in *; try discriminate.
      destruct (Packer.fit _ bs) as [[t2 fs]|] eqn:E2; simpl in *; try discriminate.
      inversion E; subst this fits. inversion F; subst.
      rewrite (IH _ ar _ _ E2); auto.
    + destruct (Packer.fit _ bs) as [[t2 fs]|] eqn:E2; simpl in *; try discriminate.
      inversion E; subst this fits. inversion F; subst. congruence.
Qed.

(** X6.  When the fixed packer places every block of a sequence, the
    growing packer started with the same width and height never grows:
    it records the same nodes and ends with the same tree. *)
Theorem growing_extends_fixed : forall width height blocks this fits,
  Packer.fit (Packer.init width height) blocks = Val (this, fits) ->
  Forall (fun f => f <> None) fits ->
  GrowingPacker.fit (GrowingPacker.init width height) blocks
    = Val ({| GrowingPacker.aspectRatio :=
                GrowingPacker.aspectRatio (GrowingPacker.init width height);
              GrowingPacker.root := Packer.root this |}, fits).
Proof.
  intros W H bs this fits E F. exact (growing_follows_fixed bs _ _ this fits E F).
Qed.

Lemma growing_extends_fixed_witness :
  exists this fits,
    Packer.fit (Packer.init 100 100) [B 50 50; B 50 50] = Val (this, fits) /\
    GrowingPacker.fit (GrowingPacker.init 100 100) [B 50 50; B 50 50]
      = Val ({| GrowingPacker.aspectRatio :=
                  GrowingPacker.aspectRatio (GrowingPacker.init 100 100);
                GrowingPacker.root := Packer.root this |}, fits).
Proof.
  eexists; eexists. split; [vm_compute; reflexivity|].
  apply (growing_extends_fixed 100 100 [B 50 50; B 50 50]).
  - vm_compute. reflexivity.
  - repeat constructor; discriminate.
Defined.

(** ** Placements stay where they are *)

Lemma growRight_search : forall this w h,
  GrowingPacker.growRight this w h = search (grownRight this w) w h.
Proof. reflexivity. Qed.

Lemma growDown_search : forall this w h,
  GrowingPacker.growDown this w h = search (grownDown this h) w h.
Proof. reflexivity. Qed.

Lemma GInv_grownRight : forall this ps w,
  0 < w -> GInv this ps -> GInv (grownRight this w) ps.
Proof.
  intros this ps w Hw [HR [Hx [Hy Ha]]].
  destruct (Rooted_nonneg _ _ HR) as [Hrw Hrh].
  pose proof (inv_ratio_nonneg _ Ha) as Hi.
  assert (Hnw : 0 <= Node.width (GrowingPacker.root this) + w) by lra.
  split; [|simpl; auto].
  eapply Rooted_right with (pn := []) (po := ps); try reflexivity; simpl; auto.
  - apply Qmult_le_0_compat; assumption.
  - unfold apart; simpl. right; left. rewrite Hx. lra.
  - apply Carved_fresh; [lra | apply Qmult_le_0_compat; assumption].
Qed.

Lemma GInv_grownDown : forall this ps h,
  0 < h -> GInv this ps -> GInv (grownDown this h) ps.
Proof.
  intros this ps h Hh [HR [Hx [Hy Ha]]].
  destruct (Rooted_nonneg _ _ HR) as [Hrw Hrh].
  assert (Hnh : 0 <= Node.height (GrowingPacker.root this) + h) by lra.
  assert (Hnw : 0 <= (Node.height (GrowingPacker.root this) + h)
                     * GrowingPacker.aspectRatio this)
    by (apply Qmult_le_0_compat; lra).
  split; [|simpl; auto].
  eapply Rooted_down with (pn := []) (po := ps); try reflexivity; simpl; auto.
  - unfold apart; simpl. right; right; right. rewrite Hy. lra.
  - apply Carved_fresh; lra.
  - now rewrite app_nil_r.
Qed.

Lemma Rooted_leaf : forall p t ps l,
  Rooted t ps -> subtree t p = Some l -> Node.used l = false ->
  Node.right l = None /\ Node.down l = None.
Proof.
  induction p as [|[|] p IH]; intros t ps l HR Hs Hu;
    destruct (Rooted_children t ps HR)
      as [[Hu' [Hr Hd]] | [r [d [pr [pd [Hu' [Hr [Hd [Cr Cd]]]]]]]]];
    simpl in Hs; try rewrite Hr in Hs; try rewrite Hd in Hs; try discriminate.
  - inversion Hs; subst. auto.
  - inversion Hs; subst. congruence.
  - eapply (IH r pr); eauto.
  - eapply (IH d pd); eauto.
Qed.

(** The two outcomes of the search-and-split on a rooted tree. *)
Lemma search_cases : forall this ps w h,
  Rooted (GrowingPacker.root this) ps ->
  (GrowingPacker.findNode (GrowingPacker.root this) w h = Val None /\
   no_room (GrowingPacker.root this) w h /\
   search this w h = Val (this, None)) \/
  (exists p l,
     GrowingPacker.findNode (GrowingPacker.root this) w h = Val (Some p) /\
     subtree (GrowingPacker.root this) p = Some l /\ has_room w h l /\
     Node.right l = None /\ Node.down l = None /\
     search this w h =
       Val ({| GrowingPacker.aspectRatio := GrowingPacker.aspectRatio this;
               GrowingPacker.root :=
                 store (GrowingPacker.root this) p (GrowingPacker.splitNode l w h) |},
            Some (GrowingPacker.splitNode l w h))).
Proof.
  intros this ps w h HR. unfold search.
  destruct (Rooted_find (GrowingPacker.root this) ps w h HR) as [[E N] | [p Ep]].
  - left. rewrite E. auto.
  - right. destruct (findNode_at _ _ _ _ Ep) as [l [Hs [Hu HK]]].
    destruct (Rooted_leaf p _ ps l HR Hs Hu) as [Hr Hd].
    exists p, l. rewrite Ep. simpl. unfold GrowingPacker.splitAt. rewrite Hs.
    repeat split; auto; apply HK.
Qed.

Lemma search_stable : forall this ps w h this' f,
  Rooted (GrowingPacker.root this) ps ->
  search this w h = Val (this', f) ->
  forall q m, subtree (GrowingPacker.root this) q = Some m ->
    exists m', subtree (GrowingPacker.root this') q = Some m' /\ same_fields m' m.
Proof.
  intros this ps w h this' f HR E q m Hq.
  destruct (search_cases this ps w h HR)
    as [[_ [_ E']] | [p [l [_ [Hs [_ [Hr [Hd E']]]]]]]];
    rewrite E' in E; inversion E; subst this' f; simpl.
  - exists m. split; [assumption | repeat split].
  - eapply store_fields; eauto. apply splitNode_fields.
Qed.

Lemma G_fit1_stable : forall this ps w h this' f,
  GInv this ps -> 0 < w -> 0 < h ->
  GrowingPacker.fit1 this (Block.make w h) = Val (this', f) ->
  exists c, forall q m, subtree (GrowingPacker.root this) q = Some m ->
    exists m', subtree (GrowingPacker.root this') (c ++ q) = Some m' /\ same_fields m' m.
Proof.
  intros this ps w h this' f HI Hw Hh E.
  assert (SR : forall t' f', GrowingPacker.growRight this w h = Val (t', f') ->
    forall q m, subtree (GrowingPacker.root this) q = Some m ->
      exists m', subtree (GrowingPacker.root t') ([D] ++ q) = Some m' /\ same_fields m' m).
  { intros t' f' E' q m Hq. rewrite growRight_search in E'.
    destruct (GInv_grownRight this ps w Hw HI) as [HR _].
    eapply search_stable; eauto. }
  assert (SD : forall t' f', GrowingPacker.growDown this w h = Val (t', f') ->
    forall q m, subtree (GrowingPacker.root this) q = Some m ->
      exists m', subtree (GrowingPacker.root t') ([R] ++ q) = Some m' /\ same_fields m' m).
  { intros t' f' E' q m Hq. rewrite growDown_search in E'.
    destruct (GInv_grownDown this ps h Hh HI) as [HR _].
    eapply search_stable; eauto. }
  destruct HI as [HR _].
  unfold GrowingPacker.fit1 in E. simpl in E.
  destruct (search_cases this ps w h HR)
    as [[Ef [_ E']] | [p [l [Ef [Hs [_ [Hr [Hd E']]]]]]]]; rewrite Ef in E; simpl in E.
  - unfold GrowingPacker.growNode in E.
    destruct (GrowingPacker.shouldGrowRight this w h); [exists [D]; eauto|].
    destruct (GrowingPacker.shouldGrowDown this w h); [exists [R]; eauto|].
    destruct (GrowingPacker.canGrowRight this h); [exists [D]; eauto|].
    destruct (GrowingPacker.canGrowDown this w); [exists [R]; eauto|].
    inversion E; subst. exists []. intros q m Hq. exists m. split; [assumption | repeat split].
  - exists []. simpl. eapply search_stable; eauto.
    unfold search. rewrite Ef. exact E.
Qed.

(** X7.  Placing one more block never moves or resizes a node that is
    already in the tree.  In the fixed packer every node keeps its
    address and its [x], [y], [width], [height]; in the growing packer
    the same holds up to the step [c] from the new root to the old one
    (none, [down] after [growRight], [right] after [growDown]).  So the
    coordinates read from an earlier [block.fit] do not change. *)
Theorem placements_stable : forall width height blocks b,
  0 < width -> 0 < height -> Forall positive blocks -> positive b ->
  (exists this fits this' f,
     Packer.fit (Packer.init width height) blocks = Val (this, fits) /\
     Packer.fit1 this b = Val (this', f) /\
     forall q m, subtree (Packer.root this) q = Some m ->
       exists m', subtree (Packer.root this') q = Some m' /\ same_fields m' m) /\
  (exists this fits this' f c,
     GrowingPacker.fit (GrowingPacker.init width height) blocks = Val (this, fits) /\
     GrowingPacker.fit1 this b = Val (this', f) /\
     forall q m, subtree (GrowingPacker.root this) q = Some m ->
       exists m', subtree (GrowingPacker.root this') (c ++ q) = Some m' /\
                  same_fields m' m).
Proof.
  intros W H bs [w h] HW HH HP Hb. split.
  - destruct (P_fit_ok bs (Packer.init W H) [] HP) as [t [fs [E [HC _]]]];
      [apply Carved_fresh; lra|].
    destruct (P_fit1_ok (Block.make w h) t _ Hb HC) as [t' [f [E1 _]]].
    exists t, fs, t', f. split; [assumption|]. split; [assumption|].
    unfold Packer.fit1 in E1. simpl in E1. rewrite findNode_same in E1.
    intros q m Hq.
    apply (search_stable (GrowingPacker.make 1 (Packer.root t)) _ w h
             (GrowingPacker.make 1 (Packer.root t')) f (Rooted_carved _ _ HC)); auto.
    unfold search. simpl.
    destruct (GrowingPacker.findNode (Packer.root t) w h) as [[p|]|];
      simpl in *; try discriminate.
    + unfold Packer.splitAt in E1. unfold GrowingPacker.splitAt. simpl.
      destruct (subtree (Packer.root t) p); try discriminate.
      inversion E1; subst. reflexivity.
    + inversion E1; subst. reflexivity.
  - destruct Hb as [Hw Hh]; simpl in Hw, Hh.
    destruct (G_fit_ok bs (GrowingPacker.init W H) [] HP (GInv_init W H HW HH))
      as [t [fs [E [HI _]]]].
    destruct (fit1_ok w h Hw Hh t _ HI) as [t' [f [E1 _]]].
    destruct (G_fit1_stable t _ w h t' f HI Hw Hh E1) as [c Hc].
    exists t, fs, t', f, c. auto.
Qed.

Lemma placements_stable_witness :
  (exists this fits this' f,
     Packer.fit (Packer.init 100 100) [B 50 50] = Val (this, fits) /\
     Packer.fit1 this (B 50 50) = Val (this', f) /\
     forall q m, subtree (Packer.root this) q = Some m ->
       exists m', subtree (Packer.root this') q = Some m' /\ same_fields m' m) /\
  (exists this fits this' f c,
     GrowingPacker.fit (GrowingPacker.init 100 100) [B 100 100] = Val (this, fits) /\
     GrowingPacker.fit1 this (B 50 50) = Val (this', f) /\
     forall q m, subtree (GrowingPacker.root this) q = Some m ->
       exists m', subtree (GrowingPacker.root this') (c ++ q) = Some m' /\
                  same_fields m' m).
Proof.
  split.
  - apply (placements_stable 100 100 [B 50 50] (B 50 50));
      [reflexivity | reflexivity | repeat constructor | split; reflexivity].
  - apply (placements_stable 100 100 [B 100 100] (B 50 50));
      [reflexivity | reflexivity | repeat constructor | split; reflexivity].
Defined.

(** ** Areas *)

Lemma total_area_perm : forall ps ps', Permutation ps ps' -> total_area ps == total_area ps'.
Proof.
  intros ps ps' P. induction P; simpl; try lra.
Qed.

Lemma total_area_app : forall ps ps', total_area (ps ++ ps') == total_area ps + total_area ps'.
Proof. induction ps as [|r ps IH]; intros ps'; simpl; [lra | rewrite IH; lra]. Qed.

(** In a carved tree the footprints and the free nodes account for the
    whole area of the root. *)
Lemma Carved_area : forall t ps,
  Carved t ps -> total_area ps + free_area t == Node.width t * Node.height t.
Proof.
  intros t ps C. induction C as
    [n Hu Hr Hd Hnw Hnh
    | n r d w0 h0 pr pd ps Hu Hr Hd Hw0 Hw0' Hh0 Hh0' X1 X2 X3 X4 X5 X6 X7 X8 Cr IHr Cd IHd P];
    destruct n as [u nx ny nw nh nr nd]; simpl in *; subst; simpl.
  - lra.
  - rewrite (total_area_perm _ _ P). simpl. rewrite total_area_app.
    rewrite X3, X4 in IHr. rewrite X7, X8 in IHd. unfold area; simpl.
    assert (E : nw * nh == w0 * h0 + (nw - w0) * h0 + nw * (nh - h0)) by ring.
    rewrite E, <- IHr, <- IHd. ring.
Qed.

Lemma Carved_free_area : forall t ps, Carved t ps -> 0 <= free_area t.
Proof.
  intros t ps C. induction C as
    [n Hu Hr Hd Hnw Hnh
    | n r d w0 h0 pr pd ps Hu Hr Hd Hw0 Hw0' Hh0 Hh0' X1 X2 X3 X4 X5 X6 X7 X8 Cr IHr Cd IHd P];
    destruct n as [u nx ny nw nh nr nd]; simpl in *; subst; simpl.
  - now apply Qmult_le_0_compat.
  - lra.
Qed.

Lemma apart_area : forall a c n,
  apart a c -> inside a n -> inside c n ->
  0 <= rw a -> 0 <= rh a -> 0 <= rw c -> 0 <= rh c ->
  area a + area c <= area n.
Proof.
  unfold apart, inside, area.
  intros [ax ay aw ah] [cx cy cw ch] [nx ny nw nh]; simpl.
  intros HA [I1 [I2 [I3 I4]]] [J1 [J2 [J3 J4]]] A1 A2 C1 C2.
  destruct HA as [K | [K | [K | K]]]; nra.
Qed.

Lemma Rooted_area : forall t ps,
  Rooted t ps -> encloses t ->
  total_area ps <= Node.width t * Node.height t.
Proof.
  intros t ps C. induction C as
    [n ps C
    | n strip old pn po ps Hu Hr Hd Hnw Hnh Ha Cs Co IHo P
    | n strip old pn po ps Hu Hr Hd Hnw Hnh Ha Cs Co IHo P]; intros HE.
  - pose proof (Carved_area _ _ C). pose proof (Carved_free_area _ _ C). lra.
  - destruct (encloses_children _ _ _ HE Hr Hd) as [I1 [E1 [I2 E2]]].
    pose proof (Carved_area _ _ Cs) as A1. pose proof (Carved_free_area _ _ Cs) as A2.
    pose proof (IHo E2) as A3.
    destruct (Carved_nonneg _ _ Cs) as [N1 N2]. destruct (Rooted_nonneg _ _ Co) as [N3 N4].
    pose proof (apart_area _ _ _ Ha I1 I2 N1 N2 N3 N4) as A4. unfold area in A4; simpl in A4.
    rewrite (total_area_perm _ _ P), total_area_app. lra.
  - destruct (encloses_children _ _ _ HE Hr Hd) as [I1 [E1 [I2 E2]]].
    pose proof (Carved_area _ _ Cs) as A1. pose proof (Carved_free_area _ _ Cs) as A2.
    pose proof (IHo E1) as A3.
    destruct (Carved_nonneg _ _ Cs) as [N1 N2]. destruct (Rooted_nonneg _ _ Co) as [N3 N4].
    pose proof (apart_area _ _ _ Ha I2 I1 N1 N2 N3 N4) as A4. unfold area in A4; simpl in A4.
    rewrite (total_area_perm _ _ P), total_area_app. lra.
Qed.

(** X8.  In every run of the fixed packer on a bin and blocks of whole
    sizes, the bin's area being at most 2^53 (so that the areas are
    whole numbers up to 2^53 as well), the areas of the placed footprints
    and of the free nodes of the final tree add up to the area of the
    bin; so the placed area never exceeds it. *)
Theorem fixed_area_conserved : forall width height blocks,
  0 < width -> 0 < height -> Forall positive blocks ->
  exact_fixed width height blocks -> width * height <= two53 ->
  exists this fits,
    Packer.fit (Packer.init width height) blocks = Val (this, fits) /\
    total_area (footprints blocks fits) + free_area (Packer.root this)
      == width * height /\
    0 <= free_area (Packer.root this) /\
    total_area (footprints blocks fits) <= width * height.
Proof.
  intros W H bs HW HH HP _ _.
  destruct (P_fit_ok bs (Packer.init W H) [] HP) as [t [fs [E [HC [_ HF]]]]];
    [apply Carved_fresh; lra|].
  rewrite app_nil_r in HC.
  exists t, fs. split; [assumption|].
  pose proof (Carved_area _ _ HC) as A. pose proof (Carved_free_area _ _ HC) as A'.
  destruct HF as [_ [_ [F3 F4]]]. simpl in F3, F4. rewrite F3, F4 in A.
  split; [exact A|]. split; [exact A'|]. lra.
Qed.

Lemma fixed_area_conserved_witness :
  exists this fits,
    Packer.fit (Packer.init 100 100) [B 50 50; B 50 50; B 60 60] = Val (this, fits) /\
    total_area (footprints [B 50 50; B 50 50; B 60 60] fits) + free_area (Packer.root this)
      == 100 * 100 /\
    0 <= free_area (Packer.root this) /\
    total_area (footprints [B 50 50; B 50 50; B 60 60] fits) <= 100 * 100.
Proof.
  apply (fixed_area_conserved 100 100 [B 50 50; B 50 50; B 60 60]).
  - reflexivity.
  - reflexivity.
  - repeat constructor.
  - exact_inputs.
  - evaluate.
Defined.

(** X9.  In every run of the growing packer started square, on whole
    sizes whose sum [s] satisfies [s * s <= 2^53] (so that the areas are
    whole numbers up to 2^53 as well), the placed footprints have a total
    area of at most the final root's [width * height]. *)
Theorem growing_landscape_area : forall width height blocks,
  0 < height -> exact_square width height blocks -> Forall positive blocks ->
  (width + total_size blocks) * (width + total_size blocks) <= two53 ->
  exists this fits,
    GrowingPacker.fit (GrowingPacker.init width height) blocks = Val (this, fits) /\
    total_area (footprints blocks fits)
      <= Node.width (GrowingPacker.root this) * Node.height (GrowingPacker.root this).
Proof.
  intros W H bs HH HX HP _. pose proof (exact_square_le _ _ _ HX) as HWH.
  destruct (L_fit_ok bs (GrowingPacker.init W H) [] HP (LInv_init W H HH HWH))
    as [t [fs [E [[HR _] [HE _]]]]].
  rewrite app_nil_r in HR.
  exists t, fs. split; [assumption|]. eapply Rooted_area; eauto.
Qed.

Lemma growing_landscape_area_witness :
  exists this fits,
    GrowingPacker.fit (GrowingPacker.init 100 100) [B 100 100; B 100 100]
      = Val (this, fits) /\
    total_area (footprints [B 100 100; B 100 100] fits)
      <= Node.width (GrowingPacker.root this) * Node.height (GrowingPacker.root this).
Proof.
  apply (growing_landscape_area 100 100 [B 100 100; B 100 100]).
  - reflexivity.
  - exact_inputs.
  - repeat constructor.
  - evaluate.
Defined.

(** ** The growing packer started square *)

Lemma L_fit_all : forall blocks this ps W0 H0,
  LInv this ps ->
  W0 <= Node.width (GrowingPacker.root this) ->
  H0 <= Node.height (GrowingPacker.root this) ->
  Forall positive blocks ->
  Forall (fun b => Block.width b <= W0 \/ Block.height b <= H0) blocks ->
  exists this' fits,
    GrowingPacker.fit this blocks = Val (this', fits) /\
    Forall (fun f => f <> None) fits /\ length fits = length blocks.
Proof.
  induction blocks as [|b bs IH]; intros this ps W0 H0 HL HW0 HH0 HP HB.
  - exists this, []. simpl. auto.
  - inversion HP as [|b' bs' [Hbw Hbh] HP']; subst.
    inversion HB as [|b'' bs'' Hb HB']; subst.
    destruct b as [w h]; simpl in Hbw, Hbh, Hb.
    destruct (L_fit1 w h Hbw Hbh this ps HL) as [t1 [f [E1 [[_ Ho] [_ [M1 [M2 M3]]]]]]].
    simpl in M3. simpl. rewrite E1. simpl.
    assert (Hf : f <> None) by (intro K; apply M3 in K; lra).
    destruct f as [nd|]; [|congruence].
    destruct (IH t1 _ W0 H0 Ho) as [t2 [fs [E2 [F2 L2]]]]; auto; try lra.
    rewrite E2. simpl. exists t2, (Some nd :: fs).
    split; [reflexivity|]. split; [constructor; auto | simpl; congruence].
Qed.

(** X11.  The growing packer started square, on whole sizes adding up to
    at most 2^53, places every block of a sequence in which each block is
    no wider than the initial width or no higher than the initial
    height. *)
Theorem growing_landscape_places_all : forall width height blocks,
  0 < height -> exact_square width height blocks -> Forall positive blocks ->
  Forall (fun b => Block.width b <= width \/ Block.height b <= height) blocks ->
  exists this fits,
    GrowingPacker.fit (GrowingPacker.init width height) blocks = Val (this, fits) /\
    Forall (fun f => f <> None) fits /\ length fits = length blocks.
Proof.
  intros W H bs HH HX HP HB. pose proof (exact_square_le _ _ _ HX) as HWH.
  eapply (L_fit_all bs _ [] W H (LInv_init W H HH HWH)); simpl; auto; lra.
Qed.

Lemma growing_landscape_places_all_witness :
  exists this fits,
    GrowingPacker.fit (GrowingPacker.init 100 100) [B 100 100; B 100 100; B 300 80]
      = Val (this, fits) /\
    Forall (fun f => f <> None) fits /\
    length fits = length [B 100 100; B 100 100; B 300 80].
Proof.
  apply (growing_landscape_places_all 100 100 [B 100 100; B 100 100; B 300 80]).
  - reflexivity.
  - exact_inputs.
  - repeat constructor.
  - repeat (constructor; [first [left; discriminate | right; discriminate]|]).
    constructor.
Defined.

(** X12.  The growing packer started square, on whole sizes adding up to
    at most 2^53, stays square: the aspect ratio is 1 and after any run
    the root's width equals its height. *)
Theorem growing_landscape_ratio : forall width height blocks,
  0 < height -> exact_square width height blocks -> Forall positive blocks ->
  exists this fits,
    GrowingPacker.fit (GrowingPacker.init width height) blocks = Val (this, fits) /\
    GrowingPacker.aspectRatio this == 1 /\
    Node.width (GrowingPacker.root this) == Node.height (GrowingPacker.root this).
Proof.
  intros W H bs HH HX HP. pose proof (exact_square_le _ _ _ HX) as HWH.
  destruct HX as [HS _]. assert (HW : 0 < W) by lra.
  destruct (L_fit_ok bs (GrowingPacker.init W H) [] HP (LInv_init W H HH HWH))
    as [t [fs [E [_ [_ HR]]]]].
  destruct (G_fit_ok bs (GrowingPacker.init W H) [] HP (GInv_init W H HW HH))
    as [t' [fs' [E' [_ [_ A]]]]].
  rewrite E in E'. inversion E'; subst t' fs'.
  assert (Ar : GrowingPacker.aspectRatio t == W / H).
  { rewrite A. unfold GrowingPacker.init; simpl.
    destruct (Qgt_bool (W / H) 1) eqn:K; [reflexivity|].
    unfold Qgt_bool in K. apply negb_false_iff, Qle_bool_iff in K.
    assert (E1 : W == W / H * H) by (field; lra).
    assert (E2 : W / H * H <= 1 * H) by (apply Qmult_le_compat_r; lra).
    assert (E3 : W == H) by lra.
    rewrite E3. reflexivity. }
  assert (Ar1 : GrowingPacker.aspectRatio t == 1) by (rewrite Ar, HS; field; lra).
  exists t, fs. split; [assumption|]. split; [exact Ar1|].
  unfold ratio_kept in HR. rewrite HR, Ar1. ring.
Qed.

Lemma growing_landscape_ratio_witness :
  exists this fits,
    GrowingPacker.fit (GrowingPacker.init 100 100) [B 100 100; B 50 50; B 120 30]
      = Val (this, fits) /\
    GrowingPacker.aspectRatio this == 1 /\
    Node.width (GrowingPacker.root this) == Node.height (GrowingPacker.root this).
Proof.
  apply (growing_landscape_ratio 100 100 [B 100 100; B 50 50; B 120 30]).
  - reflexivity.
  - exact_inputs.
  - repeat constructor.
Defined.

(** ** Instances of the theorems on whole runs *)

Lemma fixed_packing_sound_witness :
  exists this fits,
    Packer.fit (Packer.init 100 100) [B 50 50; B 50 50; B 60 60] = Val (this, fits) /\
    region (Packer.root this) = mkRect 0 0 100 100 /\
    Forall (fun f => inside f (region (Packer.root this)))
      (footprints [B 50 50; B 50 50; B 60 60] fits) /\
    pairwise disjoint (footprints [B 50 50; B 50 50; B 60 60] fits).
Proof.
  apply (fixed_packing_sound 100 100 [B 50 50; B 50 50; B 60 60]).
  - reflexivity.
  - reflexivity.
  - repeat constructor.
  - exact_inputs.
Defined.

Lemma growing_landscape_sound_witness :
  exists this fits,
    GrowingPacker.fit (GrowingPacker.init 100 100) [B 100 100; B 100 100; B 80 80]
      = Val (this, fits) /\
    Node.x (GrowingPacker.root this) = 0 /\ Node.y (GrowingPacker.root this) = 0 /\
    Forall (fun f => inside f (region (GrowingPacker.root this)))
      (footprints [B 100 100; B 100 100; B 80 80] fits) /\
    pairwise disjoint (footprints [B 100 100; B 100 100; B 80 80] fits).
Proof.
  apply (growing_landscape_sound 100 100 [B 100 100; B 100 100; B 80 80]).
  - reflexivity.
  - exact_inputs.
  - repeat constructor.
Defined.

Lemma growing_landscape_step_witness :
  exists this fits this' f,
    GrowingPacker.fit (GrowingPacker.init 100 100) [B 100 100] = Val (this, fits) /\
    GrowingPacker.fit1 this (B 100 100) = Val (this', f) /\
    Node.width (GrowingPacker.root this) <= Node.width (GrowingPacker.root this') /\
    Node.height (GrowingPacker.root this) <= Node.height (GrowingPacker.root this') /\
    (f = None <->
     Node.width (GrowingPacker.root this) < Block.width (B 100 100) /\
     Node.height (GrowingPacker.root this) < Block.height (B 100 100)).
Proof.
  apply (growing_landscape_step 100 100 [B 100 100] (B 100 100)).
  - reflexivity.
  - exact_inputs.
  - repeat constructor.
  - split; reflexivity.
Defined.

(** ** [findNode] on an arbitrary tree *)

Lemma findNode_throws : forall t w h,
  GrowingPacker.findNode t w h = TypeError ->
  exists m, In m (nodes t) /\ Node.used m = true /\
            (Node.right m = None \/ Node.down m = None).
Proof.
  fix IH 1. intros [u nx ny nw nh r d] w h E. simpl in E.
  destruct u; [|destruct (Qle_bool w nw && Qle_bool h nh); discriminate].
  destruct r as [r|].
  - destruct (GrowingPacker.findNode r w h) as [[q|]|] eqn:Er; try discriminate.
    + destruct d as [d|].
      * destruct (GrowingPacker.findNode d w h) as [[q|]|] eqn:Ed; try discriminate.
        destruct (IH d w h Ed) as [m [Hm Hp]].
        exists m. split; [|exact Hp]. simpl. right. apply in_or_app. now right.
      * eexists. split; [simpl; left; reflexivity|]. simpl. auto.
    + destruct (IH r w h Er) as [m [Hm Hp]].
      exists m. split; [|exact Hp]. simpl. right. apply in_or_app. now left.
  - eexists. split; [simpl; left; reflexivity|]. simpl. auto.
Qed.

(** X16.  [findNode] on any tree, well formed or not: a reference it
    returns leads to a node that is not used and is at least [w] wide
    and [h] high; it throws only if the tree has a used node without a
    [right] or without a [down] child; and the two packers' copies of
    [findNode] compute the same. *)
Theorem findNode_any_tree : forall t w h,
  (forall p, GrowingPacker.findNode t w h = Val (Some p) ->
     exists l, subtree t p = Some l /\ has_room w h l) /\
  (GrowingPacker.findNode t w h = TypeError ->
     exists m, In m (nodes t) /\ Node.used m = true /\
               (Node.right m = None \/ Node.down m = None)) /\
  Packer.findNode t w h = GrowingPacker.findNode t w h.
Proof.
  intros t w h. split; [|split].
  - intros p E. eapply findNode_at; eauto.
  - apply findNode_throws.
  - reflexivity.
Qed.

(** ** Size of the tree *)

Lemma Carved_size : forall t ps,
  Carved t ps -> length (nodes t) = (1 + 2 * length ps)%nat.
Proof.
  intros t ps C. induction C as
    [n Hu Hr Hd Hnw Hnh
    | n r d w0 h0 pr pd ps Hu Hr Hd Hw0 Hw0' Hh0 Hh0' X1 X2 X3 X4 X5 X6 X7 X8 Cr IHr Cd IHd P];
    destruct n as [u nx ny nw nh nr nd]; simpl in *; subst; simpl.
  - reflexivity.
  - rewrite (Permutation_length P). simpl. rewrite !length_app, IHr, IHd. lia.
Qed.

(** X17.  The tree of the fixed packer has one node more than twice the
    number of blocks placed so far. *)
Theorem fixed_tree_size : forall width height blocks,
  0 < width -> 0 < height -> Forall positive blocks ->
  exists this fits,
    Packer.fit (Packer.init width height) blocks = Val (this, fits) /\
    length (nodes (Packer.root this))
      = (1 + 2 * length (footprints blocks fits))%nat /\
    (length (footprints blocks fits) <= length blocks)%nat.
Proof.
  intros W H bs HW HH HP.
  destruct (P_fit_ok bs (Packer.init W H) [] HP) as [t [fs [E [HC [HF _]]]]];
    [apply Carved_fresh; lra|].
  rewrite app_nil_r in HC.
  exists t, fs. split; [assumption|]. split; [eapply Carved_size; eauto|].
  clear - HF. induction HF as [|b f bs fs _ _ IH]; simpl; auto.
  destruct f; simpl; lia.
Qed.

Lemma fixed_tree_size_witness :
  exists this fits,
    Packer.fit (Packer.init 100 100) [B 50 50; B 50 50; B 60 60] = Val (this, fits) /\
    length (nodes (Packer.root this))
      = (1 + 2 * length (footprints [B 50 50; B 50 50; B 60 60] fits))%nat /\
    (length (footprints [B 50 50; B 50 50; B 60 60] fits)
       <= length [B 50 50; B 50 50; B 60 60])%nat.
Proof.
  apply (fixed_tree_size 100 100 [B 50 50; B 50 50; B 60 60]).
  - reflexivity.
  - reflexivity.
  - repeat constructor.
Defined.

(** ** Where growth puts the block *)

Section GrowthPlacement.

Import GrowingPacker.

Variables (w h : Q).
Hypotheses (Hw : 0 < w) (Hh : 0 < h).

Lemma L_no_fit : forall this ps,
  LInv this ps ->
  Node.width (root this) < w \/ Node.height (root this) < h ->
  findNode (root this) w h = Val None.
Proof.
  intros this ps [[HR [Hx [Hy _]]] [HE _]] K.
  destruct (Rooted_find (root this) ps w h HR) as [[E _] | [p Ep]]; [assumption|].
  exfalso. destruct (findNode_at _ _ _ _ Ep) as [l [Hs [_ [K1 K2]]]].
  pose proof (subtree_inside _ _ _ HE Hs) as [I1 [I2 [I3 I4]]]. simpl in *. lra.
Qed.

Lemma L_grows_right : forall this ps,
  LInv this ps ->
  Node.width (root this) < w -> h <= Node.height (root this) ->
  fit1 this (Block.make w h) =
  Val (let newWidth := Node.width (root this) + w in
       let newHeight := newWidth * (1 / aspectRatio this) in
       let strip := splitNode (fresh (Node.width (root this)) 0 w newHeight) w h in
       ({| aspectRatio := aspectRatio this;
           root := mkNode true 0 0 newWidth newHeight (Some strip) (Some (root this)) |},
        Some strip)).
Proof.
  intros this ps HL K1 K2. pose proof HL as [[HR [Hx [Hy Ha]]] [HE HRt]].
  unfold fit1. simpl. rewrite (L_no_fit this ps HL) by auto. simpl.
  pose proof (grow_right_height _ _ _ w Ha (Qlt_le_weak _ _ Hw) HRt) as Hmono.
  assert (CD : canGrowDown this w = false).
  { unfold canGrowDown. destruct (Qle_bool w (Node.width (root this))) eqn:E; auto.
    apply Qle_bool_iff in E. lra. }
  assert (CR : canGrowRight this h = true) by (apply Qle_bool_iff; assumption).
  unfold growNode, shouldGrowDown. rewrite CD, CR. simpl.
  destruct (shouldGrowRight this w h); apply growRight_eq; lra.
Qed.

Lemma L_grows_down : forall this ps,
  LInv this ps ->
  Node.height (root this) < h -> w <= Node.width (root this) ->
  fit1 this (Block.make w h) =
  Val (let newHeight := Node.height (root this) + h in
       let newWidth := newHeight * aspectRatio this in
       let strip := splitNode (fresh 0 (Node.height (root this)) newWidth h) w h in
       ({| aspectRatio := aspectRatio this;
           root := mkNode true 0 0 newWidth newHeight (Some (root this)) (Some strip) |},
        Some strip)).
Proof.
  intros this ps HL K1 K2. pose proof HL as [[HR [Hx [Hy Ha]]] [HE HRt]].
  unfold fit1. simpl. rewrite (L_no_fit this ps HL) by auto. simpl.
  pose proof (grow_down_width _ _ _ h Ha (Qlt_le_weak _ _ Hh) HRt) as Hmono.
  assert (CR : canGrowRight this h = false).
  { unfold canGrowRight. destruct (Qle_bool h (Node.height (root this))) eqn:E; auto.
    apply Qle_bool_iff in E. lra. }
  assert (CD : canGrowDown this w = true) by (apply Qle_bool_iff; assumption).
  unfold growNode, shouldGrowRight. rewrite CD, CR. simpl.
  destruct (shouldGrowDown this w h); apply growDown_eq;
    try (apply (L_no_fit this ps HL); auto); lra.
Qed.

End GrowthPlacement.

(** X18.  The growing packer started square, on whole sizes adding up
    to at most 2^53, at any point of a run.  A block wider than the root but no higher makes it
    grow to the right: the block is placed at [(root.width, 0)], the new
    root is [root.width + width] wide and that width divided by the
    aspect ratio high.  A block higher than the root but no wider makes
    it grow down: the block is placed at [(0, root.height)], the new
    root is [root.height + height] high and that height times the aspect
    ratio wide.  In both cases the old root becomes a child of the new. *)
Theorem growing_landscape_growth : forall width height blocks b,
  0 < height -> exact_square width height (blocks ++ [b]) ->
  Forall positive blocks -> positive b ->
  exists this fits this' f,
    GrowingPacker.fit (GrowingPacker.init width height) blocks = Val (this, fits) /\
    GrowingPacker.fit1 this b = Val (this', f) /\
    (Node.width (GrowingPacker.root this) < Block.width b ->
     Block.height b <= Node.height (GrowingPacker.root this) ->
     exists nd, f = Some nd /\
       Node.x nd = Node.width (GrowingPacker.root this) /\ Node.y nd = 0 /\
       Node.width (GrowingPacker.root this')
         = Node.width (GrowingPacker.root this) + Block.width b /\
       Node.height (GrowingPacker.root this')
         = (Node.width (GrowingPacker.root this) + Block.width b)
           * (1 / GrowingPacker.aspectRatio this) /\
       Node.down (GrowingPacker.root this') = Some (GrowingPacker.root this)) /\
    (Node.height (GrowingPacker.root this) < Block.height b ->
     Block.width b <= Node.width (GrowingPacker.root this) ->
     exists nd, f = Some nd /\
       Node.x nd = 0 /\ Node.y nd = Node.height (GrowingPacker.root this) /\
       Node.height (GrowingPacker.root this')
         = Node.height (GrowingPacker.root this) + Block.height b /\
       Node.width (GrowingPacker.root this')
         = (Node.height (GrowingPacker.root this) + Block.height b)
           * GrowingPacker.aspectRatio this /\
       Node.right (GrowingPacker.root this') = Some (GrowingPacker.root this)).
Proof.
  intros W H bs [w h] HH HX HP [Hbw Hbh]; simpl in Hbw, Hbh.
  pose proof (exact_square_le _ _ _ HX) as HWH.
  destruct (L_fit_ok bs (GrowingPacker.init W H) [] HP (LInv_init W H HH HWH))
    as [t [fs [E HL]]].
  destruct (L_fit1 w h Hbw Hbh t _ HL) as [t' [f [E1 _]]].
  exists t, fs, t', f. split; [assumption|]. split; [assumption|]. simpl. split.
  - intros K1 K2. rewrite (L_grows_right w h Hbw t _ HL K1 K2) in E1.
    inversion E1; subst t' f. eexists. split; [reflexivity|]. simpl. repeat split.
  - intros K1 K2. rewrite (L_grows_down w h Hbh t _ HL K1 K2) in E1.
    inversion E1; subst t' f. eexists. split; [reflexivity|]. simpl. repeat split.
Qed.

Lemma growing_landscape_growth_witness :
  exists this fits this' f,
    GrowingPacker.fit (GrowingPacker.init 100 100) [B 100 100] = Val (this, fits) /\
    GrowingPacker.fit1 this (B 150 50) = Val (this', f) /\
    (Node.width (GrowingPacker.root this) < Block.width (B 150 50) ->
     Block.height (B 150 50) <= Node.height (GrowingPacker.root this) ->
     exists nd, f = Some nd /\
       Node.x nd = Node.width (GrowingPacker.root this) /\ Node.y nd = 0 /\
       Node.width (GrowingPacker.root this')
         = Node.width (GrowingPacker.root this) + Block.width (B 150 50) /\
       Node.height (GrowingPacker.root this')
         = (Node.width (GrowingPacker.root this) + Block.width (B 150 50))
           * (1 / GrowingPacker.aspectRatio this) /\
       Node.down (GrowingPacker.root this') = Some (GrowingPacker.root this)) /\
    (Node.height (GrowingPacker.root this) < Block.height (B 150 50) ->
     Block.width (B 150 50) <= Node.width (GrowingPacker.root this) ->
     exists nd, f = Some nd /\
       Node.x nd = 0 /\ Node.y nd = Node.height (GrowingPacker.root this) /\
       Node.height (GrowingPacker.root this')
         = Node.height (GrowingPacker.root this) + Block.height (B 150 50) /\
       Node.width (GrowingPacker.root this')
         = (Node.height (GrowingPacker.root this) + Block.height (B 150 50))
           * GrowingPacker.aspectRatio this /\
       Node.right (GrowingPacker.root this') = Some (GrowingPacker.root this)).
Proof.
  apply (growing_landscape_growth 100 100 [B 100 100] (B 150 50)).
  - reflexivity.
  - exact_inputs.
  - repeat constructor.
  - split; reflexivity.
Defined.

(** * Shapes and sizes, in the code's own arithmetic *)

(** The lemmas of this part use no property of [+], [-], [*] and [/]:
    they follow the assignments of the source. *)

Lemma Built_store : forall t, Built t ->
  forall p l w h,
  subtree t p = Some l ->
  Node.used l = false -> Node.right l = None -> Node.down l = None ->
  w <= Node.width l -> h <= Node.height l ->
  Built (store t p (GrowingPacker.splitNode l w h)).
Proof.
  intros t B. induction B as
    [n Hu Hr Hd | n r d w0 h0 Hu Hr Hd Hw0 Hh0 HS Br IHr Bd IHd];
    intros p l w h Hs Hlu Hlr Hld Hw Hh;
    destruct n as [u nx ny nw nh nr nd]; unfold split_of in *; simpl in *; subst.
  - destruct p as [|[|] p]; simpl in Hs; try discriminate.
    inversion Hs; subst l. simpl.
    eapply Built_split with (w := w) (h := h); try reflexivity; simpl; auto.
    + unfold split_of; simpl. repeat split.
    + now apply Built_leaf.
    + now apply Built_leaf.
  - destruct p as [|[|] p]; simpl in Hs.
    + inversion Hs; subst l. discriminate.
    + simpl.
      pose proof (store_same_fields p r l _ Hs (splitNode_fields l w h)) as [F1 [F2 [F3 F4]]].
      destruct HS as [S1 [S2 [S3 [S4 S5]]]].
      eapply Built_split with (w := w0) (h := h0); try reflexivity; simpl; eauto.
      unfold split_of; simpl. repeat split; simpl; try congruence; apply S5.
    + simpl.
      pose proof (store_same_fields p d l _ Hs (splitNode_fields l w h)) as [F1 [F2 [F3 F4]]].
      destruct HS as [S1 [S2 [S3 [S4 [S5 [S6 [S7 S8]]]]]]].
      eapply Built_split with (w := w0) (h := h0); try reflexivity; simpl; eauto.
      unfold split_of; simpl. repeat split; simpl; congruence.
Qed.

Lemma Regrown_store : forall ar t, Regrown ar t ->
  forall p l w h,
  subtree t p = Some l ->
  Node.used l = false -> Node.right l = None -> Node.down l = None ->
  w <= Node.width l -> h <= Node.height l ->
  Regrown ar (store t p (GrowingPacker.splitNode l w h)).
Proof.
  intros ar t B. induction B as
    [n B
    | n strip old w0 Hu Hr Hd Hx Hy E1 E2 E3 E4 E5 E6 Bs Bo IHo
    | n strip old h0 Hu Hr Hd Hx Hy E1 E2 E3 E4 E5 E6 Bs Bo IHo];
    intros p l w h Hs Hlu Hlr Hld Hw Hh.
  - apply Regrown_base. eapply Built_store; eauto.
  - destruct n as [u nx ny nw nh nr nd]; simpl in *; subst.
    destruct p as [|[|] p]; simpl in Hs.
    + inversion Hs; subst l. discriminate.
    + simpl.
      pose proof (store_same_fields p strip l _ Hs (splitNode_fields l w h))
        as [F1 [F2 [F3 F4]]].
      eapply Regrown_right with (w := Node.width strip); try reflexivity; simpl;
        try congruence; auto.
      eapply Built_store; eauto.
    + simpl.
      pose proof (store_same_fields p old l _ Hs (splitNode_fields l w h))
        as [F1 [F2 [F3 F4]]].
      eapply Regrown_right with (w := Node.width strip); try reflexivity; simpl;
        try congruence; eauto.
  - destruct n as [u nx ny nw nh nr nd]; simpl in *; subst.
    destruct p as [|[|] p]; simpl in Hs.
    + inversion Hs; subst l. discriminate.
    + simpl.
      pose proof (store_same_fields p old l _ Hs (splitNode_fields l w h))
        as [F1 [F2 [F3 F4]]].
      eapply Regrown_down with (h := Node.height strip); try reflexivity; simpl;
        try congruence; eauto.
    + simpl.
      pose proof (store_same_fields p strip l _ Hs (splitNode_fields l w h))
        as [F1 [F2 [F3 F4]]].
      eapply Regrown_down with (h := Node.height strip); try reflexivity; simpl;
        try congruence; auto.
      eapply Built_store; eauto.
Qed.

Lemma B_search : forall ar this ps w h this' f,
  Rooted (GrowingPacker.root this) ps ->
  Regrown ar (GrowingPacker.root this) ->
  search this w h = Val (this', f) ->
  Regrown ar (GrowingPacker.root this').
Proof.
  intros ar this ps w h this' f HR HB E.
  destruct (search_cases this ps w h HR)
    as [[_ [_ E']] | [p [l [_ [Hs [[Hu [Hw Hh]] [Hr [Hd E']]]]]]]];
    rewrite E' in E; inversion E; subst this' f; simpl; auto.
  eapply Regrown_store; eauto.
Qed.

Lemma Regrown_grownRight : forall this w,
  Regrown (GrowingPacker.aspectRatio this) (GrowingPacker.root this) ->
  Regrown (GrowingPacker.aspectRatio this) (GrowingPacker.root (grownRight this w)).
Proof.
  intros this w HB.
  eapply Regrown_right with (w := w) (old := GrowingPacker.root this);
    try reflexivity; auto.
  now apply Built_leaf.
Qed.

Lemma Regrown_grownDown : forall this h,
  Regrown (GrowingPacker.aspectRatio this) (GrowingPacker.root this) ->
  Regrown (GrowingPacker.aspectRatio this) (GrowingPacker.root (grownDown this h)).
Proof.
  intros this h HB.
  eapply Regrown_down with (h := h) (old := GrowingPacker.root this);
    try reflexivity; auto.
  now apply Built_leaf.
Qed.

Lemma B_fit1 : forall this ps w h this' f,
  GInv this ps -> 0 < w -> 0 < h ->
  Regrown (GrowingPacker.aspectRatio this) (GrowingPacker.root this) ->
  GrowingPacker.fit1 this (Block.make w h) = Val (this', f) ->
  Regrown (GrowingPacker.aspectRatio this) (GrowingPacker.root this').
Proof.
  intros this ps w h this' f HI Hw Hh HB E.
  assert (SR : GrowingPacker.growRight this w h = Val (this', f) ->
               Regrown (GrowingPacker.aspectRatio this) (GrowingPacker.root this')).
  { intro E'. rewrite growRight_search in E'.
    eapply (B_search _ (grownRight this w)); eauto.
    - exact (proj1 (GInv_grownRight this ps w Hw HI)).
    - now apply Regrown_grownRight. }
  assert (SD : GrowingPacker.growDown this w h = Val (this', f) ->
               Regrown (GrowingPacker.aspectRatio this) (GrowingPacker.root this')).
  { intro E'. rewrite growDown_search in E'.
    eapply (B_search _ (grownDown this h)); eauto.
    - exact (proj1 (GInv_grownDown this ps h Hh HI)).
    - now apply Regrown_grownDown. }
  destruct HI as [HR _].
  unfold GrowingPacker.fit1 in E. simpl in E.
  destruct (search_cases this ps w h HR)
    as [[Ef [_ E']] | [p [l [Ef [Hs [_ [Hr [Hd E']]]]]]]]; rewrite Ef in E; simpl in E.
  - unfold GrowingPacker.growNode in E.
    destruct (GrowingPacker.shouldGrowRight this w h); [auto|].
    destruct (GrowingPacker.shouldGrowDown this w h); [auto|].
    destruct (GrowingPacker.canGrowRight this h); [auto|].
    destruct (GrowingPacker.canGrowDown this w); [auto|].
    inversion E; subst. assumption.
  - eapply B_search; eauto. unfold search. rewrite Ef. exact E.
Qed.

Lemma B_fit : forall blocks this ps this' fits,
  Forall positive blocks -> GInv this ps ->
  Regrown (GrowingPacker.aspectRatio this) (GrowingPacker.root this) ->
  GrowingPacker.fit this blocks = Val (this', fits) ->
  Regrown (GrowingPacker.aspectRatio this) (GrowingPacker.root this').
Proof.
  induction blocks as [|b bs IH]; intros this ps this' fits HP HI HB E.
  - inversion E; subst. assumption.
  - inversion HP as [|b' bs' [Hbw Hbh] HP']; subst.
    destruct b as [w h]; simpl in Hbw, Hbh.
    destruct (fit1_ok w h Hbw Hbh this ps HI) as [t1 [f [E1 [[_ Ho] Ha]]]].
    pose proof (B_fit1 this ps w h t1 f HI Hbw Hbh HB E1) as HB1.
    simpl in E. rewrite E1 in E. simpl in E.
    destruct (GrowingPacker.fit t1 bs) as [[t2 fs]|] eqn:E2; simpl in E; [|discriminate].
    inversion E; subst this' fits. rewrite <- Ha.
    destruct f as [nd|]; eapply IH; eauto; rewrite Ha; assumption.
Qed.

Lemma PB_fit : forall blocks this ps this' fits,
  Forall positive blocks -> Carved (Packer.root this) ps ->
  Built (Packer.root this) ->
  Packer.fit this blocks = Val (this', fits) ->
  Built (Packer.root this').
Proof.
  induction blocks as [|b bs IH]; intros this ps this' fits HP HC HB E.
  - inversion E; subst. assumption.
  - inversion HP as [|b' bs' Hb HP']; subst.
    destruct (P_fit1_ok b this ps Hb HC) as [t1 [f [E1 [[_ Ho] _]]]].
    simpl in E. rewrite E1 in E. simpl in E.
    destruct (Packer.fit t1 bs) as [[t2 fs]|] eqn:E2; simpl in E; [|discriminate].
    inversion E; subst this' fits.
    assert (HB1 : Built (Packer.root t1)).
    { unfold Packer.fit1 in E1. rewrite findNode_same in E1.
      pose proof (Rooted_carved _ _ HC) as HR.
      destruct (Rooted_find (Packer.root this) ps (Block.width b) (Block.height b) HR)
        as [[Ef _] | [p Ef]]; rewrite Ef in E1; simpl in E1.
      - inversion E1; subst. assumption.
      - destruct (findNode_at _ _ _ _ Ef) as [l [Hs [Hu [Hw Hh]]]].
        destruct (Rooted_leaf p _ ps l HR Hs Hu) as [Hr Hd].
        unfold Packer.splitAt in E1. rewrite Hs in E1. inversion E1; subst. simpl.
        rewrite splitNode_same. eapply Built_store; eauto. }
    destruct f as [nd|]; eapply IH; eauto.
Qed.

(** * Binary64 *)

(** ** Signs of binary64 results

    From the specification of the operations ([SpecFloat],
    [FloatAxioms]): a rounded result has the sign of the exact one, so a
    difference [a - b] with [b <= a] is not negative, and sums, products
    and quotients of numbers with a clear sign bit have a clear sign bit
    unless they are [NaN] (infinity times zero). *)

Lemma SFleb_zero : forall x, SFleb (S754_zero false) x = SF_nonneg x.
Proof. intros [s|s| |s m e]; try destruct s; reflexivity. Qed.


Lemma nonneg64_spec : forall f, nonneg64 f <-> SF_nonneg (Prim2SF f) = true.
Proof.
  intro f. unfold nonneg64. rewrite leb_spec.
  change (Prim2SF 0) with (S754_zero false). rewrite SFleb_zero. reflexivity.
Qed.



Lemma binary_round_aux_plus : forall mx ex lx,
  SF_plus (binary_round_aux prec emax false mx ex lx) = true.
Proof.
  intros mx ex lx. unfold binary_round_aux.
  destruct (shr_fexp prec emax mx ex lx) as [mrs' e'].
  destruct (shr_fexp prec emax _ e' loc_Exact) as [mrs'' e''].
  destruct (shr_m mrs''); [reflexivity | | reflexivity].
  destruct (Z.leb e'' (emax - prec)); reflexivity.
Qed.

Lemma shr_1_nonneg : forall mrs, (0 <= shr_m mrs)%Z -> (0 <= shr_m (shr_1 mrs))%Z.
Proof.
  intros [m r s] H. simpl in H. destruct m as [|[p|p|]|p]; simpl; lia.
Qed.

Lemma iter_shr_1_nonneg : forall p mrs,
  (0 <= shr_m mrs)%Z -> (0 <= shr_m (SpecFloat.iter_pos shr_1 p mrs))%Z.
Proof.
  induction p as [p IH|p IH|]; intros mrs H; simpl.
  - apply IH, IH, shr_1_nonneg, H.
  - apply IH, IH, H.
  - apply shr_1_nonneg, H.
Qed.

Lemma shr_fexp_nonneg : forall m e l,
  (0 <= m)%Z -> (0 <= shr_m (fst (shr_fexp prec emax m e l)))%Z.
Proof.
  intros m e l H. unfold shr_fexp, shr.
  assert (K : (0 <= shr_m (shr_record_of_loc m l))%Z)
    by (destruct l as [|[| |]]; exact H).
  destruct (fexp prec emax (Zdigits2 m + e) - e)%Z; simpl; auto.
  apply iter_shr_1_nonneg, K.
Qed.

Lemma round_nearest_even_nonneg : forall m l,
  (0 <= m)%Z -> (0 <= round_nearest_even m l)%Z.
Proof.
  intros m l H. unfold round_nearest_even.
  destruct l as [|[| |]]; try destruct (Z.even m); lia.
Qed.

Lemma binary_round_aux_nonneg : forall mx ex lx,
  (0 <= mx)%Z -> SF_nonneg (binary_round_aux prec emax false mx ex lx) = true.
Proof.
  intros mx ex lx H. unfold binary_round_aux.
  pose proof (shr_fexp_nonneg mx ex lx H) as K1.
  destruct (shr_fexp prec emax mx ex lx) as [mrs' e']. simpl in K1.
  pose proof (shr_fexp_nonneg _ e' loc_Exact
                (round_nearest_even_nonneg _ (loc_of_shr_record mrs') K1)) as K2.
  destruct (shr_fexp prec emax _ e' loc_Exact) as [mrs'' e'']. simpl in K2.
  destruct (shr_m mrs''); [reflexivity | | lia].
  destruct (Z.leb e'' (emax - prec)); reflexivity.
Qed.

Lemma binary_round_nonneg : forall m e,
  SF_nonneg (binary_round prec emax false m e) = true.
Proof.
  intros m e. unfold binary_round.
  destruct (shl_align m e _) as [mz ez]. apply binary_round_aux_nonneg. lia.
Qed.

Lemma binary_normalize_nonneg : forall m e,
  (0 <= m)%Z -> SF_nonneg (binary_normalize prec emax m e false) = true.
Proof.
  intros [|p|p] e H; simpl; [reflexivity | apply binary_round_nonneg | lia].
Qed.

(** The number of binary digits of a mantissa. *)
Lemma digits2_pos_bounds : forall m,
  (2 ^ Z.pos (digits2_pos m) <= 2 * Z.pos m /\ Z.pos m < 2 ^ Z.pos (digits2_pos m))%Z.
Proof.
  induction m as [p IH|p IH|]; simpl digits2_pos.
  - rewrite Pos2Z.inj_succ, Z.pow_succ_r by lia. lia.
  - rewrite Pos2Z.inj_succ, Z.pow_succ_r by lia. lia.
  - simpl. lia.
Qed.

Lemma iter_xO_double : forall d m, (2 * Z.pos m <= Z.pos (Pos.iter xO m d))%Z.
Proof.
  intros d m. induction d as [|d IH] using Pos.peano_ind.
  - simpl. lia.
  - rewrite Pos.iter_succ. lia.
Qed.

(** Of two positive binary64 numbers in canonical form, the one with the
    larger exponent is the larger. *)
Lemma aligned_le : forall ma ea mb eb,
  bounded prec emax ma ea = true -> bounded prec emax mb eb = true ->
  SFleb (S754_finite false mb eb) (S754_finite false ma ea) = true ->
  Z.min ea eb = eb /\
  (Z.pos (fst (shl_align mb eb eb)) <= Z.pos (fst (shl_align ma ea eb)))%Z.
Proof.
  intros ma ea mb eb Ba Bb L.
  unfold bounded, canonical_mantissa, fexp, emin in Ba, Bb.
  apply andb_true_iff in Ba, Bb. destruct Ba as [Ca _], Bb as [Cb _].
  apply Z.eqb_eq in Ca, Cb.
  change prec with 53%Z in *. change emax with 1024%Z in *.
  pose proof (digits2_pos_bounds ma) as [Da1 Da2].
  pose proof (digits2_pos_bounds mb) as [Db1 Db2].
  unfold SFleb, SFcompare in L.
  unfold shl_align. rewrite Z.sub_diag. simpl fst at 1.
  destruct (Z.compare eb ea) eqn:E.
  - apply Z.compare_eq in E. subst eb. rewrite Z.sub_diag. simpl.
    split; [apply Z.min_id|].
    change (Pos.compare_cont Eq mb ma) with (Pos.compare mb ma) in L.
    destruct (Pos.compare mb ma) eqn:P; try discriminate.
    + apply Pos.compare_eq in P. subst. lia.
    + rewrite Pos.compare_lt_iff in P. lia.
  - rewrite Z.compare_lt_iff in E. split; [lia|].
    destruct (eb - ea)%Z eqn:S; try lia. simpl.
    pose proof (iter_xO_double p ma).
    assert (Z.pos (digits2_pos ma) = 53)%Z by lia.
    assert (Z.pos (digits2_pos mb) <= 53)%Z by lia.
    assert (2 ^ Z.pos (digits2_pos mb) <= 2 ^ 53)%Z by (apply Z.pow_le_mono_r; lia).
    rewrite H0 in Da1. lia.
  - discriminate.
Qed.

Lemma binary_normalize_plus : forall m e,
  (0 <= m)%Z -> SF_plus (binary_normalize prec emax m e false) = true.
Proof.
  intros [|p|p] e H; simpl; [reflexivity | | lia].
  unfold binary_round. destruct (shl_align p e _) as [mz ez].
  apply binary_round_aux_plus.
Qed.

Lemma SFsub_nonneg : forall a b,
  valid_binary a = true -> valid_binary b = true ->
  SF_nonneg b = true -> SF_finite b = true -> SFleb b a = true ->
  SF_nonneg (SF64sub a b) = true.
Proof.
  intros a b Va Vb Nb Fb L.
  destruct b as [sb|sb| |sb mb eb]; try discriminate;
    destruct a as [sa|sa| |sa ma ea]; try discriminate L;
    try (destruct sb; try discriminate Nb); try (destruct sa; try discriminate L);
    try reflexivity.
  simpl in Va, Vb.
  destruct (aligned_le ma ea mb eb Va Vb L) as [E I].
  unfold SF64sub, SFsub, cond_Zopp. rewrite E. apply binary_normalize_nonneg. lia.
Qed.

Lemma SFsub_plus : forall a b,
  valid_binary a = true -> valid_binary b = true ->
  SF_plus a = true -> SF_plus b = true -> SFleb b a = true ->
  SF_plus (SF64sub a b) = true.
Proof.
  intros a b Va Vb Na Nb L.
  destruct b as [sb|sb| |sb mb eb]; try discriminate;
    destruct a as [sa|sa| |sa ma ea]; try discriminate L;
    try (destruct sb; try discriminate Nb); try (destruct sa; try discriminate Na);
    try reflexivity; try discriminate L.
  simpl in Va, Vb.
  destruct (aligned_le ma ea mb eb Va Vb L) as [E I].
  unfold SF64sub, SFsub, cond_Zopp. rewrite E. apply binary_normalize_plus. lia.
Qed.

Lemma SFadd_plus : forall a b,
  SF_plus a = true -> SF_plus b = true -> SF_plus (SF64add a b) = true.
Proof.
  intros a b Na Nb.
  destruct a as [sa|sa| |sa ma ea]; destruct b as [sb|sb| |sb mb eb];
    try (destruct sa; try discriminate Na); try (destruct sb; try discriminate Nb);
    try reflexivity.
  unfold SF64add, SFadd, cond_Zopp. apply binary_normalize_plus. lia.
Qed.

Lemma SFmul_plus : forall a b,
  SF_plus a = true -> SF_plus b = true -> SF_plus (SF64mul a b) = true.
Proof.
  intros a b Na Nb.
  destruct a as [sa|sa| |sa ma ea]; destruct b as [sb|sb| |sb mb eb];
    try (destruct sa; try discriminate Na); try (destruct sb; try discriminate Nb);
    try reflexivity.
  unfold SF64mul, SFmul. apply binary_round_aux_plus.
Qed.

Lemma SFdiv_plus : forall a b,
  SF_plus a = true -> SF_plus b = true -> SF_plus (SF64div a b) = true.
Proof.
  intros a b Na Nb.
  destruct a as [sa|sa| |sa ma ea]; destruct b as [sb|sb| |sb mb eb];
    try (destruct sa; try discriminate Na); try (destruct sb; try discriminate Nb);
    try reflexivity.
  unfold SF64div, SFdiv.
  destruct (SFdiv_core_binary prec emax (Z.pos ma) ea (Z.pos mb) eb) as [[mz ez] lz].
  apply binary_round_aux_plus.
Qed.


Lemma positive64_spec : forall f,
  PrimFloat.ltb 0 f = true -> SF_nonneg (Prim2SF f) = true /\ SF_plus (Prim2SF f) = true.
Proof.
  intros f P. rewrite ltb_spec in P.
  change (Prim2SF 0) with (S754_zero false) in P.
  destruct (Prim2SF f) as [s|s| |s m e]; try destruct s; try discriminate; split; reflexivity.
Qed.

Lemma finite64_spec : forall f, positive64 f -> SF_finite (Prim2SF f) = true.
Proof.
  intros f [P F]. rewrite ltb_spec in P, F.
  change (Prim2SF 0) with (S754_zero false) in P.
  change (Prim2SF infinity) with (S754_infinity false) in F.
  destruct (Prim2SF f) as [s|s| |s m e]; try destruct s; try discriminate; reflexivity.
Qed.

Lemma positive64_nonneg64 : forall f, PrimFloat.ltb 0 f = true -> nonneg64 f.
Proof. intros f P. apply nonneg64_spec. exact (proj1 (positive64_spec f P)). Qed.

Lemma positive64_plus64 : forall f, PrimFloat.ltb 0 f = true -> plus64 f.
Proof. intros f P. exact (proj2 (positive64_spec f P)). Qed.

(** [a - b] for a positive [b <= a] other than infinity is zero or
    positive. *)
Lemma sub_nonneg64 : forall a b,
  positive64 b -> PrimFloat.leb b a = true -> nonneg64 (PrimFloat.sub a b).
Proof.
  intros a b P L. apply nonneg64_spec.
  rewrite leb_spec in L. rewrite sub_spec.
  apply SFsub_nonneg; auto using Prim2SF_valid, finite64_spec.
  exact (proj1 (positive64_spec b (proj1 P))).
Qed.

Lemma sub_plus64 : forall a b,
  plus64 a -> plus64 b -> PrimFloat.leb b a = true -> plus64 (PrimFloat.sub a b).
Proof.
  unfold plus64. intros a b Pa Pb L. rewrite leb_spec in L. rewrite sub_spec.
  apply SFsub_plus; auto using Prim2SF_valid.
Qed.

Lemma add_plus64 : forall a b, plus64 a -> plus64 b -> plus64 (PrimFloat.add a b).
Proof. unfold plus64. intros a b. rewrite add_spec. apply SFadd_plus. Qed.

Lemma mul_plus64 : forall a b, plus64 a -> plus64 b -> plus64 (PrimFloat.mul a b).
Proof. unfold plus64. intros a b. rewrite mul_spec. apply SFmul_plus. Qed.

Lemma div_plus64 : forall a b, plus64 a -> plus64 b -> plus64 (PrimFloat.div a b).
Proof. unfold plus64. intros a b. rewrite div_spec. apply SFdiv_plus. Qed.

(** ** Trees of binary64 nodes *)

Lemma find64_Built : forall t w h, Built64 t ->
  Float64.findNode t w h = Val None \/ exists p l, found64 t w h p l.
Proof.
  intros t w h B. unfold found64.
  induction B as [n Hu Hr Hd | n r d w0 h0 Hu Hr Hd Hw Hh HS Br IHr Bd IHd];
    destruct n as [u nx ny nw nh nr nd]; simpl in *; subst.
  - destruct (PrimFloat.leb w nw) eqn:E1; destruct (PrimFloat.leb h nh) eqn:E2;
      simpl; auto.
    right. exists [], (Float64.Node.make false nx ny nw nh None None).
    simpl. repeat split; auto.
  - destruct IHr as [E | [p [l [E K]]]]; rewrite E.
    + destruct IHd as [E' | [p [l [E' K]]]]; rewrite E'; auto.
      right. exists (D :: p), l. simpl. split; auto.
    + right. exists (R :: p), l. simpl. split; auto.
Qed.

Lemma find64_Regrown : forall ar t w h, Regrown64 ar t ->
  Float64.findNode t w h = Val None \/ exists p l, found64 t w h p l.
Proof.
  intros ar t w h B.
  induction B as
    [n B
    | n strip old w0 Hu Hr Hd Hx Hy E1 E2 E3 E4 E5 E6 Bs Bo IHo
    | n strip old h0 Hu Hr Hd Hx Hy E1 E2 E3 E4 E5 E6 Bs Bo IHo].
  - now apply find64_Built.
  - destruct n as [u nx ny nw nh nr nd]; simpl in Hu, Hr, Hd; subst u nr nd.
    unfold found64. simpl.
    destruct (find64_Built strip w h Bs) as [E | [p [l [E K]]]]; rewrite E.
    + destruct IHo as [E' | [p [l [E' K]]]]; rewrite E'; auto.
      right. exists (D :: p), l. simpl. split; auto.
    + right. exists (R :: p), l. simpl. split; auto.
  - destruct n as [u nx ny nw nh nr nd]; simpl in Hu, Hr, Hd; subst u nr nd.
    unfold found64. simpl.
    destruct IHo as [E | [p [l [E K]]]]; rewrite E.
    + destruct (find64_Built strip w h Bs) as [E' | [p [l [E' K]]]]; rewrite E'; auto.
      right. exists (D :: p), l. simpl. split; auto.
    + right. exists (R :: p), l. simpl. split; auto.
Qed.

(** Writing a node with the same [x], [y], [width] and [height] back at
    its address leaves these fields of the root as they are. *)
Lemma store64_fields : forall p t l n',
  Float64.subtree t p = Some l ->
  Float64.Node.x n' = Float64.Node.x l -> Float64.Node.y n' = Float64.Node.y l ->
  Float64.Node.width n' = Float64.Node.width l ->
  Float64.Node.height n' = Float64.Node.height l ->
  Float64.Node.x (Float64.store t p n') = Float64.Node.x t /\
  Float64.Node.y (Float64.store t p n') = Float64.Node.y t /\
  Float64.Node.width (Float64.store t p n') = Float64.Node.width t /\
  Float64.Node.height (Float64.store t p n') = Float64.Node.height t.
Proof.
  intros [|[|] p] [u nx ny nw nh nr nd] l n' Hs F1 F2 F3 F4; simpl in *.
  - inversion Hs; subst l. auto.
  - destruct nr; [simpl; auto | discriminate].
  - destruct nd; [simpl; auto | discriminate].
Qed.

Lemma Built64_store : forall t, Built64 t ->
  forall p l w h,
  Float64.subtree t p = Some l ->
  Float64.Node.used l = false ->
  Float64.Node.right l = None -> Float64.Node.down l = None ->
  PrimFloat.leb w (Float64.Node.width l) = true ->
  PrimFloat.leb h (Float64.Node.height l) = true ->
  Built64 (Float64.store t p (Float64.splitNode l w h)).
Proof.
  intros t B. induction B as
    [n Hu Hr Hd | n r d w0 h0 Hu Hr Hd Hw0 Hh0 HS Br IHr Bd IHd];
    intros p l w h Hs Hlu Hlr Hld Hw Hh;
    destruct n as [u nx ny nw nh nr nd]; unfold split_of64 in *; simpl in *; subst.
  - destruct p as [|[|] p]; simpl in Hs; try discriminate.
    inversion Hs; subst l. simpl.
    eapply Built64_split with (w := w) (h := h); try reflexivity; simpl; auto.
    + unfold split_of64; simpl. repeat split.
    + now apply Built64_leaf.
    + now apply Built64_leaf.
  - destruct p as [|[|] p]; simpl in Hs.
    + inversion Hs; subst l. discriminate.
    + simpl.
      destruct (store64_fields p r l (Float64.splitNode l w h) Hs)
        as [F1 [F2 [F3 F4]]]; try reflexivity.
      destruct HS as [S1 [S2 [S3 [S4 S5]]]].
      eapply Built64_split with (w := w0) (h := h0); try reflexivity; simpl; eauto.
      unfold split_of64; simpl. repeat split; simpl; try congruence; apply S5.
    + simpl.
      destruct (store64_fields p d l (Float64.splitNode l w h) Hs)
        as [F1 [F2 [F3 F4]]]; try reflexivity.
      destruct HS as [S1 [S2 [S3 [S4 [S5 [S6 [S7 S8]]]]]]].
      eapply Built64_split with (w := w0) (h := h0); try reflexivity; simpl; eauto.
      unfold split_of64; simpl. repeat split; simpl; congruence.
Qed.

Lemma Regrown64_store : forall ar t, Regrown64 ar t ->
  forall p l w h,
  Float64.subtree t p = Some l ->
  Float64.Node.used l = false ->
  Float64.Node.right l = None -> Float64.Node.down l = None ->
  PrimFloat.leb w (Float64.Node.width l) = true ->
  PrimFloat.leb h (Float64.Node.height l) = true ->
  Regrown64 ar (Float64.store t p (Float64.splitNode l w h)).
Proof.
  intros ar t B. induction B as
    [n B
    | n strip old w0 Hu Hr Hd Hx Hy E1 E2 E3 E4 E5 E6 Bs Bo IHo
    | n strip old h0 Hu Hr Hd Hx Hy E1 E2 E3 E4 E5 E6 Bs Bo IHo];
    intros p l w h Hs Hlu Hlr Hld Hw Hh.
  - apply Regrown64_base. eapply Built64_store; eauto.
  - destruct n as [u nx ny nw nh nr nd]; simpl in *; subst.
    destruct p as [|[|] p]; simpl in Hs.
    + inversion Hs; subst l. discriminate.
    + simpl.
      destruct (store64_fields p strip l (Float64.splitNode l w h) Hs)
        as [F1 [F2 [F3 F4]]]; try reflexivity.
      eapply Regrown64_right with (w := Float64.Node.width strip); try reflexivity; simpl;
        try congruence; auto.
      eapply Built64_store; eauto.
    + simpl.
      destruct (store64_fields p old l (Float64.splitNode l w h) Hs)
        as [F1 [F2 [F3 F4]]]; try reflexivity.
      eapply Regrown64_right with (w := Float64.Node.width strip); try reflexivity; simpl;
        try congruence; eauto.
  - destruct n as [u nx ny nw nh nr nd]; simpl in *; subst.
    destruct p as [|[|] p]; simpl in Hs.
    + inversion Hs; subst l. discriminate.
    + simpl.
      destruct (store64_fields p old l (Float64.splitNode l w h) Hs)
        as [F1 [F2 [F3 F4]]]; try reflexivity.
      eapply Regrown64_down with (h := Float64.Node.height strip); try reflexivity; simpl;
        try congruence; eauto.
    + simpl.
      destruct (store64_fields p strip l (Float64.splitNode l w h) Hs)
        as [F1 [F2 [F3 F4]]]; try reflexivity.
      eapply Regrown64_down with (h := Float64.Node.height strip); try reflexivity; simpl;
        try congruence; auto.
      eapply Built64_store; eauto.
Qed.

Lemma Sized64_root : forall P t, Sized64 P t ->
  P (Float64.Node.width t) /\ P (Float64.Node.height t).
Proof. intros P t S. destruct S; auto. Qed.


Lemma Sized64_subtree : forall P t, Sized64 P t -> forall p l,
  Float64.subtree t p = Some l ->
  P (Float64.Node.width l) /\ P (Float64.Node.height l).
Proof.
  intros P t S. induction S as [n Hr Hd Pw Ph | n r d Hr Hd Pw Ph Sr IHr Sd IHd];
    intros [|[|] p] l Hs; simpl in Hs; try rewrite Hr in Hs; try rewrite Hd in Hs;
    try discriminate; try (inversion Hs; subst; now auto); eauto.
Qed.

Lemma Sized64_store : forall P t, Sized64 P t -> forall p l n',
  Float64.subtree t p = Some l -> Sized64 P n' ->
  Sized64 P (Float64.store t p n').
Proof.
  intros P t S. induction S as [n Hr Hd Pw Ph | n r d Hr Hd Pw Ph Sr IHr Sd IHd];
    intros [|[|] p] l n' Hs Sn; destruct n as [u nx ny nw nh nr nd];
    simpl in *; subst; try discriminate; auto.
  - eapply Sized64_node; simpl; eauto.
  - eapply Sized64_node; simpl; eauto.
Qed.

Lemma Sized64_split : forall (P : float -> Prop) l w h,
  P (Float64.Node.width l) -> P (Float64.Node.height l) ->
  P (PrimFloat.sub (Float64.Node.width l) w) -> P h ->
  P (PrimFloat.sub (Float64.Node.height l) h) ->
  Sized64 P (Float64.splitNode l w h).
Proof.
  intros P l w h P1 P2 P3 P4 P5.
  eapply Sized64_node; simpl; try reflexivity; auto;
    apply Sized64_leaf; simpl; auto.
Qed.


(** One iteration of the fixed packer's loop. *)
Lemma P64_fit1 : forall this b,
  Built64 (Float64.Packer.root this) ->
  exists this' f,
    Float64.Packer.fit1 this b = Val (this', f) /\
    Built64 (Float64.Packer.root this') /\
    (Sized64 nonneg64 (Float64.Packer.root this) -> positive_block64 b ->
     Sized64 nonneg64 (Float64.Packer.root this')).
Proof.
  intros this [w h] B. unfold Float64.Packer.fit1. simpl.
  destruct (find64_Built _ w h B) as [E | [p [l [E [Hs [Hu [Hr [Hd [Hw Hh]]]]]]]]];
    rewrite E; simpl.
  - exists this, None. auto.
  - unfold Float64.Packer.splitAt. rewrite Hs.
    eexists; eexists. split; [reflexivity|]. simpl. split.
    + eapply Built64_store; eauto.
    + intros S [Pw Ph]. simpl in Pw, Ph.
      destruct (Sized64_subtree _ _ S p l Hs) as [Nw Nh].
      eapply Sized64_store; eauto.
      apply Sized64_split; auto using sub_nonneg64, positive64_nonneg64.
      apply positive64_nonneg64, Ph.
Qed.

Lemma P64_fit : forall bs this,
  Built64 (Float64.Packer.root this) ->
  exists this' fits,
    Float64.Packer.fit this bs = Val (this', fits) /\
    Built64 (Float64.Packer.root this') /\
    (Sized64 nonneg64 (Float64.Packer.root this) -> Forall positive_block64 bs ->
     Sized64 nonneg64 (Float64.Packer.root this')).
Proof.
  induction bs as [|b bs IH]; intros this B.
  - exists this, []. simpl. auto.
  - destruct (P64_fit1 this b B) as [t1 [f [E1 [B1 S1]]]].
    destruct (IH t1 B1) as [t2 [fs [E2 [B2 S2]]]].
    exists t2, (f :: fs). simpl. rewrite E1. simpl. rewrite E2. simpl.
    split; [reflexivity|]. split; [assumption|].
    intros S HP. inversion HP; subst. auto.
Qed.

(** The growing packer. *)
Lemma growRight64_place : forall this w h,
  Float64.GrowingPacker.growRight this w h = place64 (grownRight64 this w) w h.
Proof. reflexivity. Qed.

Lemma growDown64_place : forall this w h,
  Float64.GrowingPacker.growDown this w h = place64 (grownDown64 this h) w h.
Proof. reflexivity. Qed.

Lemma plus64_one : plus64 1.
Proof. reflexivity. Qed.

Lemma plus64_zero : plus64 0.
Proof. reflexivity. Qed.

Lemma G64_place : forall ar this w h,
  Regrown64 ar (Float64.GrowingPacker.root this) ->
  exists this' f,
    place64 this w h = Val (this', f) /\
    Float64.GrowingPacker.aspectRatio this' = Float64.GrowingPacker.aspectRatio this /\
    Regrown64 ar (Float64.GrowingPacker.root this') /\
    (Sized64 plus64 (Float64.GrowingPacker.root this) -> plus64 w -> plus64 h ->
     Sized64 plus64 (Float64.GrowingPacker.root this')).
Proof.
  intros ar this w h B. unfold place64.
  destruct (find64_Regrown ar _ w h B) as [E | [p [l [E [Hs [Hu [Hr [Hd [Hw Hh]]]]]]]]];
    rewrite E; simpl.
  - exists this, None. auto.
  - unfold Float64.GrowingPacker.splitAt. rewrite Hs.
    eexists; eexists. split; [reflexivity|]. simpl. split; [reflexivity|]. split.
    + eapply Regrown64_store; eauto.
    + intros S Pw Ph.
      destruct (Sized64_subtree _ _ S p l Hs) as [Nw Nh].
      eapply Sized64_store; eauto.
      apply Sized64_split; auto using sub_plus64.
Qed.

Lemma Regrown64_grownRight : forall this w,
  Regrown64 (Float64.GrowingPacker.aspectRatio this) (Float64.GrowingPacker.root this) ->
  Regrown64 (Float64.GrowingPacker.aspectRatio this)
            (Float64.GrowingPacker.root (grownRight64 this w)).
Proof.
  intros this w B.
  eapply Regrown64_right with (w := w) (old := Float64.GrowingPacker.root this);
    try reflexivity; auto.
  now apply Built64_leaf.
Qed.

Lemma Regrown64_grownDown : forall this h,
  Regrown64 (Float64.GrowingPacker.aspectRatio this) (Float64.GrowingPacker.root this) ->
  Regrown64 (Float64.GrowingPacker.aspectRatio this)
            (Float64.GrowingPacker.root (grownDown64 this h)).
Proof.
  intros this h B.
  eapply Regrown64_down with (h := h) (old := Float64.GrowingPacker.root this);
    try reflexivity; auto.
  now apply Built64_leaf.
Qed.

Lemma Sized64_grownRight : forall this w,
  plus64 (Float64.GrowingPacker.aspectRatio this) -> plus64 w ->
  Sized64 plus64 (Float64.GrowingPacker.root this) ->
  Sized64 plus64 (Float64.GrowingPacker.root (grownRight64 this w)).
Proof.
  intros this w Pa Pw S. destruct (Sized64_root _ _ S) as [Rw Rh].
  assert (Nw : plus64 (PrimFloat.add (Float64.Node.width (Float64.GrowingPacker.root this)) w))
    by now apply add_plus64.
  assert (Nh : plus64 (PrimFloat.mul
                 (PrimFloat.add (Float64.Node.width (Float64.GrowingPacker.root this)) w)
                 (PrimFloat.div 1 (Float64.GrowingPacker.aspectRatio this))))
    by (apply mul_plus64; [assumption | apply div_plus64; [exact plus64_one | assumption]]).
  eapply Sized64_node; simpl; try reflexivity; auto.
  apply Sized64_leaf; simpl; auto.
Qed.

Lemma Sized64_grownDown : forall this h,
  plus64 (Float64.GrowingPacker.aspectRatio this) -> plus64 h ->
  Sized64 plus64 (Float64.GrowingPacker.root this) ->
  Sized64 plus64 (Float64.GrowingPacker.root (grownDown64 this h)).
Proof.
  intros this h Pa Ph S. destruct (Sized64_root _ _ S) as [Rw Rh].
  assert (Nh : plus64 (PrimFloat.add (Float64.Node.height (Float64.GrowingPacker.root this)) h))
    by now apply add_plus64.
  assert (Nw : plus64 (PrimFloat.mul
                 (PrimFloat.add (Float64.Node.height (Float64.GrowingPacker.root this)) h)
                 (Float64.GrowingPacker.aspectRatio this)))
    by now apply mul_plus64.
  eapply Sized64_node; simpl; try reflexivity; auto.
  apply Sized64_leaf; simpl; auto.
Qed.

(** One iteration of the growing packer's loop. *)
Lemma G64_fit1 : forall this b,
  Regrown64 (Float64.GrowingPacker.aspectRatio this) (Float64.GrowingPacker.root this) ->
  exists this' f,
    Float64.GrowingPacker.fit1 this b = Val (this', f) /\
    Float64.GrowingPacker.aspectRatio this' = Float64.GrowingPacker.aspectRatio this /\
    Regrown64 (Float64.GrowingPacker.aspectRatio this) (Float64.GrowingPacker.root this') /\
    (Sized64 plus64 (Float64.GrowingPacker.root this) ->
     plus64 (Float64.GrowingPacker.aspectRatio this) ->
     plus64 (Float64.Block.width b) -> plus64 (Float64.Block.height b) ->
     Sized64 plus64 (Float64.GrowingPacker.root this')).
Proof.
  intros this [w h] B. simpl.
  assert (GR : exists this' f,
    Float64.GrowingPacker.growRight this w h = Val (this', f) /\
    Float64.GrowingPacker.aspectRatio this' = Float64.GrowingPacker.aspectRatio this /\
    Regrown64 (Float64.GrowingPacker.aspectRatio this) (Float64.GrowingPacker.root this') /\
    (Sized64 plus64 (Float64.GrowingPacker.root this) ->
     plus64 (Float64.GrowingPacker.aspectRatio this) -> plus64 w -> plus64 h ->
     Sized64 plus64 (Float64.GrowingPacker.root this'))).
  { rewrite growRight64_place.
    destruct (G64_place _ (grownRight64 this w) w h (Regrown64_grownRight this w B))
      as [t [f [E [A [R S]]]]].
    exists t, f. split; [assumption|]. split; [exact A|]. split; [exact R|].
    intros S0 Pa Pw Ph. apply S; auto. now apply Sized64_grownRight. }
  assert (GD : exists this' f,
    Float64.GrowingPacker.growDown this w h = Val (this', f) /\
    Float64.GrowingPacker.aspectRatio this' = Float64.GrowingPacker.aspectRatio this /\
    Regrown64 (Float64.GrowingPacker.aspectRatio this) (Float64.GrowingPacker.root this') /\
    (Sized64 plus64 (Float64.GrowingPacker.root this) ->
     plus64 (Float64.GrowingPacker.aspectRatio this) -> plus64 w -> plus64 h ->
     Sized64 plus64 (Float64.GrowingPacker.root this'))).
  { rewrite growDown64_place.
    destruct (G64_place _ (grownDown64 this h) w h (Regrown64_grownDown this h B))
      as [t [f [E [A [R S]]]]].
    exists t, f. split; [assumption|]. split; [exact A|]. split; [exact R|].
    intros S0 Pa Pw Ph. apply S; auto. now apply Sized64_grownDown. }
  unfold Float64.GrowingPacker.fit1. simpl.
  destruct (find64_Regrown _ _ w h B) as [E | [p [l [E [Hs [Hu [Hr [Hd [Hw Hh]]]]]]]]];
    rewrite E; simpl.
  - unfold Float64.GrowingPacker.growNode.
    destruct (Float64.GrowingPacker.shouldGrowRight this w h); [exact GR|].
    destruct (Float64.GrowingPacker.shouldGrowDown this w h); [exact GD|].
    destruct (Float64.GrowingPacker.canGrowRight this h); [exact GR|].
    destruct (Float64.GrowingPacker.canGrowDown this w); [exact GD|].
    exists this, None. auto.
  - unfold Float64.GrowingPacker.splitAt. rewrite Hs.
    eexists; eexists. split; [reflexivity|]. simpl. split; [reflexivity|]. split.
    + eapply Regrown64_store; eauto.
    + intros S Pa Pw Ph.
      destruct (Sized64_subtree _ _ S p l Hs) as [Nw Nh].
      eapply Sized64_store; eauto.
      apply Sized64_split; auto using sub_plus64.
Qed.

Lemma G64_fit : forall bs this,
  Regrown64 (Float64.GrowingPacker.aspectRatio this) (Float64.GrowingPacker.root this) ->
  exists this' fits,
    Float64.GrowingPacker.fit this bs = Val (this', fits) /\
    Float64.GrowingPacker.aspectRatio this' = Float64.GrowingPacker.aspectRatio this /\
    Regrown64 (Float64.GrowingPacker.aspectRatio this) (Float64.GrowingPacker.root this') /\
    (Sized64 plus64 (Float64.GrowingPacker.root this) ->
     plus64 (Float64.GrowingPacker.aspectRatio this) ->
     Forall positive_block64 bs ->
     Sized64 plus64 (Float64.GrowingPacker.root this')).
Proof.
  induction bs as [|b bs IH]; intros this B.
  - exists this, []. simpl. auto.
  - destruct (G64_fit1 this b B) as [t1 [f [E1 [A1 [B1 S1]]]]].
    rewrite <- A1 in B1.
    destruct (IH t1 B1) as [t2 [fs [E2 [A2 [B2 S2]]]]].
    exists t2, (f :: fs). simpl. rewrite E1. simpl. rewrite E2. simpl.
    split; [reflexivity|]. split; [congruence|]. split; [rewrite <- A1; assumption|].
    intros S Pa HP. inversion HP as [|b' bs' [[Pw _] [Ph _]] HP']; subst.
    apply S2; auto.
    + apply S1; auto using positive64_plus64.
    + rewrite A1. assumption.
Qed.

(** ** The claims on shapes and sizes *)

(** C4, amended.  At every point of a run every node is a leaf or fully
    split.  A node split by [splitNode] for a [w] by [h] block has the
    children the source assigns, [right = {x: node.x + w, y: node.y,
    width: node.width - w, height: h}] and [down = {x: node.x,
    y: node.y + h, width: node.width, height: node.height - h}], with
    [w <= node.width] and [h <= node.height]; a root assigned by
    [growRight] or [growDown] has the previous root and the added strip
    as children.  This holds on binary64 numbers for every start and
    every list of blocks, whatever the numbers are, and [fit] returns
    (first part), and likewise on rationals (second part).  When the sums
    and differences are exact (whole sizes up to 2^53) the children of
    every node of the fixed packer do not overlap and, with the footprint
    at the node's [(x, y)], tile it; with a square start the same holds
    in the growing packer for every node but the roots assigned by
    growth, whose two children do not overlap. *)
Theorem tree_shape :
  (forall W H bs,
     (exists this fits,
        Float64.Packer.fit (Float64.Packer.init W H) bs = Val (this, fits) /\
        Built64 (Float64.Packer.root this)) /\
     (exists this fits,
        Float64.GrowingPacker.fit (Float64.GrowingPacker.init W H) bs = Val (this, fits) /\
        Regrown64 (Float64.GrowingPacker.aspectRatio (Float64.GrowingPacker.init W H))
                  (Float64.GrowingPacker.root this))) /\
  (forall width height blocks,
     0 < width -> 0 < height -> Forall positive blocks ->
     (exists this fits,
        Packer.fit (Packer.init width height) blocks = Val (this, fits) /\
        Built (Packer.root this) /\
        (exact_fixed width height blocks -> Shape_split (Packer.root this))) /\
     (exists this fits,
        GrowingPacker.fit (GrowingPacker.init width height) blocks = Val (this, fits) /\
        Regrown (GrowingPacker.aspectRatio (GrowingPacker.init width height))
                (GrowingPacker.root this) /\
        (exact_square width height blocks -> Shape_grown (GrowingPacker.root this)))).
Proof.
  split.
  - intros W H bs. split.
    + destruct (P64_fit bs (Float64.Packer.init W H)) as [t [fs [E [B _]]]].
      * now apply Built64_leaf.
      * exists t, fs. auto.
    + destruct (G64_fit bs (Float64.GrowingPacker.init W H)) as [t [fs [E [_ [B _]]]]].
      * apply Regrown64_base. now apply Built64_leaf.
      * exists t, fs. auto.
  - intros W H bs HW HH HP. split.
    + destruct (P_fit_ok bs (Packer.init W H) [] HP) as [t [fs [E [HC _]]]].
      * apply Carved_fresh; lra.
      * exists t, fs. split; [assumption|]. split.
        -- eapply (PB_fit bs (Packer.init W H) []); eauto.
           ++ apply Carved_fresh; lra.
           ++ now apply Built_leaf.
        -- intros _. eapply Carved_shape; eauto.
    + destruct (G_fit_ok bs (GrowingPacker.init W H) [] HP (GInv_init W H HW HH))
        as [t [fs [E [[HC _] _]]]].
      exists t, fs. split; [assumption|]. split.
      * eapply (B_fit bs (GrowingPacker.init W H) []); eauto.
        -- now apply GInv_init.
        -- apply Regrown_base. now apply Built_leaf.
      * intros _. eapply Rooted_shape; eauto.
Qed.

Lemma tree_shape_witness :
  ((exists this fits,
      Packer.fit (Packer.init 100 100) [B 50 50; B 50 50; B 60 60] = Val (this, fits) /\
      Built (Packer.root this) /\
      (exact_fixed 100 100 [B 50 50; B 50 50; B 60 60] -> Shape_split (Packer.root this))) /\
   (exists this fits,
      GrowingPacker.fit (GrowingPacker.init 100 100) [B 50 50; B 50 50; B 60 60]
        = Val (this, fits) /\
      Regrown (GrowingPacker.aspectRatio (GrowingPacker.init 100 100))
              (GrowingPacker.root this) /\
      (exact_square 100 100 [B 50 50; B 50 50; B 60 60] ->
       Shape_grown (GrowingPacker.root this)))) /\
  exact_fixed 100 100 [B 50 50; B 50 50; B 60 60] /\
  exact_square 100 100 [B 50 50; B 50 50; B 60 60].
Proof.
  assert (I : forall z : Z, (z <= 2 ^ 53)%Z -> whole (inject_Z z)).
  { intros z Hz. split; [exists z; reflexivity|].
    unfold two53. rewrite <- Zle_Qle. exact Hz. }
  assert (WB : Forall whole_block [B 50 50; B 50 50; B 60 60]).
  { repeat constructor; apply (I 50%Z) || apply (I 60%Z); discriminate. }
  split; [|split].
  - apply (proj2 tree_shape 100 100 [B 50 50; B 50 50; B 60 60]).
    + reflexivity.
    + reflexivity.
    + repeat constructor.
  - split; [apply (I 100%Z); discriminate|]. split; [apply (I 100%Z); discriminate|].
    exact WB.
  - split; [reflexivity|]. split; [exists 100%Z; reflexivity|]. split; [exact WB|].
    discriminate.
Defined.




(** ** Every run returns *)

Lemma P64_fit_length : forall bs this this' fits,
  Float64.Packer.fit this bs = Val (this', fits) -> length fits = length bs.
Proof.
  induction bs as [|b bs IH]; intros this this' fits E; simpl in E.
  - inversion E. reflexivity.
  - destruct (Float64.Packer.fit1 this b) as [[t1 f]|]; simpl in E; [|discriminate].
    destruct (Float64.Packer.fit t1 bs) as [[t2 fs]|] eqn:E2; simpl in E; [|discriminate].
    inversion E; subst. simpl. f_equal. eapply IH; eauto.
Qed.

Lemma G64_fit_length : forall bs this this' fits,
  Float64.GrowingPacker.fit this bs = Val (this', fits) -> length fits = length bs.
Proof.
  induction bs as [|b bs IH]; intros this this' fits E; simpl in E.
  - inversion E. reflexivity.
  - destruct (Float64.GrowingPacker.fit1 this b) as [[t1 f]|]; simpl in E; [|discriminate].
    destruct (Float64.GrowingPacker.fit t1 bs) as [[t2 fs]|] eqn:E2; simpl in E;
      [|discriminate].
    inversion E; subst. simpl. f_equal. eapply IH; eauto.
Qed.

(** X10.  On binary64 numbers, whatever the start and the blocks
    (infinities and [NaN] included): [fit] of either packer returns,
    never reading a child of a node that has none; it records one result
    per block; and the growing packer's aspect ratio stays the one
    computed by [init]. *)
Theorem fit_returns : forall W H bs,
  (exists this fits,
     Float64.Packer.fit (Float64.Packer.init W H) bs = Val (this, fits) /\
     length fits = length bs) /\
  (exists this fits,
     Float64.GrowingPacker.fit (Float64.GrowingPacker.init W H) bs = Val (this, fits) /\
     length fits = length bs /\
     Float64.GrowingPacker.aspectRatio this
       = Float64.GrowingPacker.aspectRatio (Float64.GrowingPacker.init W H)).
Proof.
  intros W H bs. split.
  - destruct (P64_fit bs (Float64.Packer.init W H)) as [t [fs [E _]]].
    + now apply Built64_leaf.
    + exists t, fs. split; [assumption|]. eapply P64_fit_length; eauto.
  - destruct (G64_fit bs (Float64.GrowingPacker.init W H)) as [t [fs [E [A _]]]].
    + apply Regrown64_base. now apply Built64_leaf.
    + exists t, fs. split; [assumption|]. split; [eapply G64_fit_length; eauto | exact A].
Qed.

(** * The two embeddings on concrete runs *)

(** On the runs evaluated for the claims above the binary64 embedding
    computes the same trees and records the same nodes as the embedding
    on rationals. *)
Lemma binary64_agrees_on_evaluated_runs :
  fixed_runs_agree 100 100 [FB 50 50; FB 50 50; FB 60 60] = true /\
  fixed_runs_agree 100 100 [FB 50 50] = true /\
  fixed_runs_agree 100 100 [FB 100 100] = true /\
  growing_runs_agree 100 100 [FB 100 100; FB 100 100] = true /\
  growing_runs_agree 1 2 [FB 1 2; FB 1 1] = true /\
  growing_runs_agree 1 2 [FB 1 2; FB 1 1; FB 1 2] = true /\
  growing_runs_agree 1 2 [FB 1 2; FB 1 2; FB 1 1] = true.
Proof. repeat split; vm_compute; reflexivity. Qed.

(** They agree as well on whole sizes at the top of the range of
    [exact_fixed] and [exact_square]: a bin of side 2^53, and a square
    start whose side and blocks add up to 2^53. *)
Lemma binary64_agrees_on_large_whole_runs :
  fixed_runs_agree 0x1p+53 0x1p+53
    [FB 9007199254740991 1; FB 1 9007199254740991; FB 3 5;
     FB 0x1p+52 0x1p+52; FB 0x1p+52 4503599627370495] = true /\
  growing_runs_agree 0x1p+51 0x1p+51
    [FB 0x1p+51 0x1p+51; FB 0x1p+50 7; FB 1125899906842616 1] = true /\
  growing_runs_agree 1 1
    [FB 4503599627370495 1; FB 1 4503599627370486; FB 5 3] = true.
Proof. repeat split; vm_compute; reflexivity. Qed.

(** They differ where an operation rounds: started at 9 by 7 the aspect
    ratio is the binary64 number nearest to 9/7, and after three 9 by 7
    blocks the binary64 root is 27 wide where the root on rationals is 18
    wide. *)
Lemma binary64_differs_when_rounding :
  growing_runs_agree 9 7 [FB 9 7; FB 9 7; FB 9 7] = false /\
  (exists this fits,
     Float64.GrowingPacker.fit (Float64.GrowingPacker.init 9 7) [FB 9 7; FB 9 7; FB 9 7]
       = Val (this, fits) /\
     option_map Qred (Float64.exact (Float64.Node.width (Float64.GrowingPacker.root this)))
       = Some 27) /\
  (exists this fits,
     GrowingPacker.fit (GrowingPacker.init 9 7) [B 9 7; B 9 7; B 9 7] = Val (this, fits) /\
     Node.width (GrowingPacker.root this) == 18).
Proof.
  split; [vm_compute; reflexivity|]. split.
  - eexists; eexists. split; [vm_compute; reflexivity|]. vm_compute. reflexivity.
  - eexists; eexists. split; [vm_compute; reflexivity|]. vm_compute. reflexivity.
Qed.

(** Where a sum or a difference rounds, the children [splitNode] assigns
    need not tile the node: in [FixedSizePacker(0.9, 0.9)] after 0.4x0.7
    and 0.2x0.6 the node at [(0.4, 0)], 0.5 wide, has a right child at
    [x = 0.4 + 0.2] of width [0.5 - 0.2].  The sum rounds up, so the
    child starts beyond the right edge of the footprint, leaving a gap,
    and ends beyond the right edge of the node. *)
#[warnings="-inexact-float"]
Lemma binary64_split_sticks_out :
  exists this f1 f2 n r rn rr fr,
    Float64.Packer.fit (Float64.Packer.init 0.9 0.9) [FB 0.4 0.7; FB 0.2 0.6]
      = Val (this, [f1; Some f2]) /\
    Float64.subtree (Float64.Packer.root this) [R] = Some n /\
    Float64.Node.used n = true /\
    Float64.Node.right n = Some r /\
    Float64.region n = Some rn /\ Float64.region r = Some rr /\
    Float64.footprint (FB 0.2 0.6) f2 = Some fr /\
    rx fr == rx rn /\ ry fr == ry rn /\
    rx fr + rw fr < rx rr /\
    rx rn + rw rn < rx rr + rw rr /\
    ~ inside rr rn.
Proof.
  do 8 eexists. split; [vm_compute; reflexivity|].
  split; [reflexivity|]. split; [reflexivity|]. split; [reflexivity|].
  split; [vm_compute; reflexivity|]. split; [vm_compute; reflexivity|].
  split; [vm_compute; reflexivity|].
  split; [evaluate|]. split; [evaluate|]. split; [evaluate|]. split; [evaluate|].
  intros [_ [K _]]. vm_compute in K. apply K. reflexivity.
Qed.

(** C4, as stated, fails in two ways.  In the growing packer a root
    assigned by growth is not tiled by its children: after two 100 by 100
    blocks the 200 by 200 root has the previous 100 by 100 root and a 100
    by 200 strip as children.  And in either packer the children of a
    split node are sums and differences that can round: in
    [FixedSizePacker(0.9, 0.9)] a right child starts after a gap and ends
    outside its parent. *)
#[warnings="-inexact-float"]
Lemma tree_not_tiled_counterexample :
  (exists this fits,
     GrowingPacker.fit (GrowingPacker.init 100 100) [B 100 100; B 100 100]
       = Val (this, fits) /\
     ~ Shape_split (GrowingPacker.root this)) /\
  (exists this f1 f2 n r rn rr fr,
     Float64.Packer.fit (Float64.Packer.init 0.9 0.9) [FB 0.4 0.7; FB 0.2 0.6]
       = Val (this, [f1; Some f2]) /\
     Float64.subtree (Float64.Packer.root this) [R] = Some n /\
     Float64.Node.used n = true /\
     Float64.Node.right n = Some r /\
     Float64.region n = Some rn /\ Float64.region r = Some rr /\
     Float64.footprint (FB 0.2 0.6) f2 = Some fr /\
     rx fr == rx rn /\ ry fr == ry rn /\
     rx fr + rw fr < rx rr /\
     rx rn + rw rn < rx rr + rw rr /\
     ~ inside rr rn).
Proof.
  split.
  - exact grown_root_not_tiled_counterexample.
  - destruct binary64_split_sticks_out as [this [f1 [f2 [n [r [rn [rr [fr K]]]]]]]].
    exists this, f1, f2, n, r, rn, rr, fr. exact K.
Qed.
